(** * ROI estimator of the OneThrive backends

    Source: [src/roiCalculator.js] (function [calculateROI] and the handler of
    [POST /api/roi-calculator]) and the two copies of [calculateROI] in
    [src/backend.js].

    JavaScript numbers are IEEE-754 doubles.  The estimator is written once
    per source copy over an interface of the arithmetic it uses ([+], [-],
    [*], [/], [Math.min], [Math.max] and decimal literals) and read at these
    number models:
      - binary64 floats, the arithmetic of the code: every operation is
        rounded, and overflows to an infinity or gives NaN as a JavaScript
        engine has it.  The properties of the returned numbers are proved
        here, from the specification of the primitive floats;
      - [Q], exact rational arithmetic: the reals in which the
        specification computes its values;
      - [option Q], exact arithmetic in which a division by zero is a fault;
      - [Q * list Q], exact arithmetic that logs the divisors. *)

From Stdlib Require Import QArith Qminmax Lqa ZArith Lia Bool List String Ascii.
From Stdlib Require Import PrimFloat Uint63 SpecFloat FloatOps FloatAxioms.
Import ListNotations.

Set Implicit Arguments.

(** ** Arithmetic of JavaScript numbers, as used by the estimator *)

Declare Scope js_scope.
Delimit Scope js_scope with js.

Class JSNumber (N : Type) : Type := {
  lit : Q -> N;                 (* a decimal literal of the program text *)
  js_add : N -> N -> N;
  js_sub : N -> N -> N;
  js_mul : N -> N -> N;
  js_div : N -> N -> N;
  Math_min : N -> N -> N;
  Math_max : N -> N -> N
}.

Infix "+" := js_add : js_scope.
Infix "-" := js_sub : js_scope.
Infix "*" := js_mul : js_scope.
Infix "/" := js_div : js_scope.

(** Exact arithmetic. *)
#[export] Instance Q_number : JSNumber Q := {
  lit q := q;
  js_add := Qplus;
  js_sub := Qminus;
  js_mul := Qmult;
  js_div := Qdiv;
  Math_min := Qmin;
  Math_max := Qmax
}.







(** Binary64, the arithmetic of a JavaScript engine.  A literal [n/d] of the
    program text is its correctly rounded value: the rounded quotient of the
    two integers, both exact in binary64. *)
Module Binary64.

(* an integer of the program text; they are far below 2^63 *)
Definition of_Z (z : Z) : float :=
  match z with
  | Z0 => 0%float
  | Zpos _ => PrimFloat.of_uint63 (Uint63.of_Z z)
  | Zneg p => PrimFloat.opp (PrimFloat.of_uint63 (Uint63.of_Z (Zpos p)))
  end.

Definition literal (q : Q) : float :=
  PrimFloat.div (of_Z (Qnum q)) (of_Z (Zpos (Qden q))).

(* Math.max: NaN if an argument is NaN; +0 is larger than -0. *)
Definition max (a b : float) : float :=
  if (PrimFloat.is_nan a || PrimFloat.is_nan b)%bool then PrimFloat.nan
  else if PrimFloat.ltb a b then b
  else if PrimFloat.ltb b a then a
  else if PrimFloat.get_sign a then b else a.

(* Math.min: NaN if an argument is NaN; -0 is smaller than +0. *)
Definition min (a b : float) : float :=
  if (PrimFloat.is_nan a || PrimFloat.is_nan b)%bool then PrimFloat.nan
  else if PrimFloat.ltb a b then a
  else if PrimFloat.ltb b a then b
  else if PrimFloat.get_sign a then a else b.

Definition number : JSNumber float := {|
  lit := literal;
  js_add := PrimFloat.add;
  js_sub := PrimFloat.sub;
  js_mul := PrimFloat.mul;
  js_div := PrimFloat.div;
  Math_min := min;
  Math_max := max
|}.

(* x <= y; false when one of them is NaN *)
Definition le (x y : float) : Prop := PrimFloat.leb x y = true.

(* a number that is not negative: 0 <= x; +Infinity is one, NaN is not *)
Definition nonnegative (x : float) : Prop := le 0 x.

(* a real number that is not negative *)
Definition real_nonnegative (x : float) : Prop :=
  le 0 x /\ PrimFloat.is_finite x = true.

End Binary64.

(** ** Data model *)

(** The object destructured by [calculateROI] (and built by the handler). *)
Record ROIInput (N : Type) : Type := {
  numEmployees : N;
  avgAnnualSalary : N;
  annualRevenue : N;
  employeesWhoLeft : N;
  avgExtraAbsenteeismDaysPerEmployee : N;
  engagementScore : N
}.

(** The object returned by [calculateROI]. *)
Record ROIResult (N : Type) : Type := {
  totalTurnoverCost : N;
  totalDisengagementCost : N;
  totalAbsenteeismCost : N;
  totalHiddenLoss : N;
  potentialSavingsMin : N;
  potentialSavingsMax : N;
  potentialRevenueIncreaseMin : N;
  potentialRevenueIncreaseMax : N
}.

(** ** src/roiCalculator.js *)

Module RoiCalculator.
Section Estimator.
Context {N : Type} `{JSNumber N}.
Local Open Scope js_scope.

(* function calculateROI(data), lines 139-199 *)
Definition calculateROI (data : ROIInput N) : ROIResult N :=
  let numEmployees := data.(numEmployees) in
  let avgAnnualSalary := data.(avgAnnualSalary) in
  let annualRevenue := data.(annualRevenue) in
  let employeesWhoLeft := data.(employeesWhoLeft) in
  let avgExtraAbsenteeismDaysPerEmployee := data.(avgExtraAbsenteeismDaysPerEmployee) in
  let engagementScore := data.(engagementScore) in
  (* Configuration Constants *)
  let DISENGAGEMENT_PRODUCTIVITY_LOSS_FACTOR := lit 0.34 in
  let AVG_REPLACEMENT_COST_FACTOR := lit 1.25 in
  let WORKING_DAYS_PER_YEAR := lit 250 in
  let REVENUE_INCREASE_FACTOR_MIN := lit 0.02 in
  let REVENUE_INCREASE_FACTOR_MAX := lit 0.05 in
  (* Calculate turnover cost *)
  let costPerReplacement := avgAnnualSalary * AVG_REPLACEMENT_COST_FACTOR in
  let totalTurnoverCost := employeesWhoLeft * costPerReplacement in
  (* Calculate disengagement cost *)
  let disengagementInfluenceFactor := (lit 10 - engagementScore) / lit 10 in
  let avgDailySalary := avgAnnualSalary / WORKING_DAYS_PER_YEAR in
  let productivityLossCost :=
    numEmployees * avgAnnualSalary * disengagementInfluenceFactor
    * DISENGAGEMENT_PRODUCTIVITY_LOSS_FACTOR in
  let absenteeismCost :=
    numEmployees * avgExtraAbsenteeismDaysPerEmployee * avgDailySalary
    * disengagementInfluenceFactor in
  let totalDisengagementCost := productivityLossCost + absenteeismCost in
  (* Calculate total hidden loss *)
  let totalHiddenLoss := totalTurnoverCost + totalDisengagementCost in
  (* Calculate potential savings (by improving engagement score by 1-2 points) *)
  let improvedEngagement1Pt := Math_min (lit 10) (engagementScore + lit 1) in
  let newDisengagementInfluenceFactor1Pt := (lit 10 - improvedEngagement1Pt) / lit 10 in
  let newProductivityLossCost1Pt :=
    numEmployees * avgAnnualSalary * newDisengagementInfluenceFactor1Pt
    * DISENGAGEMENT_PRODUCTIVITY_LOSS_FACTOR in
  let newAbsenteeismCost1Pt :=
    numEmployees * avgExtraAbsenteeismDaysPerEmployee * avgDailySalary
    * newDisengagementInfluenceFactor1Pt in
  let newTotalDisengagementCost1Pt := newProductivityLossCost1Pt + newAbsenteeismCost1Pt in
  let savings1Pt := totalDisengagementCost - newTotalDisengagementCost1Pt in
  let improvedEngagement2Pt := Math_min (lit 10) (engagementScore + lit 2) in
  let newDisengagementInfluenceFactor2Pt := (lit 10 - improvedEngagement2Pt) / lit 10 in
  let newProductivityLossCost2Pt :=
    numEmployees * avgAnnualSalary * newDisengagementInfluenceFactor2Pt
    * DISENGAGEMENT_PRODUCTIVITY_LOSS_FACTOR in
  let newAbsenteeismCost2Pt :=
    numEmployees * avgExtraAbsenteeismDaysPerEmployee * avgDailySalary
    * newDisengagementInfluenceFactor2Pt in
  let newTotalDisengagementCost2Pt := newProductivityLossCost2Pt + newAbsenteeismCost2Pt in
  let savings2Pt := totalDisengagementCost - newTotalDisengagementCost2Pt in
  (* Calculate potential revenue increase *)
  let potentialRevenueIncreaseMin :=
    annualRevenue * REVENUE_INCREASE_FACTOR_MIN * ((engagementScore + lit 1) / lit 10) in
  let potentialRevenueIncreaseMax :=
    annualRevenue * REVENUE_INCREASE_FACTOR_MAX * ((engagementScore + lit 2) / lit 10) in
  {| totalTurnoverCost := totalTurnoverCost;
     totalDisengagementCost := totalDisengagementCost;
     totalAbsenteeismCost := absenteeismCost;
     totalHiddenLoss := totalHiddenLoss;
     potentialSavingsMin := Math_max (lit 0) savings1Pt;
     potentialSavingsMax := Math_max (lit 0) savings2Pt;
     potentialRevenueIncreaseMin := potentialRevenueIncreaseMin;
     potentialRevenueIncreaseMax := potentialRevenueIncreaseMax |}.

(** The local constants of [calculateROI] that the properties below name,
    each with the expression the function binds to it. *)

(* line 161 *)
Definition disengagementInfluenceFactor (data : ROIInput N) : N :=
  (lit 10 - data.(engagementScore)) / lit 10.

(* line 162 *)
Definition avgDailySalary (data : ROIInput N) : N :=
  data.(avgAnnualSalary) / lit 250.

(* line 163 *)
Definition productivityLossCost (data : ROIInput N) : N :=
  data.(numEmployees) * data.(avgAnnualSalary) * disengagementInfluenceFactor data
  * lit 0.34.

(* line 164 *)
Definition absenteeismCost (data : ROIInput N) : N :=
  data.(numEmployees) * data.(avgExtraAbsenteeismDaysPerEmployee) * avgDailySalary data
  * disengagementInfluenceFactor data.

End Estimator.
End RoiCalculator.


(** ** src/backend.js, first copy *)

Module Backend1.
Section Estimator.
Context {N : Type} `{JSNumber N}.
Local Open Scope js_scope.

(* function calculateROI(data), lines 199-259 *)
Definition calculateROI (data : ROIInput N) : ROIResult N :=
  let numEmployees := data.(numEmployees) in
  let avgAnnualSalary := data.(avgAnnualSalary) in
  let annualRevenue := data.(annualRevenue) in
  let employeesWhoLeft := data.(employeesWhoLeft) in
  let avgExtraAbsenteeismDaysPerEmployee := data.(avgExtraAbsenteeismDaysPerEmployee) in
  let engagementScore := data.(engagementScore) in
  (* Configuration Constants *)
  let DISENGAGEMENT_PRODUCTIVITY_LOSS_FACTOR := lit 0.34 in
  let AVG_REPLACEMENT_COST_FACTOR := lit 1.25 in
  let WORKING_DAYS_PER_YEAR := lit 250 in
  let REVENUE_INCREASE_FACTOR_MIN := lit 0.02 in
  let REVENUE_INCREASE_FACTOR_MAX := lit 0.05 in
  (* Calculate turnover cost *)
  let costPerReplacement := avgAnnualSalary * AVG_REPLACEMENT_COST_FACTOR in
  let totalTurnoverCost := employeesWhoLeft * costPerReplacement in
  (* Calculate disengagement cost *)
  let disengagementInfluenceFactor := (lit 10 - engagementScore) / lit 10 in
  let avgDailySalary := avgAnnualSalary / WORKING_DAYS_PER_YEAR in
  let productivityLossCost :=
    numEmployees * avgAnnualSalary * disengagementInfluenceFactor
    * DISENGAGEMENT_PRODUCTIVITY_LOSS_FACTOR in
  let absenteeismCost :=
    numEmployees * avgExtraAbsenteeismDaysPerEmployee * avgDailySalary
    * disengagementInfluenceFactor in
  let totalDisengagementCost := productivityLossCost + absenteeismCost in
  (* Calculate total hidden loss *)
  let totalHiddenLoss := totalTurnoverCost + totalDisengagementCost in
  (* Calculate potential savings (by improving engagement score by 1-2 points) *)
  let improvedEngagement1Pt := Math_min (lit 10) (engagementScore + lit 1) in
  let newDisengagementInfluenceFactor1Pt := (lit 10 - improvedEngagement1Pt) / lit 10 in
  let newProductivityLossCost1Pt :=
    numEmployees * avgAnnualSalary * newDisengagementInfluenceFactor1Pt
    * DISENGAGEMENT_PRODUCTIVITY_LOSS_FACTOR in
  let newAbsenteeismCost1Pt :=
    numEmployees * avgExtraAbsenteeismDaysPerEmployee * avgDailySalary
    * newDisengagementInfluenceFactor1Pt in
  let newTotalDisengagementCost1Pt := newProductivityLossCost1Pt + newAbsenteeismCost1Pt in
  let savings1Pt := totalDisengagementCost - newTotalDisengagementCost1Pt in
  let improvedEngagement2Pt := Math_min (lit 10) (engagementScore + lit 2) in
  let newDisengagementInfluenceFactor2Pt := (lit 10 - improvedEngagement2Pt) / lit 10 in
  let newProductivityLossCost2Pt :=
    numEmployees * avgAnnualSalary * newDisengagementInfluenceFactor2Pt
    * DISENGAGEMENT_PRODUCTIVITY_LOSS_FACTOR in
  let newAbsenteeismCost2Pt :=
    numEmployees * avgExtraAbsenteeismDaysPerEmployee * avgDailySalary
    * newDisengagementInfluenceFactor2Pt in
  let newTotalDisengagementCost2Pt := newProductivityLossCost2Pt + newAbsenteeismCost2Pt in
  let savings2Pt := totalDisengagementCost - newTotalDisengagementCost2Pt in
  (* Calculate potential revenue increase *)
  let potentialRevenueIncreaseMin :=
    annualRevenue * REVENUE_INCREASE_FACTOR_MIN * ((engagementScore + lit 1) / lit 10) in
  let potentialRevenueIncreaseMax :=
    annualRevenue * REVENUE_INCREASE_FACTOR_MAX * ((engagementScore + lit 2) / lit 10) in
  {| totalTurnoverCost := totalTurnoverCost;
     totalDisengagementCost := totalDisengagementCost;
     totalAbsenteeismCost := absenteeismCost;
     totalHiddenLoss := totalHiddenLoss;
     potentialSavingsMin := Math_max (lit 0) savings1Pt;
     potentialSavingsMax := Math_max (lit 0) savings2Pt;
     potentialRevenueIncreaseMin := potentialRevenueIncreaseMin;
     potentialRevenueIncreaseMax := potentialRevenueIncreaseMax |}.

End Estimator.
End Backend1.

(** ** src/backend.js, second copy *)

Module Backend2.
Section Estimator.
Context {N : Type} `{JSNumber N}.
Local Open Scope js_scope.

(* function calculateROI(data), lines 817-877 *)
Definition calculateROI (data : ROIInput N) : ROIResult N :=
  let numEmployees := data.(numEmployees) in
  let avgAnnualSalary := data.(avgAnnualSalary) in
  let annualRevenue := data.(annualRevenue) in
  let employeesWhoLeft := data.(employeesWhoLeft) in
  let avgExtraAbsenteeismDaysPerEmployee := data.(avgExtraAbsenteeismDaysPerEmployee) in
  let engagementScore := data.(engagementScore) in
  (* Configuration Constants *)
  let DISENGAGEMENT_PRODUCTIVITY_LOSS_FACTOR := lit 0.34 in
  let AVG_REPLACEMENT_COST_FACTOR := lit 1.25 in
  let WORKING_DAYS_PER_YEAR := lit 250 in
  let REVENUE_INCREASE_FACTOR_MIN := lit 0.02 in
  let REVENUE_INCREASE_FACTOR_MAX := lit 0.05 in
  (* Calculate turnover cost *)
  let costPerReplacement := avgAnnualSalary * AVG_REPLACEMENT_COST_FACTOR in
  let totalTurnoverCost := employeesWhoLeft * costPerReplacement in
  (* Calculate disengagement cost *)
  let disengagementInfluenceFactor := (lit 10 - engagementScore) / lit 10 in
  let avgDailySalary := avgAnnualSalary / WORKING_DAYS_PER_YEAR in
  let productivityLossCost :=
    numEmployees * avgAnnualSalary * disengagementInfluenceFactor
    * DISENGAGEMENT_PRODUCTIVITY_LOSS_FACTOR in
  let absenteeismCost :=
    numEmployees * avgExtraAbsenteeismDaysPerEmployee * avgDailySalary
    * disengagementInfluenceFactor in
  let totalDisengagementCost := productivityLossCost + absenteeismCost in
  (* Calculate total hidden loss *)
  let totalHiddenLoss := totalTurnoverCost + totalDisengagementCost in
  (* Calculate potential savings (by improving engagement score by 1-2 points) *)
  let improvedEngagement1Pt := Math_min (lit 10) (engagementScore + lit 1) in
  let newDisengagementInfluenceFactor1Pt := (lit 10 - improvedEngagement1Pt) / lit 10 in
  let newProductivityLossCost1Pt :=
    numEmployees * avgAnnualSalary * newDisengagementInfluenceFactor1Pt
    * DISENGAGEMENT_PRODUCTIVITY_LOSS_FACTOR in
  let newAbsenteeismCost1Pt :=
    numEmployees * avgExtraAbsenteeismDaysPerEmployee * avgDailySalary
    * newDisengagementInfluenceFactor1Pt in
  let newTotalDisengagementCost1Pt := newProductivityLossCost1Pt + newAbsenteeismCost1Pt in
  let savings1Pt := totalDisengagementCost - newTotalDisengagementCost1Pt in
  let improvedEngagement2Pt := Math_min (lit 10) (engagementScore + lit 2) in
  let newDisengagementInfluenceFactor2Pt := (lit 10 - improvedEngagement2Pt) / lit 10 in
  let newProductivityLossCost2Pt :=
    numEmployees * avgAnnualSalary * newDisengagementInfluenceFactor2Pt
    * DISENGAGEMENT_PRODUCTIVITY_LOSS_FACTOR in
  let newAbsenteeismCost2Pt :=
    numEmployees * avgExtraAbsenteeismDaysPerEmployee * avgDailySalary
    * newDisengagementInfluenceFactor2Pt in
  let newTotalDisengagementCost2Pt := newProductivityLossCost2Pt + newAbsenteeismCost2Pt in
  let savings2Pt := totalDisengagementCost - newTotalDisengagementCost2Pt in
  (* Calculate potential revenue increase *)
  let potentialRevenueIncreaseMin :=
    annualRevenue * REVENUE_INCREASE_FACTOR_MIN * ((engagementScore + lit 1) / lit 10) in
  let potentialRevenueIncreaseMax :=
    annualRevenue * REVENUE_INCREASE_FACTOR_MAX * ((engagementScore + lit 2) / lit 10) in
  {| totalTurnoverCost := totalTurnoverCost;
     totalDisengagementCost := totalDisengagementCost;
     totalAbsenteeismCost := absenteeismCost;
     totalHiddenLoss := totalHiddenLoss;
     potentialSavingsMin := Math_max (lit 0) savings1Pt;
     potentialSavingsMax := Math_max (lit 0) savings2Pt;
     potentialRevenueIncreaseMin := potentialRevenueIncreaseMin;
     potentialRevenueIncreaseMax := potentialRevenueIncreaseMax |}.

End Estimator.
End Backend2.

(** ** The estimator as the specification words it *)

Module Spec.
Section Steps.
Context {N : Type} `{JSNumber N}.
Local Open Scope js_scope.

(** Steps 2 to 5 of section 4.1, as a function of the engagement score, so
    that step 7 can recompute them at an improved score. *)
Definition disengagementCost
    (numEmployees avgAnnualSalary avgExtraAbsenteeismDaysPerEmployee engagementScore : N) : N :=
  let disengagementInfluenceFactor := (lit 10 - engagementScore) / lit 10 in
  let avgDailySalary := avgAnnualSalary / lit 250 in
  let productivityLossCost :=
    numEmployees * avgAnnualSalary * disengagementInfluenceFactor * lit 0.34 in
  let absenteeismCost :=
    numEmployees * avgExtraAbsenteeismDaysPerEmployee * avgDailySalary
    * disengagementInfluenceFactor in
  productivityLossCost + absenteeismCost.

(** Step 4 alone. *)
Definition absenteeismCost (input : ROIInput N) : N :=
  numEmployees input * avgExtraAbsenteeismDaysPerEmployee input
  * (avgAnnualSalary input / lit 250) * ((lit 10 - engagementScore input) / lit 10).

(** Step 7 for one [delta]. *)
Definition potentialSavings (input : ROIInput N) (delta : N) : N :=
  let cost := disengagementCost (numEmployees input) (avgAnnualSalary input)
                (avgExtraAbsenteeismDaysPerEmployee input) in
  let engagementScore' := Math_min (lit 10) (engagementScore input + delta) in
  let savings := cost (engagementScore input) - cost engagementScore' in
  Math_max (lit 0) savings.

(** Steps 8 and 9 as they are worded, evaluated from left to right. *)
Definition potentialRevenueIncrease (input : ROIInput N) (factor delta : N) : N :=
  annualRevenue input * factor * (engagementScore input + delta) / lit 10.

(** [compute(input: ROIInput) -> ROIResult], steps 1 to 9. *)
Definition compute (input : ROIInput N) : ROIResult N :=
  let costPerReplacement := avgAnnualSalary input * lit 1.25 in
  let totalTurnoverCost := employeesWhoLeft input * costPerReplacement in
  let totalDisengagementCost :=
    disengagementCost (numEmployees input) (avgAnnualSalary input)
      (avgExtraAbsenteeismDaysPerEmployee input) (engagementScore input) in
  {| totalTurnoverCost := totalTurnoverCost;
     totalDisengagementCost := totalDisengagementCost;
     totalAbsenteeismCost := absenteeismCost input;
     totalHiddenLoss := totalTurnoverCost + totalDisengagementCost;
     potentialSavingsMin := potentialSavings input (lit 1);
     potentialSavingsMax := potentialSavings input (lit 2);
     potentialRevenueIncreaseMin := potentialRevenueIncrease input (lit 0.02) (lit 1);
     potentialRevenueIncreaseMax := potentialRevenueIncrease input (lit 0.05) (lit 2) |}.

(** What the revenue increase of the code would be if it capped
    [engagementScore + delta] at 10 the way step 7 does. *)
Definition cappedRevenueIncrease (input : ROIInput N) (factor delta : N) : N :=
  annualRevenue input * factor
  * (Math_min (lit 10) (engagementScore input + delta) / lit 10).

End Steps.

(** The ranges of section 3 (ROIInput), over the reals. *)
Definition valid (input : ROIInput Q) : Prop :=
  (1 <= numEmployees input
   /\ 0 <= avgAnnualSalary input
   /\ 0 <= annualRevenue input
   /\ 0 <= employeesWhoLeft input <= numEmployees input
   /\ 0 <= avgExtraAbsenteeismDaysPerEmployee input
   /\ 1 <= engagementScore input <= 10)%Q.

Definition validb (input : ROIInput Q) : bool :=
  Qle_bool 1 (numEmployees input)
  && Qle_bool 0 (avgAnnualSalary input)
  && Qle_bool 0 (annualRevenue input)
  && Qle_bool 0 (employeesWhoLeft input)
  && Qle_bool (employeesWhoLeft input) (numEmployees input)
  && Qle_bool 0 (avgExtraAbsenteeismDaysPerEmployee input)
  && Qle_bool 1 (engagementScore input)
  && Qle_bool (engagementScore input) 10.

(** The same ranges for the numbers that [calculateROI] receives: doubles
    that are real numbers (neither NaN nor an infinity). *)
Definition valid_binary64 (input : ROIInput float) : Prop :=
  Binary64.le 1 (numEmployees input)
  /\ PrimFloat.is_finite (numEmployees input) = true
  /\ Binary64.real_nonnegative (avgAnnualSalary input)
  /\ Binary64.real_nonnegative (annualRevenue input)
  /\ Binary64.le 0 (employeesWhoLeft input)
  /\ Binary64.le (employeesWhoLeft input) (numEmployees input)
  /\ Binary64.real_nonnegative (avgExtraAbsenteeismDaysPerEmployee input)
  /\ Binary64.le 1 (engagementScore input)
  /\ Binary64.le (engagementScore input) 10.

End Spec.

(** Field-wise numeric equality of two results. *)
Definition ROIResult_eq (r1 r2 : ROIResult Q) : Prop :=
  (totalTurnoverCost r1 == totalTurnoverCost r2
   /\ totalDisengagementCost r1 == totalDisengagementCost r2
   /\ totalAbsenteeismCost r1 == totalAbsenteeismCost r2
   /\ totalHiddenLoss r1 == totalHiddenLoss r2
   /\ potentialSavingsMin r1 == potentialSavingsMin r2
   /\ potentialSavingsMax r1 == potentialSavingsMax r2
   /\ potentialRevenueIncreaseMin r1 == potentialRevenueIncreaseMin r2
   /\ potentialRevenueIncreaseMax r1 == potentialRevenueIncreaseMax r2)%Q.

Definition ROIInput_map {A B : Type} (f : A -> B) (d : ROIInput A) : ROIInput B :=
  {| numEmployees := f (numEmployees d);
     avgAnnualSalary := f (avgAnnualSalary d);
     annualRevenue := f (annualRevenue d);
     employeesWhoLeft := f (employeesWhoLeft d);
     avgExtraAbsenteeismDaysPerEmployee := f (avgExtraAbsenteeismDaysPerEmployee d);
     engagementScore := f (engagementScore d) |}.



(** The example of section 8. *)
Definition example_input {N : Type} (number : Q -> N) : ROIInput N :=
  {| numEmployees := number 100;
     avgAnnualSalary := number 600000;
     annualRevenue := number 50000000;
     employeesWhoLeft := number 10;
     avgExtraAbsenteeismDaysPerEmployee := number 5;
     engagementScore := number 6 |}.

(** ** The handler of POST /api/roi-calculator (src/roiCalculator.js, lines 202-238)

    The fields of [req.body] are JavaScript values.  The model has the
    primitive values a parsed body holds; arrays and objects are left out. *)

(** A JavaScript number: a finite value (the doubles are among the
    rationals, and comparing them is exact), an infinity or NaN.  The two
    zeros are [Finite 0]. *)
Inductive number : Type :=
| Finite (q : Q)
| PosInfinity
| NegInfinity
| NaN.

(** A string is the sequence of its code units.  It comes with [numeric], the
    number that the language's ToNumber reads it as, which the comparison of a
    string with a non-string consults. *)
Inductive value : Type :=
| VUndefined                                    (* the field is missing *)
| VNull
| VBoolean (b : bool)
| VNumber (n : number)
| VString (units : list N) (numeric : number).

(* ToBoolean, applied by [!] *)
Definition ToBoolean (v : value) : bool :=
  match v with
  | VUndefined | VNull => false
  | VBoolean b => b
  | VNumber (Finite q) => negb (Qeq_bool q 0)
  | VNumber NaN => false
  | VNumber _ => true
  | VString [] _ => false
  | VString (_ :: _) _ => true
  end.

Definition ToNumber (v : value) : number :=
  match v with
  | VUndefined => NaN
  | VNull => Finite 0
  | VBoolean true => Finite 1
  | VBoolean false => Finite 0
  | VNumber n => n
  | VString _ numeric => numeric
  end.

(* Number::lessThan; a comparison with NaN is not true *)
Definition number_lt (x y : number) : bool :=
  match x, y with
  | NaN, _ | _, NaN => false
  | Finite a, Finite b => negb (Qle_bool b a)
  | Finite _, PosInfinity => true
  | Finite _, NegInfinity => false
  | PosInfinity, _ => false
  | NegInfinity, NegInfinity => false
  | NegInfinity, _ => true
  end.

(* two strings compare by code units, lexicographically *)
Fixpoint units_lt (a b : list N) : bool :=
  match a, b with
  | _, [] => false
  | [], _ :: _ => true
  | x :: a', y :: b' => (x <? y)%N || ((x =? y)%N && units_lt a' b')
  end.

(* x < y *)
Definition js_lt (x y : value) : bool :=
  match x, y with
  | VString a _, VString b _ => units_lt a b
  | _, _ => number_lt (ToNumber x) (ToNumber y)
  end.

(* x > y *)
Definition js_gt (x y : value) : bool := js_lt y x.

(** [req.body]: the six fields of the estimator and the contact fields. *)
Record RequestBody : Type := {
  roi : ROIInput value;
  email : value;
  phoneNumber : value
}.

(** What the handler does up to line 238: it answers with a status and an
    error message, or it calls [calculateROI] on the six fields. *)
Inductive outcome : Type :=
| Respond (status : Z) (error : string)
| CallCalculateROI (data : ROIInput value).

(* the condition of the first [if], line 216 *)
Definition required_fields_missing (body : RequestBody) : bool :=
  negb (ToBoolean (numEmployees (roi body)))
  || negb (ToBoolean (avgAnnualSalary (roi body)))
  || negb (ToBoolean (annualRevenue (roi body)))
  || negb (ToBoolean (email body))
  || negb (ToBoolean (phoneNumber body)).

Definition handler (body : RequestBody) : outcome :=
  let numEmployees := numEmployees (roi body) in
  let avgAnnualSalary := avgAnnualSalary (roi body) in
  let annualRevenue := annualRevenue (roi body) in
  let employeesWhoLeft := employeesWhoLeft (roi body) in
  let avgExtraAbsenteeismDaysPerEmployee := avgExtraAbsenteeismDaysPerEmployee (roi body) in
  let engagementScore := engagementScore (roi body) in
  (* Validation *)
  if required_fields_missing body then
    Respond 400 "All required fields must be provided"
  else if js_gt employeesWhoLeft numEmployees then
    Respond 400 "Number of employees who left cannot be more than total employees"
  else if js_lt engagementScore (VNumber (Finite 1))
          || js_gt engagementScore (VNumber (Finite 10)) then
    Respond 400 "Engagement score must be between 1 and 10"
  else
    (* Calculate ROI results *)
    CallCalculateROI
      {| numEmployees := numEmployees;
         avgAnnualSalary := avgAnnualSalary;
         annualRevenue := annualRevenue;
         employeesWhoLeft := employeesWhoLeft;
         avgExtraAbsenteeismDaysPerEmployee := avgExtraAbsenteeismDaysPerEmployee;
         engagementScore := engagementScore |}.

(** The code units of a string of the development. *)
Fixpoint units (s : string) : list N :=
  match s with
  | EmptyString => []
  | String c s' => N_of_ascii c :: units s'
  end.

(** Contact fields of the examples; the e-mail address does not read as a
    number, the telephone number does. *)
Definition example_email : value := VString (units "hr@example.com") NaN.
Definition example_phone : value := VString (units "9876543210") (Finite 9876543210).

(** A body whose six fields are the numbers of [d]. *)
Definition numeric_body (d : ROIInput Q) (mail phone : value) : RequestBody :=
  {| roi := ROIInput_map (fun q => VNumber (Finite q)) d;
     email := mail;
     phoneNumber := phone |}.

(** The body of the example of section 8 with [engagementScore] left out. *)
Definition body_without_score : RequestBody :=
  {| roi := {| numEmployees := VNumber (Finite 100);
               avgAnnualSalary := VNumber (Finite 600000);
               annualRevenue := VNumber (Finite 50000000);
               employeesWhoLeft := VNumber (Finite 10);
               avgExtraAbsenteeismDaysPerEmployee := VNumber (Finite 5);
               engagementScore := VUndefined |};
     email := example_email;
     phoneNumber := example_phone |}.

(** The same body with [avgExtraAbsenteeismDaysPerEmployee] left out instead. *)
Definition body_without_absenteeism : RequestBody :=
  {| roi := {| numEmployees := VNumber (Finite 100);
               avgAnnualSalary := VNumber (Finite 600000);
               annualRevenue := VNumber (Finite 50000000);
               employeesWhoLeft := VNumber (Finite 10);
               avgExtraAbsenteeismDaysPerEmployee := VUndefined;
               engagementScore := VNumber (Finite 6) |};
     email := example_email;
     phoneNumber := example_phone |}.

(** The double that the arithmetic of [calculateROI] reads a field as, for a
    field that is missing or is one of the integers of the examples:
    [undefined] reads as NaN. *)
Definition field_number (v : value) : float :=
  match ToNumber v with
  | Finite q => Binary64.literal q
  | PosInfinity => PrimFloat.infinity
  | NegInfinity => PrimFloat.neg_infinity
  | NaN => PrimFloat.nan
  end.

(** A body with other values in the three fields that line 216 does not name. *)
Definition with_unchecked_fields (v1 v2 v3 : value) (body : RequestBody) : RequestBody :=
  {| roi := {| numEmployees := numEmployees (roi body);
               avgAnnualSalary := avgAnnualSalary (roi body);
               annualRevenue := annualRevenue (roi body);
               employeesWhoLeft := v1;
               avgExtraAbsenteeismDaysPerEmployee := v2;
               engagementScore := v3 |};
     email := email body;
     phoneNumber := phoneNumber body |}.


(** ** Rounding of binary64 results

    The result of an operation on doubles is the real result rounded to the
    nearest double, ties to even.  For doubles that are not negative the
    rounding is written here on integers: a value [v] stands for the real
    [v / 2^bias], so that every double, product and quotient of doubles that
    occurs is an integer or a fraction of integers. *)

Module Rounding.
Local Open Scope Z_scope.

(* nearest integer to a/c, ties to even *)
Definition rne (a c : Z) : Z :=
  let q := a / c in
  match 2 * (a mod c) ?= c with
  | Lt => q
  | Eq => if Z.even q then q else q + 1
  | Gt => q + 1
  end.

Definition digits (q : Z) : Z := if q =? 0 then 0 else Z.log2 q + 1.

Definition bias : Z := 2200.
Definition fexpZ (k : Z) : Z := Z.max (k - 53) (bias - 1074).

Definition rnd (a b : Z) : Z :=
  let g := fexpZ (digits (a / b)) in
  rne a (b * 2 ^ g) * 2 ^ g.


(* where a/c lies between its integer part and the next integer *)
Definition loc_of (a c : Z) : location :=
  if a mod c =? 0 then loc_Exact else loc_Inexact (2 * (a mod c) ?= c).

Definition located (mrs : shr_record) (a c : Z) : Prop :=
  shr_m mrs = a / c /\ loc_of_shr_record mrs = loc_of a c.

(* the value of a result, scaled by 2^bias *)
Definition repr (r : spec_float) (V : Z) : Prop :=
  match r with
  | S754_zero _ => V = 0
  | S754_finite false m e => V = Zpos m * 2 ^ (e + bias) /\ 0 <= e + bias
  | S754_infinity false => 2 ^ (1024 + bias) <= V
  | _ => False
  end.


(* the value of a float that is not negative, scaled by 2^bias; an infinity
   is the first power of two that is not a float *)
Definition sval (x : spec_float) : Z :=
  match x with
  | S754_finite _ m e => Zpos m * 2 ^ (e + bias)
  | S754_infinity _ => 2 ^ (1024 + bias)
  | _ => 0
  end.

Definition nonneg (x : spec_float) : bool :=
  match x with
  | S754_zero _ | S754_finite false _ _ | S754_infinity false => true
  | _ => false
  end.

Definition finite (x : spec_float) : bool :=
  match x with
  | S754_zero _ | S754_finite _ _ _ => true
  | _ => false
  end.


(* the value of a double that is not negative, scaled by 2^bias *)
Definition value (x : float) : Z := sval (Prim2SF x).

Definition overflow : Z := 2 ^ (1024 + bias).

End Rounding.
(** ** Regular expressions of the validators

    The patterns of the sources use only literals, character classes,
    concatenation, option and repetition, between [^] and [$] and without
    flags.  For such a pattern [test] answers whether the whole string, a
    sequence of code units, belongs to the language of the pattern. *)

Module RegExp.

Inductive regex : Type :=
| Epsilon                                   (* the empty string *)
| Class (p : N -> bool)                     (* one code unit of a class *)
| Cat (r1 r2 : regex)                       (* r1 r2 *)
| Alt (r1 r2 : regex)                       (* r1 | r2 *)
| Star (r : regex).                         (* r* *)

(* r+ *)
Definition plus (r : regex) : regex := Cat r (Star r).

(* r? *)
Definition opt (r : regex) : regex := Alt r Epsilon.

(* r{n} *)
Fixpoint times (n : nat) (r : regex) : regex :=
  match n with
  | O => Epsilon
  | S k => Cat r (times k r)
  end.

(* r{0,n} *)
Fixpoint at_most (n : nat) (r : regex) : regex :=
  match n with
  | O => Epsilon
  | S k => opt (Cat r (at_most k r))
  end.

(* r{n,m} *)
Definition between (n m : nat) (r : regex) : regex :=
  Cat (times n r) (at_most (m - n) r).

(** The language of a pattern. *)
Inductive matches : regex -> list N -> Prop :=
| matches_epsilon : matches Epsilon []
| matches_class (p : N -> bool) (c : N) : p c = true -> matches (Class p) [c]
| matches_cat (r1 r2 : regex) (s1 s2 : list N) :
    matches r1 s1 -> matches r2 s2 -> matches (Cat r1 r2) (s1 ++ s2)
| matches_alt_l (r1 r2 : regex) (s : list N) : matches r1 s -> matches (Alt r1 r2) s
| matches_alt_r (r1 r2 : regex) (s : list N) : matches r2 s -> matches (Alt r1 r2) s
| matches_star_nil (r : regex) : matches (Star r) []
| matches_star_cons (r : regex) (s1 s2 : list N) :
    matches r s1 -> matches (Star r) s2 -> matches (Star r) (s1 ++ s2).

(** The matcher: whether the pattern takes the empty string, what is left of
    the pattern after one code unit, and the test of a whole string.  [None]
    is a pattern that nothing matches. *)
Fixpoint nullable (r : regex) : bool :=
  match r with
  | Epsilon => true
  | Class _ => false
  | Cat r1 r2 => nullable r1 && nullable r2
  | Alt r1 r2 => nullable r1 || nullable r2
  | Star _ => true
  end.

Definition cat' (a : option regex) (r : regex) : option regex :=
  match a with
  | Some a' => Some (Cat a' r)
  | None => None
  end.

Definition alt' (a b : option regex) : option regex :=
  match a, b with
  | Some a', Some b' => Some (Alt a' b')
  | Some a', None => Some a'
  | None, _ => b
  end.

Fixpoint after (c : N) (r : regex) : option regex :=
  match r with
  | Epsilon => None
  | Class p => if p c then Some Epsilon else None
  | Cat r1 r2 =>
      if nullable r1 then alt' (cat' (after c r1) r2) (after c r2)
      else cat' (after c r1) r2
  | Alt r1 r2 => alt' (after c r1) (after c r2)
  | Star r1 => cat' (after c r1) (Star r1)
  end.

Fixpoint test (r : regex) (s : list N) : bool :=
  match s with
  | [] => nullable r
  | c :: s' =>
      match after c r with
      | Some r' => test r' s'
      | None => false
      end
  end.

(** The language of what is left of a pattern. *)
Definition lang (a : option regex) (s : list N) : Prop :=
  match a with
  | Some r => matches r s
  | None => False
  end.

(** Whether every class of the pattern lies within a set of code units. *)
Fixpoint classes_within (P : N -> Prop) (r : regex) : Prop :=
  match r with
  | Epsilon => True
  | Class p => forall c, p c = true -> P c
  | Cat r1 r2 | Alt r1 r2 => classes_within P r1 /\ classes_within P r2
  | Star r1 => classes_within P r1
  end.

(** Character classes. *)

(* \w : [A-Za-z0-9_] *)
Definition word_char (c : N) : bool :=
  ((65 <=? c) && (c <=? 90) || (97 <=? c) && (c <=? 122)
   || (48 <=? c) && (c <=? 57) || (c =? 95))%N.

(* [0-9] *)
Definition digit_char (c : N) : bool := ((48 <=? c) && (c <=? 57))%N.

(* [.-] *)
Definition dot_or_hyphen (c : N) : bool := ((c =? 46) || (c =? 45))%N.

(* \. *)
Definition dot_char (c : N) : bool := (c =? 46)%N.

(* @ *)
Definition at_char (c : N) : bool := (c =? 64)%N.

(* \w+([.-]?\w+)* *)
Definition dotted_words : regex :=
  Cat (plus (Class word_char))
      (Star (Cat (opt (Class dot_or_hyphen)) (plus (Class word_char)))).

(** /^\w+([.-]?\w+)*@\w+([.-]?\w+)*(\.\w{2,3})+$/, the pattern of the e-mail
    fields of the schemas and of the two quiz handlers (src/backend.js, lines
    1062 and 1324). *)
Definition emailRegex : regex :=
  Cat dotted_words
      (Cat (Class at_char)
           (Cat dotted_words
                (plus (Cat (Class dot_char) (between 2 3 (Class word_char)))))).

(** /^[0-9]{10,15}$/, the pattern of [phoneNumber] in roiCalculatorSchema
    (src/roiCalculator.js, line 89). *)
Definition phoneRegex : regex := between 10 15 (Class digit_char).

(** Whether the first and the last code unit are of [\w] and no two
    neighbours are both outside [\w]; [prev] tells whether the code unit
    before [s] is of [\w]. *)
Fixpoint alternating (prev : bool) (s : list N) : bool :=
  match s with
  | [] => prev
  | c :: s' => if word_char c then alternating true s' else prev && alternating false s'
  end.

(* the code units of \w+([.-]?\w+)* *)
Definition name_char (c : N) : bool := word_char c || dot_or_hyphen c.

(** A name: letters, digits and [_], with single [.] or [-] between them and
    none at either end. *)
Definition is_name (s : list N) : bool := forallb name_char s && alternating false s.

(* the code units that the e-mail pattern mentions *)
Definition email_char (c : N) : bool := word_char c || dot_or_hyphen c || at_char c.

End RegExp.

(** ** Values with structure

    [answers] and [cultureLevel] of the quiz and [activityType] of the contact
    form are objects or arrays.  An object is the list of its own members in
    the order of the body; of two members with one key the later one counts. *)

(* x || d *)
Definition js_or (x d : value) : value := if ToBoolean x then x else d.

#[warnings="-register-all"]
Inductive jsvalue : Type :=
| Prim (v : value)
| Arr (items : list jsvalue)
| Obj (members : list (list N * jsvalue)).

(* ToBoolean: every object is truthy *)
Definition truthy (x : jsvalue) : bool :=
  match x with
  | Prim v => ToBoolean v
  | Arr _ | Obj _ => true
  end.

(* typeof x === 'object' *)
Definition typeof_object (x : jsvalue) : bool :=
  match x with
  | Prim VNull => true
  | Prim _ => false
  | Arr _ | Obj _ => true
  end.

(* x === null *)
Definition is_null (x : jsvalue) : bool :=
  match x with
  | Prim VNull => true
  | _ => false
  end.

Definition units_eqb (a b : list N) : bool :=
  if list_eq_dec N.eq_dec a b then true else false.

Fixpoint own_member (key : list N) (members : list (list N * jsvalue)) : option jsvalue :=
  match members with
  | [] => None
  | (k, v) :: rest =>
      match own_member key rest with
      | Some later => Some later
      | None => if units_eqb k key then Some v else None
      end
  end.

(** [x.key] for the keys [level], [description] and [cta], which no prototype
    defines: the own member of an object, [undefined] on anything else. *)
Definition get_member (x : jsvalue) (key : string) : jsvalue :=
  match x with
  | Obj members =>
      match own_member (units key) members with
      | Some v => v
      | None => Prim VUndefined
      end
  | _ => Prim VUndefined
  end.

(** [String(x)] throws a TypeError: [x] is an object with an own member
    [toString] (in a parsed body it is no function, and the [valueOf] of the
    prototype gives the object back), or an array that holds such an [x];
    [join] reads an [undefined] or [null] element as the empty string. *)
Fixpoint to_string_throws (x : jsvalue) : bool :=
  match x with
  | Prim _ => false
  | Arr items => existsb to_string_throws items
  | Obj members =>
      match own_member (units "toString") members with
      | Some _ => true
      | None => false
      end
  end.

(** The e-mail pattern accepts the string of [x], when [x] has one.  The
    pattern requires an [@] and accepts no comma: the string of [undefined],
    [null], a boolean or a number and ['[object Object]'] hold no [@], and
    an array is its elements joined by commas, so that an array is accepted
    only when it has one element, and as that element is. *)
Fixpoint email_matches (x : jsvalue) : bool :=
  match x with
  | Prim (VString s _) => RegExp.test RegExp.emailRegex s
  | Prim _ => false
  | Arr [y] => email_matches y
  | Arr _ => false
  | Obj _ => false
  end.

(** [emailRegex.test(email)] on a value of a parsed body: [None] when
    converting [email] to a string throws. *)
Definition emailRegex_test (email : jsvalue) : option bool :=
  if to_string_throws email then None else Some (email_matches email).

(** [email_form x s]: [x] is the string [s], or an array of one element that
    is, and so on. *)
Inductive email_form : jsvalue -> list N -> Prop :=
| form_string (s : list N) (numeric : number) : email_form (Prim (VString s numeric)) s
| form_array (y : jsvalue) (s : list N) : email_form y s -> email_form (Arr [y]) s.

(** ** The culture quiz (src/backend.js, second copy) *)

Module CultureQuiz.

(** [req.body] of POST /api/culture-quiz-results: each field is any value of
    a parsed body. *)
Record Body : Type := {
  email : jsvalue;
  answers : jsvalue;
  totalScore : jsvalue;
  totalQuestions : jsvalue;
  answeredCount : jsvalue;
  cultureLevel : jsvalue
}.

(* x === undefined *)
Definition is_undefined (x : jsvalue) : bool :=
  match x with
  | Prim VUndefined => true
  | _ => false
  end.

(** What the handler does up to line 1076: it answers with a status and an
    error message, or it goes on to compute the metrics and save. *)
Inductive outcome : Type :=
| Respond (status : Z) (error : string)
| Accept.

(* app.post('/api/culture-quiz-results'), lines 1045-1076, and the [catch]
   of lines 1167-1170 *)
Definition handler (body : Body) : outcome :=
  let email := email body in
  let answers := answers body in
  let totalScore := totalScore body in
  let totalQuestions := totalQuestions body in
  let answeredCount := answeredCount body in
  let cultureLevel := cultureLevel body in
  (* Validation *)
  if negb (truthy email) || negb (truthy answers) || is_undefined totalScore
     || negb (truthy totalQuestions) || negb (truthy answeredCount)
     || negb (truthy cultureLevel) then
    Respond 400 "All required fields must be provided"
  else
    (* Validate email format *)
    match emailRegex_test email with
    | None => Respond 500 "Internal server error. Please try again later."
    | Some false => Respond 400 "Please enter a valid email address"
    | Some true =>
        (* Validate answers is an object *)
        if negb (typeof_object answers) || is_null answers then
          Respond 400 "Invalid answers format"
        (* Validate cultureLevel structure *)
        else if negb (truthy (get_member cultureLevel "level"))
                || negb (truthy (get_member cultureLevel "description"))
                || negb (truthy (get_member cultureLevel "cta")) then
          Respond 400 "Invalid culture level data"
        else Accept
    end.

(** [req.body] of POST /api/culture-quiz-email. *)
Record EmailBody : Type := {
  e_email : jsvalue;
  quizType : jsvalue;
  timestamp : jsvalue
}.

(** What the handler does up to line 1354: it answers with a status and an
    error message, or it hands [email] and [quizType || 'culture_quiz'] to
    [new CultureQuizEmail]; the setters and validators of the schema run
    after that and are not modelled. *)
Inductive email_outcome : Type :=
| EmailRespond (status : Z) (error : string)
| EmailSave (email quizType : jsvalue).

(* x || d *)
Definition or_default (x d : jsvalue) : jsvalue := if truthy x then x else d.

Definition culture_quiz : jsvalue := Prim (VString (units "culture_quiz") NaN).

(* app.post('/api/culture-quiz-email'), lines 1314-1356 *)
Definition email_handler (body : EmailBody) : email_outcome :=
  let email := e_email body in
  let quizType := quizType body in
  (* Validation *)
  if negb (truthy email) then
    EmailRespond 400 "Email is required"
  else
    (* Validate email format *)
    match emailRegex_test email with
    | None => EmailRespond 500 "Internal server error. Please try again later."
    | Some false => EmailRespond 400 "Please enter a valid email address"
    | Some true => EmailSave email (or_default quizType culture_quiz)
    end.

(** A body that the results handler accepts. *)
Definition example_body : Body :=
  {| email := Prim example_email;
     answers := Obj [(units "1", Prim (VNumber (Finite 14)));
                     (units "2", Prim (VNumber (Finite 7)))];
     totalScore := Prim (VNumber (Finite 21));
     totalQuestions := Prim (VNumber (Finite 2));
     answeredCount := Prim (VNumber (Finite 2));
     cultureLevel :=
       Obj [(units "level", Prim (VString (units "GROWING GARDEN") NaN));
            (units "description", Arr [Prim (VString (units "A positive culture") NaN)]);
            (units "cta", Prim (VString (units "Talk to us") NaN))] |}.

(** The same body with another [totalScore]. *)
Definition with_totalScore (v : jsvalue) (body : Body) : Body :=
  {| email := email body;
     answers := answers body;
     totalScore := v;
     totalQuestions := totalQuestions body;
     answeredCount := answeredCount body;
     cultureLevel := cultureLevel body |}.


(** A body of the e-mail handler without [quizType]. *)
Definition example_email_body : EmailBody :=
  {| e_email := Prim example_email;
     quizType := Prim VUndefined;
     timestamp := Prim VUndefined |}.

End CultureQuiz.

(** ** Activity types of the contact form *)

Module Activities.

(* the enum of activityType in contactSchema (src/backend.js, lines 625-635) *)
Definition schema_enum : list string :=
  ["team-building"; "wellness-programs"; "creative-workshops";
   "sports-tournaments"; "entertainment-events"; "offsite-retreats"]%string.

(* activityMap (src/backend.js, lines 770-777) *)
Definition activityMap : list (string * string) :=
  [("team-building", "Team Building");
   ("wellness-programs", "Wellness Programs");
   ("creative-workshops", "Creative Workshops");
   ("sports-tournaments", "Sports Tournaments");
   ("entertainment-events", "Entertainment Events");
   ("offsite-retreats", "Offsite Retreats")]%string.

(** The property names that every object inherits from Object.prototype. *)
Definition inherited_names : list string :=
  ["constructor"; "__proto__"; "hasOwnProperty"; "isPrototypeOf";
   "propertyIsEnumerable"; "toLocaleString"; "toString"; "valueOf";
   "__defineGetter__"; "__defineSetter__"; "__lookupGetter__";
   "__lookupSetter__"]%string.

Fixpoint own (map : list (string * string)) (key : string) : option string :=
  match map with
  | [] => None
  | (k, v) :: rest => if String.eqb k key then Some v else own rest key
  end.

(** [activityMap[activity] || activity]: the label of an own key, the
    activity itself for a key that is unknown (or whose label would be
    empty); for an inherited name the value is a function or an object, whose
    text is left out ([None]). *)
Definition label (activity : string) : option string :=
  match own activityMap activity with
  | Some l => Some (if String.eqb l "" then activity else l)
  | None =>
      if existsb (String.eqb activity) inherited_names then None else Some activity
  end.

Fixpoint labels (activities : list string) : option (list string) :=
  match activities with
  | [] => Some []
  | a :: rest =>
      match label a, labels rest with
      | Some l, Some ls => Some (l :: ls)
      | _, _ => None
      end
  end.

(** formatActivityTypes (src/backend.js, lines 768-779) on a missing value or
    an array of strings. *)
Definition formatActivityTypes (activities : option (list string)) : option string :=
  match activities with
  | None | Some [] => Some "None selected"%string
  | Some l =>
      match labels l with
      | Some ls => Some (String.concat ", " ls)
      | None => None
      end
  end.

End Activities.

(** ** Allowed origins *)

Module Cors.






End Cors.

(** ** The contact form (src/backend.js, lines 884-911, and its copies at
    lines 266-293 and in src/server.js, lines 112-139) *)

Module Contact.

Record Body : Type := {
  fullName : value;
  workEmail : value;
  phoneNumber : value;
  companyName : value;
  participants : value;
  activityType : jsvalue;
  message : value
}.

(** The object given to [new Contact]. *)
Record Document : Type := {
  d_fullName : value;
  d_workEmail : value;
  d_phoneNumber : value;
  d_companyName : value;
  d_participants : value;
  d_activityType : jsvalue;
  d_message : value
}.

Inductive outcome : Type :=
| Respond (status : Z) (error : string)
| Save (contactData : Document).

Definition empty_string : value := VString [] (Finite 0).

Definition handler (body : Body) : outcome :=
  if negb (ToBoolean (fullName body)) || negb (ToBoolean (workEmail body)) then
    Respond 400 "Full name and email are required"
  else
    Save {| d_fullName := fullName body;
            d_workEmail := workEmail body;
            d_phoneNumber := js_or (phoneNumber body) empty_string;
            d_companyName := js_or (companyName body) empty_string;
            d_participants := js_or (participants body) empty_string;
            d_activityType := if truthy (activityType body) then activityType body else Arr [];
            d_message := js_or (message body) empty_string |}.

(** A body with only the two required fields. *)
Definition minimal_body : Body :=
  {| fullName := VString (units "Asha Rao") NaN;
     workEmail := example_email;
     phoneNumber := VUndefined;
     companyName := VUndefined;
     participants := VUndefined;
     activityType := Prim VUndefined;
     message := VNull |}.

End Contact.

(** ** The ranges of roiCalculatorSchema (src/roiCalculator.js, lines 68-75) *)

Module RoiSchema.

(** The options of a Number path: [min] and [max] when they are given. *)
Record NumberPath : Type := {
  required : bool;
  min : option Q;
  max : option Q
}.

Definition roiCalculatorSchema : ROIInput NumberPath :=
  {| numEmployees := {| required := true; min := Some 1%Q; max := None |};
     avgAnnualSalary := {| required := true; min := Some 0%Q; max := None |};
     annualRevenue := {| required := true; min := Some 0%Q; max := None |};
     employeesWhoLeft := {| required := true; min := Some 0%Q; max := None |};
     avgExtraAbsenteeismDaysPerEmployee := {| required := true; min := Some 0%Q; max := None |};
     engagementScore := {| required := true; min := Some 1%Q; max := Some 10%Q |} |}.

(** The [min] and [max] validators on a number that is present: it is not
    below [min] and not above [max]. *)
Definition path_accepts (p : NumberPath) (q : Q) : bool :=
  match min p with
  | Some m => Qle_bool m q
  | None => true
  end
  && match max p with
     | Some m => Qle_bool q m
     | None => true
     end.

Definition schema_accepts (d : ROIInput Q) : bool :=
  path_accepts (numEmployees roiCalculatorSchema) (numEmployees d)
  && path_accepts (avgAnnualSalary roiCalculatorSchema) (avgAnnualSalary d)
  && path_accepts (annualRevenue roiCalculatorSchema) (annualRevenue d)
  && path_accepts (employeesWhoLeft roiCalculatorSchema) (employeesWhoLeft d)
  && path_accepts (avgExtraAbsenteeismDaysPerEmployee roiCalculatorSchema)
       (avgExtraAbsenteeismDaysPerEmployee d)
  && path_accepts (engagementScore roiCalculatorSchema) (engagementScore d).

End RoiSchema.

(** The same input with another engagement score. *)
Definition with_engagementScore {N : Type} (e : N) (d : ROIInput N) : ROIInput N :=
  {| numEmployees := numEmployees d;
     avgAnnualSalary := avgAnnualSalary d;
     annualRevenue := annualRevenue d;
     employeesWhoLeft := employeesWhoLeft d;
     avgExtraAbsenteeismDaysPerEmployee := avgExtraAbsenteeismDaysPerEmployee d;
     engagementScore := e |}.

(** ** Routes and rate limiting (src/backend.js, second copy) *)

Module Routes.

Inductive method : Type := GET | POST.

(* app.post and app.get, in the order of the file *)
Definition routes : list (method * string) :=
  [(POST, "/api/contact"); (POST, "/api/roi-calculator");
   (POST, "/api/culture-quiz-results"); (GET, "/api/health");
   (GET, "/api/contacts"); (GET, "/api/roi-calculations");
   (GET, "/api/culture-quiz"); (GET, "/");
   (POST, "/api/culture-quiz-email"); (GET, "/api/culture-quiz-emails")]%string.

(* app.use(path, limiter), lines 587-589 *)
Definition limiter_mounts : list string :=
  ["/api/contact"; "/api/roi-calculator"; "/api/culture-quiz"]%string.

(* an ASCII letter in lower case; the paths are compared without regard to case *)
Definition lower (c : ascii) : ascii :=
  let n := N_of_ascii c in
  if ((65 <=? n) && (n <=? 90))%N then ascii_of_N (n + 32) else c.

(** Whether a middleware mounted at [mount] runs for the path of a request:
    the path is the mount path, or goes on after it with a [/]. *)
Fixpoint mounted (mount path : string) : bool :=
  match mount, path with
  | EmptyString, EmptyString => true
  | EmptyString, String c _ => Ascii.eqb c "/"
  | String a mount', String b path' => Ascii.eqb (lower a) (lower b) && mounted mount' path'
  | String _ _, EmptyString => false
  end.

Definition limited (path : string) : bool :=
  existsb (fun mount => mounted mount path) limiter_mounts.

End Routes.
(** * Properties *)

Local Open Scope Q_scope.

(** Unfold the estimator at exact arithmetic and write the two constant
    divisions as multiplications, for [lra] and [nra]. *)
Ltac q_norm :=
  cbv [RoiCalculator.calculateROI RoiCalculator.disengagementInfluenceFactor
       RoiCalculator.avgDailySalary RoiCalculator.productivityLossCost
       RoiCalculator.absenteeismCost
       Spec.compute Spec.disengagementCost Spec.absenteeismCost Spec.potentialSavings
       Spec.potentialRevenueIncrease Spec.cappedRevenueIncrease ROIResult_eq
       js_add js_sub js_mul js_div Math_min Math_max lit Q_number
       numEmployees avgAnnualSalary annualRevenue employeesWhoLeft
       avgExtraAbsenteeismDaysPerEmployee engagementScore
       totalTurnoverCost totalDisengagementCost totalAbsenteeismCost totalHiddenLoss
       potentialSavingsMin potentialSavingsMax potentialRevenueIncreaseMin
       potentialRevenueIncreaseMax] in *;
  unfold Qdiv in *;
  change (/ 10) with (1 # 10) in *;
  change (/ 250) with (1 # 250) in *.

Lemma validb_spec (d : ROIInput Q) : Spec.validb d = true <-> Spec.valid d.
Proof.
  unfold Spec.validb, Spec.valid.
  rewrite !andb_true_iff, !Qle_bool_iff. tauto.
Qed.

Lemma example_input_valid : Spec.valid (example_input (fun q => q)).
Proof. apply validb_spec. reflexivity. Qed.

(** The constants named above are the ones [calculateROI] computes with, in
    every number model. *)
Lemma calculateROI_locals {N : Type} `{JSNumber N} (data : ROIInput N) :
  totalDisengagementCost (RoiCalculator.calculateROI data)
  = js_add (RoiCalculator.productivityLossCost data) (RoiCalculator.absenteeismCost data)
  /\ totalAbsenteeismCost (RoiCalculator.calculateROI data)
     = RoiCalculator.absenteeismCost data.
Proof. split; reflexivity. Qed.

(** C2: the example of section 8.  In exact arithmetic the returned costs and
    the local constants behind them are the stated numbers; evaluated in
    binary64 the three returned costs are the same numbers. *)
Theorem calculateROI_example :
  let d := example_input (fun q => q) in
  let r := RoiCalculator.calculateROI d in
  let r64 := RoiCalculator.calculateROI (H := Binary64.number)
               (example_input Binary64.literal) in
  (totalTurnoverCost r == 7500000
   /\ totalDisengagementCost r == 8640000
   /\ totalHiddenLoss r == 16140000)
  /\ (RoiCalculator.productivityLossCost d == 8160000
      /\ RoiCalculator.absenteeismCost d == 480000
      /\ RoiCalculator.disengagementInfluenceFactor d == 0.4
      /\ RoiCalculator.avgDailySalary d == 2400)
  /\ (totalTurnoverCost r64 = 7500000%float
      /\ totalDisengagementCost r64 = 8640000%float
      /\ totalHiddenLoss r64 = 16140000%float).
Proof.
  repeat split; vm_compute; reflexivity.
Qed.

(** In binary64 the local [productivityLossCost] of the example is one unit
    in the last place above 8160000; the sum with [absenteeismCost] rounds to
    8640000. *)
Remark productivityLossCost_binary64 :
  RoiCalculator.productivityLossCost (H := Binary64.number)
    (example_input Binary64.literal) = 0x1.f20c000000001p+22%float.
Proof. vm_compute. reflexivity. Qed.



(** C9: the three copies of [calculateROI] return the same result on every
    input, in every number model. *)
Theorem calculateROI_copies_agree {N : Type} `{JSNumber N} (data : ROIInput N) :
  Backend1.calculateROI data = RoiCalculator.calculateROI data
  /\ Backend2.calculateROI data = RoiCalculator.calculateROI data.
Proof. split; reflexivity. Qed.

Local Close Scope Q_scope.

(** * Rounding of binary64 results *)

Module RoundingFacts.
Import Rounding.
Local Open Scope Z_scope.

Lemma rne_spec (a c : Z) :
  0 < c ->
  (2 * rne a c - 1) * c <= 2 * a <= (2 * rne a c + 1) * c
  /\ (2 * a = (2 * rne a c + 1) * c -> Z.even (rne a c) = true)
  /\ (2 * a = (2 * rne a c - 1) * c -> Z.even (rne a c) = true).
Proof.
  intros Hc. unfold rne. cbv zeta.
  pose proof (Z.div_mod a c ltac:(lia)) as Ha.
  pose proof (Z.mod_pos_bound a c Hc) as Hr.
  set (q := a / c) in *. set (r := a mod c) in *.
  assert (Hq1 : Z.even (q + 1) = negb (Z.even q)).
  { rewrite Z.even_add. destruct (Z.even q); reflexivity. }
  destruct (Z.compare_spec (2 * r) c) as [He|Hl|Hg].
  - destruct (Z.even q) eqn:Ev.
    + repeat split; try nia. intros _. exact Ev.
    + repeat split; try nia; intros _; exact Hq1.
  - repeat split; try nia.
  - repeat split; try nia.
Qed.

Lemma rne_mono (a c a' c' : Z) :
  0 < c -> 0 < c' -> a * c' <= a' * c -> rne a c <= rne a' c'.
Proof.
  intros Hc Hc' Hle.
  destruct (rne_spec a Hc) as ((Hlo & Hhi) & Hup & Hdn).
  destruct (rne_spec a' Hc') as ((Hlo' & Hhi') & Hup' & Hdn').
  set (n := rne a c) in *. set (n' := rne a' c') in *.
  destruct (Z_le_gt_dec n n') as [|Hgt]; [assumption | exfalso].
  assert (H1 : (2 * n - 1) * c * c' <= 2 * a * c') by nia.
  assert (H2 : 2 * a' * c <= (2 * n' + 1) * c' * c) by nia.
  assert (H3 : (2 * n' + 1) * (c * c') <= (2 * n - 1) * (c * c')) by nia.
  assert (Hcc : 0 < c * c') by nia.
  assert (Hn : n' = n - 1) by nia.
  assert (E1 : 2 * a' = (2 * n' + 1) * c') by nia.
  assert (E2 : 2 * a = (2 * n - 1) * c) by nia.
  specialize (Hup' E1). specialize (Hdn E2).
  rewrite Hn in Hup'.
  replace n with ((n - 1) + 1) in Hdn by lia.
  rewrite Z.even_add, Hup' in Hdn. discriminate.
Qed.

Lemma rne_exact (n c : Z) : 0 < c -> rne (n * c) c = n.
Proof.
  intros Hc. unfold rne. cbv zeta. rewrite Z.div_mul, Z.mod_mul by lia.
  change (2 * 0) with 0. destruct (Z.compare_spec 0 c); [lia | reflexivity | lia].
Qed.

Lemma rne_scale (k a c : Z) : 0 < k -> 0 < c -> rne (k * a) (k * c) = rne a c.
Proof.
  intros Hk Hc.
  apply Z.le_antisymm; apply rne_mono; nia.
Qed.

Lemma rne_le (a c m : Z) : 0 < c -> a <= m * c -> rne a c <= m.
Proof.
  intros Hc H. rewrite <- (rne_exact m Hc). apply rne_mono; nia.
Qed.

Lemma rne_ge (a c m : Z) : 0 < c -> m * c <= a -> m <= rne a c.
Proof.
  intros Hc H. rewrite <- (rne_exact m Hc) at 1. apply rne_mono; nia.
Qed.

Lemma rne_nonneg (a c : Z) : 0 < c -> 0 <= a -> 0 <= rne a c.
Proof. intros. apply rne_ge; lia. Qed.

Lemma digits_nonneg (q : Z) : 0 <= digits q.
Proof.
  unfold digits. destruct (Z.eqb_spec q 0); [lia |].
  pose proof (Z.log2_nonneg q). lia.
Qed.

Lemma digits_bounds (q : Z) : 0 < q -> 2 ^ (digits q - 1) <= q < 2 ^ digits q.
Proof.
  intros Hq. unfold digits. destruct (Z.eqb_spec q 0); [lia |].
  replace (Z.log2 q + 1 - 1) with (Z.log2 q) by lia.
  exact (Z.log2_spec q Hq).
Qed.

Lemma digits_pos (q : Z) : 0 < q -> 0 < digits q.
Proof.
  intros Hq. unfold digits. destruct (Z.eqb_spec q 0); [lia |].
  pose proof (Z.log2_nonneg q). lia.
Qed.

Lemma digits_lt_pow (q : Z) : 0 <= q -> q < 2 ^ digits q.
Proof.
  intros Hq. destruct (Z.eq_dec q 0) as [->|Hn]; [reflexivity |].
  apply digits_bounds. lia.
Qed.

Lemma digits_unique (q d : Z) : 2 ^ (d - 1) <= q < 2 ^ d -> 0 < d -> digits q = d.
Proof.
  intros Hb Hd.
  assert (Hq : 0 < q).
  { pose proof (Z.pow_pos_nonneg 2 (d - 1)). lia. }
  unfold digits. destruct (Z.eqb_spec q 0); [lia |].
  rewrite (Z.log2_unique q (d - 1)); [lia | lia |].
  replace (Z.succ (d - 1)) with d by lia. exact Hb.
Qed.

Lemma digits_le (q q' : Z) : 0 <= q -> q <= q' -> digits q <= digits q'.
Proof.
  intros Hq Hle. unfold digits.
  destruct (Z.eqb_spec q 0).
  - destruct (Z.eqb_spec q' 0); [lia |]. pose proof (Z.log2_nonneg q'). lia.
  - destruct (Z.eqb_spec q' 0); [lia |].
    pose proof (Z.log2_le_mono q q' Hle). lia.
Qed.

Lemma digits_Zdigits2 (p : positive) :
  SpecFloat.Zdigits2 (Zpos p) = digits (Zpos p).
Proof.
  symmetry. apply digits_unique; [| simpl; lia].
  simpl SpecFloat.Zdigits2.
  induction p as [p IH|p IH|].
  - cbn [SpecFloat.digits2_pos]. rewrite Pos2Z.inj_succ.
    replace (Z.succ (Zpos (SpecFloat.digits2_pos p)) - 1)
      with (Z.succ (Zpos (SpecFloat.digits2_pos p) - 1)) by lia.
    rewrite !Z.pow_succ_r by lia. lia.
  - cbn [SpecFloat.digits2_pos]. rewrite Pos2Z.inj_succ.
    replace (Z.succ (Zpos (SpecFloat.digits2_pos p)) - 1)
      with (Z.succ (Zpos (SpecFloat.digits2_pos p) - 1)) by lia.
    rewrite !Z.pow_succ_r by lia. lia.
  - cbn. lia.
Qed.

Lemma bias_val : bias = 2200.
Proof. reflexivity. Qed.

Lemma fexpZ_mono (k k' : Z) : k <= k' -> fexpZ k <= fexpZ k'.
Proof. unfold fexpZ. lia. Qed.

Lemma fexpZ_nonneg (k : Z) : 0 <= fexpZ k.
Proof. unfold fexpZ. rewrite bias_val. lia. Qed.

Lemma pow2_pos (n : Z) : 0 <= n -> 0 < 2 ^ n.
Proof. intros. apply Z.pow_pos_nonneg; lia. Qed.

Lemma pow2_le (n m : Z) : 0 <= n <= m -> 2 ^ n <= 2 ^ m.
Proof. intros. apply Z.pow_le_mono_r; lia. Qed.

Lemma pow2_lt (n m : Z) : 0 <= n < m -> 2 ^ n < 2 ^ m.
Proof. intros. apply Z.pow_lt_mono_r; lia. Qed.

Lemma pow2_add (n m : Z) : 0 <= n -> 0 <= m -> 2 ^ (n + m) = 2 ^ n * 2 ^ m.
Proof. intros. apply Z.pow_add_r; lia. Qed.

Lemma div_le_cross (a b a' b' : Z) :
  0 < b -> 0 < b' -> a * b' <= a' * b -> a / b <= a' / b'.
Proof.
  intros Hb Hb' H.
  apply Z.div_le_lower_bound; [lia |].
  pose proof (Z.mul_div_le a b Hb). nia.
Qed.

Lemma rnd_mono (a b a' b' : Z) :
  0 <= a -> 0 < b -> 0 < b' -> a * b' <= a' * b -> rnd a b <= rnd a' b'.
Proof.
  intros Ha Hb Hb' H. unfold rnd. cbv zeta.
  pose proof (div_le_cross a a' Hb Hb' H) as Hq.
  assert (Hq0 : 0 <= a / b) by (apply Z.div_pos; lia).
  pose proof (digits_le Hq0 Hq) as Hk.
  pose proof (fexpZ_mono Hk) as Hg.
  set (q := a / b) in *. set (q' := a' / b') in *.
  set (k := digits q) in *. set (k' := digits q') in *.
  pose proof (fexpZ_nonneg k) as Hg0.
  set (g := fexpZ k) in *. set (g' := fexpZ k') in *.
  pose proof (pow2_pos Hg0) as Hpg.
  assert (Hg0' : 0 <= g') by lia.
  pose proof (pow2_pos Hg0') as Hpg'.
  destruct (Z.eq_dec g g') as [E|NE].
  - rewrite <- E. apply Z.mul_le_mono_nonneg_r; [lia |].
    apply rne_mono; nia.
  - assert (Hlt : g < g') by lia.
    assert (Hg' : g' = k' - 53) by (unfold g', g, fexpZ in *; lia).
    assert (Hkk : k < k') by (unfold g', g, fexpZ in *; lia).
    assert (Hk0 : 0 <= k) by apply digits_nonneg.
    assert (Hq'pos : 0 < q').
    { destruct (Z.eq_dec q' 0) as [E0|]; [| lia].
      unfold k' in Hkk. rewrite E0 in Hkk. cbn in Hkk. lia. }
    pose proof (digits_bounds Hq'pos) as [Hlo _]. fold k' in Hlo.
    pose proof (digits_lt_pow Hq0) as Hup. fold k in Hup.
    (* the larger one is at least 2^(k'-1) *)
    assert (L : 2 ^ (k' - 1) <= rne a' (b' * 2 ^ g') * 2 ^ g').
    { replace (k' - 1) with (52 + g') by lia.
      rewrite pow2_add by lia.
      apply Z.mul_le_mono_nonneg_r; [lia |].
      apply rne_ge; [nia |].
      assert (2 ^ 52 * 2 ^ g' = 2 ^ (k' - 1)).
      { rewrite <- pow2_add by lia. f_equal. lia. }
      pose proof (Z.mul_div_le a' b' Hb'). fold q' in H1. nia. }
    (* the smaller one is at most 2^(max k g) *)
    assert (U : rne a (b * 2 ^ g) * 2 ^ g <= 2 ^ (Z.max k g)).
    { replace (Z.max k g) with (Z.max (k - g) 0 + g) by lia.
      rewrite pow2_add by lia.
      apply Z.mul_le_mono_nonneg_r; [lia |].
      apply rne_le; [nia |].
      assert (E2 : 2 ^ Z.max (k - g) 0 * 2 ^ g = 2 ^ Z.max k g).
      { rewrite <- pow2_add by lia. f_equal. lia. }
      assert (Hk2 : 2 ^ k <= 2 ^ Z.max k g) by (apply pow2_le; lia).
      assert (Hab : a < (q + 1) * b).
      { pose proof (Z.mod_pos_bound a b Hb). pose proof (Z.div_mod a b ltac:(lia)).
        fold q in H1. nia. }
      nia. }
    assert (M : 2 ^ Z.max k g <= 2 ^ (k' - 1)) by (apply pow2_le; lia).
    lia.
Qed.

Lemma rnd_scale (k a b : Z) : 0 < k -> 0 < b -> rnd (k * a) (k * b) = rnd a b.
Proof.
  intros Hk Hb. unfold rnd. cbv zeta.
  rewrite Z.div_mul_cancel_l by lia.
  rewrite <- Z.mul_assoc. rewrite rne_scale; [reflexivity | lia |].
  pose proof (pow2_pos (fexpZ_nonneg (digits (a / b)))). nia.
Qed.


Lemma fexp_eq (k : Z) : fexp prec emax k = Z.max (k - 53) (-1074).
Proof. reflexivity. Qed.

Lemma loc_of_record (m : Z) (l : location) :
  loc_of_shr_record (shr_record_of_loc m l) = l /\ shr_m (shr_record_of_loc m l) = m.
Proof. destruct l as [|[]]; split; reflexivity. Qed.

Lemma located_record (a c : Z) : located (shr_record_of_loc (a / c) (loc_of a c)) a c.
Proof. split; apply loc_of_record. Qed.

Lemma shr_1_m (mrs : shr_record) :
  0 <= shr_m mrs ->
  shr_1 mrs = {| shr_m := shr_m mrs / 2; shr_r := Z.odd (shr_m mrs);
                 shr_s := shr_r mrs || shr_s mrs |}.
Proof.
  destruct mrs as [m r s]. cbn [shr_m shr_r shr_s]. intros Hm.
  destruct m as [|p|p]; [reflexivity | | lia].
  destruct p as [p|p|]; cbn [shr_1 Z.odd].
  - f_equal. rewrite Pos2Z.inj_xI. symmetry.
    rewrite Z.add_comm, Z.mul_comm. rewrite Z.div_add by lia. reflexivity.
  - f_equal. rewrite Pos2Z.inj_xO. rewrite Z.mul_comm. rewrite Z.div_mul by lia. reflexivity.
  - reflexivity.
Qed.

Lemma located_shr_1 (mrs : shr_record) (a c : Z) :
  0 <= a -> 0 < c -> located mrs a c -> located (shr_1 mrs) a (c * 2).
Proof.
  intros Ha Hc [Hm Hl].
  assert (Hm0 : 0 <= shr_m mrs) by (rewrite Hm; apply Z.div_pos; lia).
  rewrite (shr_1_m _ Hm0). unfold located. cbn [shr_m].
  rewrite <- Z.div_div by lia. rewrite <- Hm. split; [reflexivity |].
  unfold loc_of in *.
  rewrite Z.rem_mul_r by lia. rewrite <- Hm.
  pose proof (Z.mod_pos_bound a c Hc) as Hr.
  set (rho := a mod c) in *.
  assert (Hs : (shr_r mrs || shr_s mrs) = negb (rho =? 0)).
  { destruct mrs as [m r s]. cbn [shr_r shr_s shr_m loc_of_shr_record] in *.
    destruct (rho =? 0); destruct r, s; try discriminate; reflexivity. }
  rewrite Hs.
  rewrite Zmod_odd.
  destruct (Z.odd (shr_m mrs)); cbn [loc_of_shr_record].
  - replace (rho + c * 1 =? 0) with false by (symmetry; apply Z.eqb_neq; lia).
    destruct (Z.eqb_spec rho 0) as [E|NE]; cbn [negb].
    + f_equal. symmetry. apply Z.compare_eq_iff. lia.
    + f_equal. symmetry. apply Z.compare_gt_iff. lia.
  - replace (rho + c * 0) with rho by lia.
    destruct (Z.eqb_spec rho 0) as [E|NE]; cbn [negb]; [reflexivity |].
    f_equal. symmetry. apply Z.compare_lt_iff. lia.
Qed.

Lemma located_iter (p : positive) : forall (mrs : shr_record) (a c : Z),
  0 <= a -> 0 < c -> located mrs a c ->
  located (iter_pos shr_1 p mrs) a (c * 2 ^ Zpos p).
Proof.
  induction p as [p IH|p IH|]; intros mrs a c Ha Hc H; cbn [iter_pos].
  - assert (E : c * 2 ^ Zpos p~1 = c * 2 * 2 ^ Zpos p * 2 ^ Zpos p).
    { replace (Zpos p~1) with (1 + Zpos p + Zpos p) by lia.
      rewrite !pow2_add by lia. change (2 ^ 1) with 2. ring. }
    rewrite E. pose proof (pow2_pos (Pos2Z.is_nonneg p)).
    apply IH; [lia | nia |]. apply IH; [lia | lia |].
    apply located_shr_1; assumption.
  - assert (E : c * 2 ^ Zpos p~0 = c * 2 ^ Zpos p * 2 ^ Zpos p).
    { replace (Zpos p~0) with (Zpos p + Zpos p) by lia.
      rewrite !pow2_add by lia. ring. }
    rewrite E. pose proof (pow2_pos (Pos2Z.is_nonneg p)).
    apply IH; [lia | nia |]. apply IH; assumption.
  - change (2 ^ 1) with 2. apply located_shr_1; assumption.
Qed.

Lemma located_round (mrs : shr_record) (a c : Z) :
  0 < c -> located mrs a c ->
  round_nearest_even (shr_m mrs) (loc_of_shr_record mrs) = rne a c.
Proof.
  intros Hc [Hm Hl]. rewrite Hm, Hl. unfold loc_of, rne. cbv zeta.
  pose proof (Z.mod_pos_bound a c Hc) as Hr.
  destruct (Z.eqb_spec (a mod c) 0) as [E|NE]; cbn [round_nearest_even].
  - rewrite E. change (2 * 0) with 0.
    destruct (Z.compare_spec 0 c); [lia | reflexivity | lia].
  - destruct (2 * (a mod c) ?= c); reflexivity.
Qed.

(* the first or the second shift of [binary_round_aux] *)
Lemma shr_fexp_located (m e : Z) (l : location) (a c : Z) :
  0 <= a -> 0 < c -> m = a / c -> l = loc_of a c ->
  let n := fexp prec emax (Zdigits2 m + e) - e in
  0 <= n ->
  exists mrs, shr_fexp prec emax m e l = (mrs, e + n) /\ located mrs a (c * 2 ^ n).
Proof.
  intros Ha Hc -> -> n Hn. unfold shr_fexp. fold n.
  destruct n as [|p|p] eqn:En; [| | lia].
  - exists (shr_record_of_loc (a / c) (loc_of a c)). split.
    + cbn [shr]. f_equal. lia.
    + rewrite Z.mul_1_r. apply located_record.
  - exists (iter_pos shr_1 p (shr_record_of_loc (a / c) (loc_of a c))). split.
    + reflexivity.
    + apply located_iter; [assumption | assumption | apply located_record].
Qed.

Lemma shr_fexp_id (m e : Z) (l : location) :
  fexp prec emax (Zdigits2 m + e) - e <= 0 ->
  shr_fexp prec emax m e l = (shr_record_of_loc m l, e).
Proof.
  intros Hn. unfold shr_fexp.
  destruct (fexp prec emax (Zdigits2 m + e) - e) as [|p|p]; [reflexivity | lia | reflexivity].
Qed.

Lemma Zdigits2_digits (m : Z) : 0 <= m -> Zdigits2 m = digits m.
Proof.
  intros Hm. destruct m as [|p|p]; [reflexivity | apply digits_Zdigits2 | lia].
Qed.

Lemma digits_le_pow (q n : Z) : 0 <= q < 2 ^ n -> 0 <= n -> digits q <= n.
Proof.
  intros [Hq Hlt] Hn.
  destruct (Z.eq_dec q 0) as [->|NE]; [cbn; lia |].
  pose proof (digits_bounds (q := q) ltac:(lia)) as [Hlo _].
  destruct (Z_le_gt_dec (digits q) n) as [|Hgt]; [assumption | exfalso].
  assert (2 ^ n <= 2 ^ (digits q - 1)) by (apply pow2_le; lia).
  lia.
Qed.

Lemma digits_shift (m E : Z) : 0 < m -> 0 <= E ->
  forall q, m * 2 ^ E <= q < (m + 1) * 2 ^ E -> digits q = digits m + E.
Proof.
  intros Hm HE q Hq.
  pose proof (digits_bounds Hm) as [Hlo Hhi].
  pose proof (digits_pos Hm) as Hd.
  pose proof (pow2_pos HE) as HpE.
  apply digits_unique; [| lia].
  split.
  - replace (digits m + E - 1) with ((digits m - 1) + E) by lia.
    rewrite pow2_add by lia. nia.
  - rewrite pow2_add by lia. nia.
Qed.


Lemma binary_round_aux_repr (mz ez : Z) (lz : location) (a c : Z) :
  0 <= a -> 0 < c -> mz = a / c -> lz = loc_of a c ->
  0 <= ez + bias ->
  ez <= fexp prec emax (Zdigits2 mz + ez) ->
  repr (binary_round_aux prec emax false mz ez lz) (rnd (a * 2 ^ (ez + bias)) c).
Proof.
  intros Ha Hc Hmz Hlz HE Hpre.
  pose proof bias_val as Hbias.
  assert (Hmz0 : 0 <= mz) by (rewrite Hmz; apply Z.div_pos; lia).
  rewrite (Zdigits2_digits Hmz0) in Hpre.
  pose proof (digits_nonneg mz) as Hd0.
  pose proof (Z.mul_div_le a c Hc) as Hlo. rewrite <- Hmz in Hlo.
  assert (Hhi : a < (mz + 1) * c).
  { pose proof (Z.mod_pos_bound a c Hc). pose proof (Z.div_mod a c ltac:(lia)).
    rewrite <- Hmz in *. nia. }
  destruct (@shr_fexp_located mz ez lz a c Ha Hc Hmz Hlz)
    as (mrs' & Hs1 & Hloc1).
  { rewrite (Zdigits2_digits Hmz0). lia. }
  rewrite (Zdigits2_digits Hmz0) in Hs1, Hloc1.
  rewrite fexp_eq in *.
  set (d := digits mz) in *.
  set (e' := Z.max (d + ez - 53) (-1074)) in *.
  set (n1 := e' - ez) in *.
  assert (Hn1 : 0 <= n1) by lia.
  pose proof (pow2_pos Hn1) as Hp1.
  pose proof (pow2_pos HE) as HpE.
  assert (Hc1 : 0 < c * 2 ^ n1) by nia.
  set (M0 := rne a (c * 2 ^ n1)).
  assert (HM0 : 0 <= M0) by (apply rne_nonneg; assumption).
  (* the value *)
  assert (HV : rnd (a * 2 ^ (ez + bias)) c = M0 * 2 ^ (e' + bias)).
  { unfold rnd. cbv zeta.
    assert (Hg : fexpZ (digits (a * 2 ^ (ez + bias) / c)) = e' + bias).
    { destruct (Z.eq_dec mz 0) as [Z0|NZ].
      - assert (Hq : 0 <= a * 2 ^ (ez + bias) / c < 2 ^ (ez + bias)).
        { split; [apply Z.div_pos; nia |].
          apply Z.div_lt_upper_bound; [lia |]. nia. }
        pose proof (digits_le_pow Hq HE) as Hdq.
        assert (Hdz : digits mz = 0) by (rewrite Z0; reflexivity).
        unfold fexpZ. rewrite bias_val in *. unfold e', d in *. lia.
      - assert (Hq : mz * 2 ^ (ez + bias) <= a * 2 ^ (ez + bias) / c
                     < (mz + 1) * 2 ^ (ez + bias)).
        { split.
          - apply Z.div_le_lower_bound; [lia |]. nia.
          - apply Z.div_lt_upper_bound; [lia |]. nia. }
        rewrite (digits_shift (m := mz) ltac:(lia) HE Hq).
        fold d. unfold fexpZ, e'. rewrite bias_val. lia. }
    rewrite Hg. f_equal.
    replace (e' + bias) with ((ez + bias) + n1) by (unfold n1; lia).
    rewrite (@pow2_add (ez + bias) n1) by lia.
    replace (a * 2 ^ (ez + bias)) with (2 ^ (ez + bias) * a) by ring.
    replace (c * (2 ^ (ez + bias) * 2 ^ n1)) with (2 ^ (ez + bias) * (c * 2 ^ n1)) by ring.
    apply rne_scale; assumption. }
  rewrite HV.
  (* bounds on the rounded mantissa *)
  assert (HM0up : M0 <= 2 ^ Z.max (d - n1) 0).
  { apply rne_le; [assumption |].
    pose proof (digits_lt_pow Hmz0) as Hmd. fold d in Hmd.
    assert (H2 : 2 ^ d <= 2 ^ Z.max (d - n1) 0 * 2 ^ n1).
    { rewrite <- pow2_add by lia. apply pow2_le. lia. }
    nia. }
  assert (HM0lo : 0 < mz -> n1 <= d - 1 -> 2 ^ (d - 1 - n1) <= M0).
  { intros Hpos Hle. apply rne_ge; [assumption |].
    pose proof (digits_bounds Hpos) as [Hmd _]. fold d in Hmd.
    assert (H2 : 2 ^ (d - 1 - n1) * 2 ^ n1 = 2 ^ (d - 1)).
    { rewrite <- pow2_add by lia. f_equal. lia. }
    nia. }
  unfold binary_round_aux. rewrite Hs1.
  rewrite (located_round Hc1 Hloc1). fold M0.
  replace (ez + n1) with e' by (unfold n1; lia).
  change (emax - prec) with 971.
  destruct (Z.eq_dec M0 0) as [Z0|NZ].
  - rewrite Z0. rewrite shr_fexp_id by (rewrite fexp_eq; cbn [Zdigits2]; lia).
    cbn. reflexivity.
  - assert (HM0pos : 0 < M0) by lia.
    pose proof (digits_bounds HM0pos) as [HdM _].
    pose proof (digits_pos HM0pos) as HdMpos.
    destruct (Z_le_gt_dec (fexp prec emax (Zdigits2 M0 + e') - e') 0) as [Hn2|Hn2].
    + rewrite (shr_fexp_id _ _ _ Hn2). cbn [shr_record_of_loc shr_m].
      destruct M0 as [|p|p] eqn:EM; [lia | | lia].
      destruct (Z.leb_spec e' 971) as [Hfin|Hinf].
      * cbn [repr]. split; [reflexivity | lia].
      * cbn [repr].
        assert (Hmzpos : 0 < mz).
        { destruct (Z.eq_dec mz 0) as [Z0|]; [| lia].
          assert (Hdz : digits mz = 0) by (rewrite Z0; reflexivity).
          unfold e', d in *. lia. }
        assert (Hdn : d - n1 = 53) by lia.
        specialize (HM0lo Hmzpos ltac:(lia)).
        replace (d - 1 - n1) with 52 in HM0lo by lia.
        assert (H3 : 2 ^ (1024 + bias) <= 2 ^ 52 * 2 ^ (e' + bias)).
        { rewrite <- pow2_add by lia. apply pow2_le. lia. }
        pose proof (pow2_pos (n := e' + bias) ltac:(lia)). nia.
    + rewrite fexp_eq in Hn2. rewrite (Zdigits2_digits HM0) in Hn2.
      assert (Hd54 : 54 <= digits M0) by lia.
      assert (H53 : 2 ^ 53 <= M0).
      { assert (2 ^ 53 <= 2 ^ (digits M0 - 1)) by (apply pow2_le; lia). lia. }
      assert (Hmax : 2 ^ Z.max (d - n1) 0 <= 2 ^ 53) by (apply pow2_le; lia).
      assert (EM : M0 = 2 ^ 53) by lia.
      rewrite EM. unfold shr_fexp. rewrite fexp_eq.
      change (Zdigits2 (2 ^ 53)) with 54.
      replace (Z.max (54 + e' - 53) (-1074) - e') with 1 by lia.
      cbn [shr shr_record_of_loc iter_pos].
      change (shr_m (shr_1 {| shr_m := 2 ^ 53; shr_r := false; shr_s := false |}))
        with (2 ^ 52).
      change (2 ^ 52) with (Zpos (Z.to_pos (2 ^ 52))) at 1.
      cbv iota beta.
      destruct (Z.leb_spec (e' + 1) 971) as [Hfin|Hinf].
      * cbn [repr]. split; [| lia].
        change (Zpos (Z.to_pos (2 ^ 52))) with (2 ^ 52).
        replace (e' + 1 + bias) with (1 + (e' + bias)) by lia.
        rewrite (@pow2_add 1 (e' + bias)) by lia.
        change (2 ^ 53) with (2 ^ 52 * 2 ^ 1). ring.
      * cbn [repr].
        rewrite <- (@pow2_add 53 (e' + bias)) by lia. apply pow2_le. lia.
Qed.


Lemma valid_finite (s : bool) (m : positive) (e : Z) :
  valid_binary (S754_finite s m e) = true ->
  let d := digits (Zpos m) in
  -1074 <= e <= 971 /\ 0 < d <= 53 /\ (-1074 < e -> d = 53).
Proof.
  cbn [SpecFloat.valid_binary]. unfold bounded, canonical_mantissa.
  rewrite andb_true_iff, Z.eqb_eq, Z.leb_le. rewrite fexp_eq.
  change (Zpos (digits2_pos m)) with (Zdigits2 (Zpos m)).
  rewrite digits_Zdigits2. change (emax - prec) with 971.
  pose proof (digits_pos (q := Zpos m) ltac:(lia)).
  cbv zeta. lia.
Qed.

Lemma sval_nonneg (x : spec_float) : valid_binary x = true -> 0 <= sval x.
Proof.
  pose proof bias_val as Hb.
  destruct x as [s|s| |s m e]; cbn [sval]; intros Hv; try lia.
Qed.

Lemma sval_finite_pos (s : bool) (m : positive) (e : Z) :
  valid_binary (S754_finite s m e) = true -> 0 < sval (S754_finite s m e).
Proof.
  pose proof bias_val as Hb. intros Hv. cbn [sval].
  apply valid_finite in Hv. cbv zeta in Hv.
  pose proof (pow2_pos (n := e + bias) ltac:(lia)). nia.
Qed.

Lemma sval_finite_lt (x : spec_float) :
  valid_binary x = true -> finite x = true -> sval x < 2 ^ (1024 + bias).
Proof.
  pose proof bias_val as Hb.
  destruct x as [s|s| |s m e]; cbn [sval finite]; intros Hv Hf; try discriminate.
  - apply pow2_pos. lia.
  - apply valid_finite in Hv. cbv zeta in Hv.
    destruct Hv as (He & Hd & _).
    pose proof (digits_lt_pow (q := Zpos m) ltac:(lia)) as Hm.
    assert (H1 : 2 ^ digits (Zpos m) <= 2 ^ 53) by (apply pow2_le; lia).
    assert (H2 : 2 ^ (e + bias) <= 2 ^ (971 + bias)) by (apply pow2_le; lia).
    assert (H3 : 2 ^ 53 * 2 ^ (971 + bias) = 2 ^ (1024 + bias)).
    { rewrite <- (@pow2_add 53 (971 + bias)) by lia. f_equal; lia. }
    pose proof (pow2_pos (n := e + bias) ltac:(lia)). nia.
Qed.

(** The order of the floats that are not negative is the order of their
    values. *)
Lemma compare_finite (m1 m2 : positive) (e1 e2 : Z) :
  valid_binary (S754_finite false m1 e1) = true ->
  valid_binary (S754_finite false m2 e2) = true ->
  SFcompare (S754_finite false m1 e1) (S754_finite false m2 e2)
  = Some (sval (S754_finite false m1 e1) ?= sval (S754_finite false m2 e2)).
Proof.
  pose proof bias_val as Hb. intros H1 H2.
  apply valid_finite in H1, H2. cbv zeta in H1, H2.
  destruct H1 as (He1 & Hd1 & Hn1), H2 as (He2 & Hd2 & Hn2).
  cbn [SFcompare sval]. f_equal.
  pose proof (digits_bounds (q := Zpos m1) ltac:(lia)) as [Hl1 Hu1].
  pose proof (digits_bounds (q := Zpos m2) ltac:(lia)) as [Hl2 Hu2].
  assert (Hlt : forall ma mb ea eb,
            -1074 <= ea -> ea < eb ->
            ma < 2 ^ 53 -> 2 ^ 52 <= mb ->
            ma * 2 ^ (ea + bias) < mb * 2 ^ (eb + bias)).
  { intros ma mb ea eb Ha Hab Hma Hmb.
    replace (eb + bias) with ((eb - ea - 1) + 1 + (ea + bias)) by lia.
    rewrite (@pow2_add (eb - ea - 1 + 1) (ea + bias)) by lia.
    rewrite (@pow2_add (eb - ea - 1) 1) by lia. change (2 ^ 1) with 2.
    pose proof (pow2_pos (n := ea + bias) ltac:(lia)).
    pose proof (pow2_pos (n := eb - ea - 1) ltac:(lia)).
    change (2 ^ 53) with (2 * 2 ^ 52) in Hma.
    assert (ma * 2 ^ (ea + bias) < 2 * 2 ^ 52 * 2 ^ (ea + bias)) by nia.
    assert (2 ^ 52 * (1 * 2 * 2 ^ (ea + bias)) <= mb * (2 ^ (eb - ea - 1) * 2 * 2 ^ (ea + bias))).
    { apply Z.mul_le_mono_nonneg; try lia. nia. }
    lia. }
  assert (Hp53 : forall d, d <= 53 -> 2 ^ d <= 2 ^ 53).
  { intros d Hd. destruct (Z_le_gt_dec 0 d); [apply pow2_le; lia |].
    rewrite Z.pow_neg_r by lia. lia. }
  destruct (Z.compare_spec e1 e2) as [E|L|G].
  - subst e2. rewrite Pos.compare_cont_spec. cbn [Pos.switch_Eq].
    change (Pos.compare m1 m2) with (Z.compare (Zpos m1) (Zpos m2)).
    pose proof (pow2_pos (n := e1 + bias) ltac:(lia)).
    symmetry. destruct (Z.compare_spec (Zpos m1) (Zpos m2)) as [E|L|G].
    + rewrite E. apply Z.compare_refl.
    + apply Z.compare_lt_iff. nia.
    + apply Z.compare_gt_iff. nia.
  - symmetry. apply Z.compare_lt_iff. apply Hlt; try lia.
    + specialize (Hp53 (digits (Zpos m1))). lia.
    + rewrite (Hn2 ltac:(lia)) in Hl2. exact Hl2.
  - symmetry. apply Z.compare_gt_iff. apply Hlt; try lia.
    + specialize (Hp53 (digits (Zpos m2))). lia.
    + rewrite (Hn1 ltac:(lia)) in Hl1. exact Hl1.
Qed.

Lemma compare_nonneg (x y : spec_float) :
  valid_binary x = true -> valid_binary y = true ->
  nonneg x = true -> nonneg y = true ->
  SFcompare x y = Some (sval x ?= sval y).
Proof.
  pose proof bias_val as Hb. intros Hx Hy Nx Ny.
  destruct x as [sx|[]| |[] mx ex]; try discriminate;
  destruct y as [sy|[]| |[] my ey]; try discriminate.
  - reflexivity.
  - cbn [SFcompare sval]. apply (f_equal (@Some comparison)). symmetry. apply Z.compare_lt_iff.
    apply pow2_pos. lia.
  - pose proof (sval_finite_pos _ _ _ Hy). cbn [SFcompare]. apply (f_equal (@Some comparison)).
    symmetry. apply Z.compare_lt_iff. cbn [sval] in *. lia.
  - cbn [SFcompare sval]. apply (f_equal (@Some comparison)). symmetry. apply Z.compare_gt_iff.
    apply pow2_pos. lia.
  - cbn [SFcompare sval]. apply (f_equal (@Some comparison)). symmetry. apply Z.compare_refl.
  - pose proof (sval_finite_lt _ Hy eq_refl). cbn [SFcompare]. apply (f_equal (@Some comparison)).
    symmetry. apply Z.compare_gt_iff. cbn [sval] in *. lia.
  - pose proof (sval_finite_pos _ _ _ Hx). cbn [SFcompare]. apply (f_equal (@Some comparison)).
    symmetry. apply Z.compare_gt_iff. cbn [sval] in *. lia.
  - pose proof (sval_finite_lt _ Hx eq_refl). cbn [SFcompare]. apply (f_equal (@Some comparison)).
    symmetry. apply Z.compare_lt_iff. cbn [sval] in *. lia.
  - apply compare_finite; assumption.
Qed.

Lemma SFleb_nonneg (x y : spec_float) :
  valid_binary x = true -> valid_binary y = true ->
  nonneg x = true -> nonneg y = true ->
  SFleb x y = (sval x <=? sval y).
Proof.
  intros Hx Hy Nx Ny. unfold SFleb. rewrite (compare_nonneg _ _ Hx Hy Nx Ny).
  unfold Z.leb. destruct (sval x ?= sval y); reflexivity.
Qed.

Lemma SFltb_nonneg (x y : spec_float) :
  valid_binary x = true -> valid_binary y = true ->
  nonneg x = true -> nonneg y = true ->
  SFltb x y = (sval x <? sval y).
Proof.
  intros Hx Hy Nx Ny. unfold SFltb. rewrite (compare_nonneg _ _ Hx Hy Nx Ny).
  unfold Z.ltb. destruct (sval x ?= sval y); reflexivity.
Qed.

(** A result with the value [V], if it is a float, has the value [V]
    or is the infinity. *)
Lemma repr_sval (r : spec_float) (V : Z) :
  valid_binary r = true -> repr r V ->
  nonneg r = true /\ sval r = Z.min V (2 ^ (1024 + bias))
  /\ (finite r = true <-> V < 2 ^ (1024 + bias)).
Proof.
  pose proof bias_val as Hb. intros Hv Hr.
  destruct r as [s|[]| |[] m e]; cbn [repr] in Hr; try contradiction.
  - subst V. cbn [nonneg sval finite].
    pose proof (pow2_pos (n := 1024 + bias) ltac:(lia)).
    repeat split; try lia.
  - cbn [nonneg sval finite]. repeat split; try lia; discriminate.
  - pose proof (sval_finite_lt _ Hv eq_refl) as Hlt. cbn [nonneg sval finite] in *.
    destruct Hr as [-> _]. repeat split; try lia.
Qed.

Lemma rnd_0 (b : Z) : 0 < b -> rnd 0 b = 0.
Proof.
  intros Hb. unfold rnd. cbv zeta.
  pose proof (pow2_pos (fexpZ_nonneg (digits (0 / b)))) as Hp.
  assert (Hc : 0 < b * 2 ^ fexpZ (digits (0 / b))) by nia.
  pose proof (@rne_exact 0 _ Hc) as H0. rewrite Z.mul_0_l in H0.
  rewrite H0. reflexivity.
Qed.

(** The value of a float rounds to itself. *)
Lemma rnd_id (x : spec_float) :
  valid_binary x = true -> finite x = true -> rnd (sval x) 1 = sval x.
Proof.
  pose proof bias_val as Hb. intros Hv Hf.
  destruct x as [s|s| |s m e]; try discriminate.
  - apply rnd_0. lia.
  - apply valid_finite in Hv. cbv zeta in Hv. destruct Hv as (He & Hd & Hn).
    cbn [sval]. unfold rnd. cbv zeta. rewrite Z.div_1_r, Z.mul_1_l.
    assert (HE : 0 <= e + bias) by lia.
    pose proof (pow2_pos HE) as Hp.
    rewrite (@digits_shift (Zpos m) (e + bias) ltac:(lia) HE (Zpos m * 2 ^ (e + bias)))
      by lia.
    assert (Hg : fexpZ (digits (Zpos m) + (e + bias)) = e + bias).
    { unfold fexpZ. lia. }
    rewrite Hg. rewrite rne_exact by assumption. reflexivity.
Qed.

Lemma repr_self (x : spec_float) :
  valid_binary x = true -> nonneg x = true -> finite x = true -> repr x (sval x).
Proof.
  pose proof bias_val as Hb. intros Hv Hn Hf.
  destruct x as [s|s| |[] m e]; try discriminate; cbn [repr sval].
  - reflexivity.
  - apply valid_finite in Hv. cbv zeta in Hv. split; [reflexivity | lia].
Qed.

Lemma bra_exact (m : positive) (e : Z) :
  0 <= e + bias ->
  e <= fexp prec emax (Zdigits2 (Zpos m) + e) ->
  repr (binary_round_aux prec emax false (Zpos m) e loc_Exact)
       (rnd (Zpos m * 2 ^ (e + bias)) 1).
Proof.
  intros HE Hpre.
  apply binary_round_aux_repr; try assumption; try lia.
  - symmetry. apply Z.div_1_r.
  - unfold loc_of. rewrite Z.mod_1_r. reflexivity.
Qed.

Lemma iter_xO (d m : positive) : Zpos (Pos.iter xO m d) = Zpos m * 2 ^ Zpos d.
Proof.
  induction d as [|d IH] using Pos.peano_ind.
  - cbn [Pos.iter]. change (2 ^ 1) with 2. lia.
  - rewrite Pos.iter_succ, Pos2Z.inj_xO, IH, Pos2Z.inj_succ, Z.pow_succ_r by lia. ring.
Qed.

Lemma shl_align_spec (m : positive) (e e' : Z) :
  let r := shl_align m e e' in
  snd r = Z.min e e' /\ Zpos (fst r) = Zpos m * 2 ^ (e - Z.min e e').
Proof.
  unfold shl_align. destruct (e' - e) as [|d|d] eqn:E; cbn [fst snd].
  - replace (Z.min e e') with e by lia. rewrite Z.sub_diag. change (2 ^ 0) with 1.
    split; lia.
  - replace (Z.min e e') with e by lia. rewrite Z.sub_diag. change (2 ^ 0) with 1.
    split; lia.
  - replace (Z.min e e') with e' by lia. rewrite iter_xO.
    replace (e - e') with (Zpos d) by lia. split; reflexivity.
Qed.

Lemma binary_round_repr (m : positive) (e : Z) :
  0 <= e + bias ->
  repr (binary_round prec emax false m e) (rnd (Zpos m * 2 ^ (e + bias)) 1).
Proof.
  pose proof bias_val as Hb. intros HE. unfold binary_round.
  set (e' := fexp prec emax (Zpos (digits2_pos m) + e)).
  assert (He' : e' = Z.max (digits (Zpos m) + e - 53) (-1074)).
  { unfold e'. rewrite fexp_eq.
    change (Zpos (digits2_pos m)) with (Zdigits2 (Zpos m)).
    now rewrite digits_Zdigits2. }
  destruct (shl_align_spec m e e') as (Hs & Hf). cbv zeta in Hs, Hf.
  destruct (shl_align m e e') as [mz ez]. cbn [fst snd] in Hs, Hf.
  assert (Hval : Zpos mz * 2 ^ (ez + bias) = Zpos m * 2 ^ (e + bias)).
  { rewrite Hf, Hs.
    replace (e + bias) with ((e - Z.min e e') + (Z.min e e' + bias)) by lia.
    rewrite (@pow2_add (e - Z.min e e') (Z.min e e' + bias)) by lia. ring. }
  rewrite <- Hval. apply bra_exact; [lia |].
  rewrite digits_Zdigits2, fexp_eq.
  assert (Hd : digits (Zpos mz) = digits (Zpos m) + (e - Z.min e e')).
  { apply digits_shift with (m := Zpos m); [lia | lia |].
    pose proof (pow2_pos (n := e - Z.min e e') ltac:(lia)). nia. }
  lia.
Qed.

Lemma binary_normalize_repr (z : Z) (e : Z) :
  0 <= z -> 0 <= e + bias ->
  repr (binary_normalize prec emax z e false) (rnd (z * 2 ^ (e + bias)) 1).
Proof.
  intros Hz HE. destruct z as [|m|m]; [| | lia].
  - cbn [binary_normalize repr]. rewrite Z.mul_0_l. apply rnd_0. lia.
  - cbn [binary_normalize]. apply binary_round_repr. assumption.
Qed.

Ltac finite_cases x Hx Nx Fx :=
  destruct x as [?s|?s| |[] ?m ?e]; try discriminate Nx; try discriminate Fx.

Lemma SFmul_repr (x y : spec_float) :
  valid_binary x = true -> valid_binary y = true ->
  nonneg x = true -> nonneg y = true -> finite x = true -> finite y = true ->
  repr (SFmul prec emax x y) (rnd (sval x * sval y) (2 ^ bias)).
Proof.
  pose proof bias_val as Hb. intros Hx Hy Nx Ny Fx Fy.
  assert (Hpb : 0 < 2 ^ bias) by (apply pow2_pos; lia).
  finite_cases x Hx Nx Fx; finite_cases y Hy Ny Fy; cbn [SFmul xorb].
  - cbn [repr sval]. rewrite Z.mul_0_l. now apply rnd_0.
  - cbn [repr sval]. rewrite Z.mul_0_l. now apply rnd_0.
  - cbn [repr sval]. rewrite Z.mul_0_r. now apply rnd_0.
  - apply valid_finite in Hx, Hy. cbv zeta in Hx, Hy.
    destruct Hx as (Hex & Hdx & Hnx), Hy as (Hey & Hdy & Hny).
    assert (HE : 0 <= e + e0 + bias) by lia.
    assert (Hval : sval (S754_finite false m e) * sval (S754_finite false m0 e0)
                   = 2 ^ bias * (Zpos (m * m0) * 2 ^ (e + e0 + bias))).
    { cbn [sval]. rewrite Pos2Z.inj_mul.
      assert (Hp : 2 ^ bias * 2 ^ (e + e0 + bias) = 2 ^ (e + bias) * 2 ^ (e0 + bias)).
      { rewrite <- (@pow2_add bias (e + e0 + bias)) by lia.
        rewrite <- (@pow2_add (e + bias) (e0 + bias)) by lia. f_equal; lia. }
      nia. }
    rewrite Hval. replace (2 ^ bias) with (2 ^ bias * 1) at 2 by lia.
    rewrite rnd_scale by lia.
    apply bra_exact; [assumption |].
    rewrite digits_Zdigits2, fexp_eq.
    pose proof (digits_bounds (q := Zpos m) ltac:(lia)) as [Hl1 _].
    pose proof (digits_bounds (q := Zpos m0) ltac:(lia)) as [Hl2 _].
    assert (Hd : digits (Zpos m) + digits (Zpos m0) - 1 <= digits (Zpos (m * m0))).
    { destruct (Z_le_gt_dec (digits (Zpos m) + digits (Zpos m0) - 1)
                            (digits (Zpos (m * m0)))) as [|Hgt]; [assumption | exfalso].
      pose proof (digits_lt_pow (q := Zpos (m * m0)) ltac:(lia)) as Hu.
      pose proof (digits_pos (q := Zpos (m * m0)) ltac:(lia)).
      assert (2 ^ digits (Zpos (m * m0))
              <= 2 ^ ((digits (Zpos m) - 1) + (digits (Zpos m0) - 1)))
        by (apply pow2_le; lia).
      rewrite (@pow2_add (digits (Zpos m) - 1) (digits (Zpos m0) - 1)) in H0 by lia.
      set (D := digits (Zpos (m * m0))) in *.
      rewrite Pos2Z.inj_mul in Hu.
      assert (2 ^ (digits (Zpos m) - 1) * 2 ^ (digits (Zpos m0) - 1) <= Zpos m * Zpos m0).
      { apply Z.mul_le_mono_nonneg; try lia; apply Z.pow_nonneg; lia. }
      lia. }
    lia.
Qed.

Lemma SFadd_repr (x y : spec_float) :
  valid_binary x = true -> valid_binary y = true ->
  nonneg x = true -> nonneg y = true -> finite x = true -> finite y = true ->
  repr (SFadd prec emax x y) (rnd (sval x + sval y) 1).
Proof.
  pose proof bias_val as Hb. intros Hx Hy Nx Ny Fx Fy.
  destruct x as [sx|sx| |[] mx ex] eqn:Ex; try discriminate;
  destruct y as [sy|sy| |[] my ey] eqn:Ey; try discriminate.
  - assert (R : forall s, repr (S754_zero s) (rnd (0 + 0) 1)).
    { intros s. cbn [repr]. apply rnd_0. lia. }
    cbn [sval]. destruct sx, sy; apply R.
  - cbn [SFadd]. change (sval (S754_zero sx)) with 0. rewrite Z.add_0_l.
    rewrite rnd_id by (assumption || reflexivity). now apply repr_self.
  - cbn [SFadd]. change (sval (S754_zero sy)) with 0. rewrite Z.add_0_r.
    rewrite rnd_id by (assumption || reflexivity). now apply repr_self.
  - cbn [SFadd cond_Zopp].
    pose proof (valid_finite _ _ _ Hx) as Vx. pose proof (valid_finite _ _ _ Hy) as Vy.
    cbv zeta in Vx, Vy.
    destruct (shl_align_spec mx ex (Z.min ex ey)) as (_ & H1).
    destruct (shl_align_spec my ey (Z.min ex ey)) as (_ & H2).
    cbv zeta in H1, H2.
    replace (Z.min ex (Z.min ex ey)) with (Z.min ex ey) in H1 by lia.
    replace (Z.min ey (Z.min ex ey)) with (Z.min ex ey) in H2 by lia.
    set (ez := Z.min ex ey) in *.
    assert (Hval : sval (S754_finite false mx ex) + sval (S754_finite false my ey)
                   = (Zpos (fst (shl_align mx ex ez)) + Zpos (fst (shl_align my ey ez)))
                     * 2 ^ (ez + bias)).
    { cbn [sval]. rewrite H1, H2.
      replace (ex + bias) with ((ex - ez) + (ez + bias)) at 1 by lia.
      replace (ey + bias) with ((ey - ez) + (ez + bias)) at 1 by lia.
      rewrite (@pow2_add (ex - ez) (ez + bias)) by lia.
      rewrite (@pow2_add (ey - ez) (ez + bias)) by lia. ring. }
    rewrite Hval. apply binary_normalize_repr; lia.
Qed.

Lemma SFsub_repr (x y : spec_float) :
  valid_binary x = true -> valid_binary y = true ->
  nonneg x = true -> nonneg y = true -> finite x = true -> finite y = true ->
  sval y <= sval x ->
  repr (SFsub prec emax x y) (rnd (sval x - sval y) 1).
Proof.
  pose proof bias_val as Hb. intros Hx Hy Nx Ny Fx Fy Hle.
  destruct x as [sx|sx| |[] mx ex] eqn:Ex; try discriminate;
  destruct y as [sy|sy| |[] my ey] eqn:Ey; try discriminate.
  - assert (R : forall s, repr (S754_zero s) (rnd (0 - 0) 1)).
    { intros s. cbn [repr]. apply rnd_0. lia. }
    cbn [sval]. destruct sx, sy; apply R.
  - pose proof (sval_finite_pos _ _ _ Hy). cbn [sval] in *. lia.
  - cbn [SFsub]. change (sval (S754_zero sy)) with 0. rewrite Z.sub_0_r.
    rewrite rnd_id by (assumption || reflexivity). now apply repr_self.
  - cbn [SFsub cond_Zopp].
    pose proof (valid_finite _ _ _ Hx) as Vx. pose proof (valid_finite _ _ _ Hy) as Vy.
    cbv zeta in Vx, Vy.
    destruct (shl_align_spec mx ex (Z.min ex ey)) as (_ & H1).
    destruct (shl_align_spec my ey (Z.min ex ey)) as (_ & H2).
    cbv zeta in H1, H2.
    replace (Z.min ex (Z.min ex ey)) with (Z.min ex ey) in H1 by lia.
    replace (Z.min ey (Z.min ex ey)) with (Z.min ex ey) in H2 by lia.
    set (ez := Z.min ex ey) in *.
    assert (Hval : sval (S754_finite false mx ex) - sval (S754_finite false my ey)
                   = (Zpos (fst (shl_align mx ex ez)) - Zpos (fst (shl_align my ey ez)))
                     * 2 ^ (ez + bias)).
    { cbn [sval]. rewrite H1, H2.
      replace (ex + bias) with ((ex - ez) + (ez + bias)) at 1 by lia.
      replace (ey + bias) with ((ey - ez) + (ez + bias)) at 1 by lia.
      rewrite (@pow2_add (ex - ez) (ez + bias)) by lia.
      rewrite (@pow2_add (ey - ez) (ez + bias)) by lia. ring. }
    assert (Hd : 0 <= (Zpos (fst (shl_align mx ex ez)) - Zpos (fst (shl_align my ey ez)))
                      * 2 ^ (ez + bias)) by (rewrite <- Hval; lia).
    rewrite Hval. apply binary_normalize_repr; [| lia].
    pose proof (pow2_pos (n := ez + bias) ltac:(lia)). nia.
Qed.


Lemma new_location_loc_of (a c : Z) :
  0 < c -> new_location c (a mod c) = loc_of a c.
Proof.
  intros Hc. pose proof (Z.mod_pos_bound a c Hc) as Hr.
  unfold new_location, loc_of, new_location_even, new_location_odd.
  destruct (Z.even c) eqn:Ev; [reflexivity |].
  destruct (Z.eqb_spec (a mod c) 0) as [E|NE]; [reflexivity |].
  f_equal.
  assert (Hodd : 2 * (a mod c) <> c).
  { intros E. rewrite <- E in Ev. rewrite Z.even_mul in Ev. discriminate. }
  destruct (Z.compare_spec (2 * (a mod c) + 1) c) as [E|L|G]; symmetry.
  - apply Z.compare_lt_iff. lia.
  - apply Z.compare_lt_iff. lia.
  - apply Z.compare_gt_iff. lia.
Qed.

Lemma SFdiv_core_binary_spec (mx my : positive) (ex ey : Z) :
  let e' := Z.min (fexp prec emax (Zdigits2 (Zpos mx) + ex - (Zdigits2 (Zpos my) + ey)))
                  (ex - ey) in
  let m' := Zpos mx * 2 ^ (ex - ey - e') in
  SFdiv_core_binary prec emax (Zpos mx) ex (Zpos my) ey
  = (m' / Zpos my, e', loc_of m' (Zpos my)).
Proof.
  intros e' m'. unfold SFdiv_core_binary. fold e'.
  assert (Hs : 0 <= ex - ey - e') by (unfold e'; lia).
  assert (Hm : match ex - ey - e' with
               | Z0 => Zpos mx
               | Zpos _ => Z.shiftl (Zpos mx) (ex - ey - e')
               | Zneg _ => 0
               end = m').
  { unfold m'. destruct (ex - ey - e') as [|p|p] eqn:E; [| | lia].
    - change (2 ^ 0) with 1. lia.
    - apply Z.shiftl_mul_pow2. lia. }
  rewrite Hm.
  pose proof (new_location_loc_of m' (c := Zpos my) ltac:(lia)) as Hl.
  unfold Z.div, Z.modulo in *.
  destruct (Z.div_eucl m' (Zpos my)) as [q r]. rewrite Hl. reflexivity.
Qed.

Lemma SFdiv_repr (x y : spec_float) :
  valid_binary x = true -> valid_binary y = true ->
  nonneg x = true -> nonneg y = true -> finite x = true -> finite y = true ->
  0 < sval y ->
  repr (SFdiv prec emax x y) (rnd (sval x * 2 ^ bias) (sval y)).
Proof.
  pose proof bias_val as Hb. intros Hx Hy Nx Ny Fx Fy Hpos.
  destruct y as [sy|sy| |[] my ey] eqn:Ey; try discriminate.
  destruct x as [sx|sx| |[] mx ex] eqn:Ex; try discriminate.
  - cbn [SFdiv repr]. change (sval (S754_zero sx)) with 0. rewrite Z.mul_0_l.
    now apply rnd_0.
  - cbn [SFdiv xorb]. rewrite SFdiv_core_binary_spec. cbv zeta.
    pose proof (valid_finite _ _ _ Hx) as Vx. pose proof (valid_finite _ _ _ Hy) as Vy.
    cbv zeta in Vx, Vy.
    destruct Vx as (Hex & Hdx & Hnx), Vy as (Hey & Hdy & Hny).
    rewrite !digits_Zdigits2, fexp_eq.
    set (d1 := digits (Zpos mx)) in *. set (d2 := digits (Zpos my)) in *.
    set (e' := Z.min (Z.max (d1 + ex - (d2 + ey) - 53) (-1074)) (ex - ey)).
    set (s := ex - ey - e').
    assert (Hs : 0 <= s) by (unfold s, e'; lia).
    pose proof (pow2_pos Hs) as Hps.
    set (m' := Zpos mx * 2 ^ s).
    assert (HE : 0 <= e' + bias) by (unfold e'; lia).
    assert (Hval : rnd (sval (S754_finite false mx ex) * 2 ^ bias)
                       (sval (S754_finite false my ey))
                   = rnd (m' * 2 ^ (e' + bias)) (Zpos my)).
    { cbn [sval]. unfold m'.
      assert (H1 : Zpos mx * 2 ^ (ex + bias) * 2 ^ bias
                   = 2 ^ (ey + bias) * (Zpos mx * 2 ^ s * 2 ^ (e' + bias))).
      { assert (Hp : 2 ^ (ex + bias) * 2 ^ bias
                     = 2 ^ (ey + bias) * (2 ^ s * 2 ^ (e' + bias))).
        { rewrite <- (@pow2_add (ex + bias) bias) by lia.
          rewrite <- (@pow2_add s (e' + bias)) by lia.
          rewrite <- (@pow2_add (ey + bias) (s + (e' + bias))) by lia.
          f_equal; unfold s; lia. }
        nia. }
      rewrite H1. rewrite (Z.mul_comm (Zpos my)).
      apply rnd_scale; [apply pow2_pos; lia | lia]. }
    rewrite Hval.
    apply binary_round_aux_repr; try reflexivity; try lia.
    assert (Hq0 : 0 <= m' / Zpos my) by (apply Z.div_pos; unfold m'; lia).
    rewrite (Zdigits2_digits Hq0), fexp_eq.
    destruct (Z_le_gt_dec e' (-1074)) as [|Hgt]; [lia |].
    assert (Hd : 53 + d2 <= d1 + s) by (unfold s, e' in *; lia).
    pose proof (digits_bounds (q := Zpos mx) ltac:(lia)) as [Hl1 _]. fold d1 in Hl1.
    pose proof (digits_lt_pow (q := Zpos my) ltac:(lia)) as Hu2. fold d2 in Hu2.
    assert (Hq : 2 ^ 52 <= m' / Zpos my).
    { apply Z.div_le_lower_bound; [lia |]. unfold m'.
      assert (H2 : 2 ^ d2 * 2 ^ 52 <= 2 ^ (d1 - 1) * 2 ^ s).
      { rewrite <- (@pow2_add d2 52) by lia.
        rewrite <- (@pow2_add (d1 - 1) s) by lia. apply pow2_le. lia. }
      assert (H3 : Zpos my * 2 ^ 52 <= 2 ^ d2 * 2 ^ 52) by nia.
      assert (H4 : 2 ^ (d1 - 1) * 2 ^ s <= Zpos mx * 2 ^ s) by nia.
      lia. }
    assert (H53 : 53 <= digits (m' / Zpos my)).
    { change 53 with (digits (2 ^ 52)). apply digits_le; [| assumption].
      apply Z.pow_nonneg. lia. }
    lia.
Qed.


End RoundingFacts.

(** * Order and monotonicity of the operations on doubles *)

Module Binary64Facts.
Import Rounding RoundingFacts.
Import Binary64.
Local Open Scope Z_scope.

Lemma Prim2SF_zero : Prim2SF 0 = S754_zero false.
Proof. reflexivity. Qed.

Lemma Prim2SF_infinity : Prim2SF infinity = S754_infinity false.
Proof. reflexivity. Qed.

Lemma SFcompare_refl (p : spec_float) : p <> S754_nan -> SFcompare p p = Some Eq.
Proof.
  destruct p as [s|[]| |[] m e]; intros H; try reflexivity; try congruence;
    cbn [SFcompare]; rewrite Z.compare_refl, Pos.compare_cont_refl; reflexivity.
Qed.

Lemma is_nan_spec (x : float) : is_nan x = true <-> Prim2SF x = S754_nan.
Proof.
  unfold is_nan. rewrite eqb_spec. unfold SFeqb.
  destruct (Prim2SF x) as [s|s| |s m e] eqn:E.
  - split; discriminate.
  - rewrite SFcompare_refl by discriminate. split; discriminate.
  - split; reflexivity.
  - rewrite SFcompare_refl by discriminate. split; discriminate.
Qed.

Lemma is_finite_spec (x : float) : is_finite x = finite (Prim2SF x).
Proof.
  unfold is_finite, is_nan, is_infinity.
  rewrite !eqb_spec, abs_spec, Prim2SF_infinity. unfold SFeqb.
  destruct (Prim2SF x) as [s|s| |s m e] eqn:E.
  - reflexivity.
  - rewrite SFcompare_refl by discriminate. reflexivity.
  - reflexivity.
  - rewrite SFcompare_refl by discriminate. reflexivity.
Qed.

Lemma nonnegative_spec (x : float) : nonnegative x <-> nonneg (Prim2SF x) = true.
Proof.
  unfold nonnegative, le. rewrite leb_spec, Prim2SF_zero. unfold SFleb.
  destruct (Prim2SF x) as [s|[]| |[] m e]; cbn; split; congruence.
Qed.

Lemma real_nonnegative_spec (x : float) :
  real_nonnegative x <-> nonneg (Prim2SF x) = true /\ finite (Prim2SF x) = true.
Proof.
  unfold real_nonnegative. fold (nonnegative x).
  rewrite nonnegative_spec, is_finite_spec. reflexivity.
Qed.

Lemma real_is_nonnegative (x : float) : real_nonnegative x -> nonnegative x.
Proof. intros [H _]. exact H. Qed.

Lemma value_nonneg (x : float) : 0 <= value x.
Proof. apply sval_nonneg, Prim2SF_valid. Qed.

Lemma leb_value (x y : float) :
  nonnegative x -> nonnegative y -> (x <=? y)%float = (value x <=? value y).
Proof.
  rewrite !nonnegative_spec. intros Hx Hy. rewrite leb_spec.
  apply SFleb_nonneg; auto using Prim2SF_valid.
Qed.

Lemma ltb_value (x y : float) :
  nonnegative x -> nonnegative y -> (x <? y)%float = (value x <? value y).
Proof.
  rewrite !nonnegative_spec. intros Hx Hy. rewrite ltb_spec.
  apply SFltb_nonneg; auto using Prim2SF_valid.
Qed.

Lemma le_value (x y : float) :
  nonnegative x -> nonnegative y -> (le x y <-> value x <= value y).
Proof.
  intros Hx Hy. unfold le. rewrite (leb_value Hx Hy). apply Z.leb_le.
Qed.

Lemma le_nonnegative (x y : float) : nonnegative x -> le x y -> nonnegative y.
Proof.
  rewrite !nonnegative_spec. unfold le. rewrite leb_spec. unfold SFleb.
  destruct (Prim2SF x) as [s|[]| |[] m e]; try discriminate;
  destruct (Prim2SF y) as [s'|[]| |[] m' e']; cbn; congruence.
Qed.

Lemma real_value (x : float) :
  real_nonnegative x <-> nonnegative x /\ value x < overflow.
Proof.
  rewrite real_nonnegative_spec, nonnegative_spec. unfold value, overflow.
  pose proof (Prim2SF_valid x) as Hv.
  split; intros [Hn Hf]; (split; [exact Hn |]).
  - apply sval_finite_lt; assumption.
  - destruct (Prim2SF x) as [s|s| |s m e]; try reflexivity; try discriminate;
      cbn [sval] in Hf; lia.
Qed.

Lemma le_real (x y : float) :
  nonnegative x -> le x y -> real_nonnegative y -> real_nonnegative x.
Proof.
  intros Hx Hle Hy. pose proof (le_nonnegative Hx Hle) as Hny.
  apply real_value in Hy. apply real_value. split; [exact Hx |].
  apply (le_value Hx Hny) in Hle. lia.
Qed.

Lemma le_refl (x : float) : nonnegative x -> le x x.
Proof. intros Hx. apply (le_value Hx Hx). lia. Qed.

Lemma le_trans (x y z : float) : nonnegative x -> le x y -> le y z -> le x z.
Proof.
  intros Hx Hxy Hyz.
  pose proof (le_nonnegative Hx Hxy) as Hy.
  pose proof (le_nonnegative Hy Hyz) as Hz.
  apply (le_value Hx Hz). apply (le_value Hx Hy) in Hxy. apply (le_value Hy Hz) in Hyz. lia.
Qed.

(** The value of a result. *)
Lemma result_value (z : float) (V : Z) :
  repr (Prim2SF z) V ->
  nonnegative z /\ value z = Z.min V overflow
  /\ (V < overflow -> real_nonnegative z).
Proof.
  intros Hr. destruct (@repr_sval _ _ (Prim2SF_valid z) Hr) as (Hn & Hs & Hf).
  rewrite nonnegative_spec, real_nonnegative_spec.
  split; [exact Hn | split; [exact Hs |]].
  intros HV. split; [exact Hn | now apply Hf].
Qed.

Lemma mul_value (x y : float) :
  real_nonnegative x -> real_nonnegative y ->
  nonnegative (x * y) /\
  value (x * y) = Z.min (rnd (value x * value y) (2 ^ bias)) overflow
  /\ (rnd (value x * value y) (2 ^ bias) < overflow -> real_nonnegative (x * y)).
Proof.
  intros Rx Ry. apply real_nonnegative_spec in Rx, Ry.
  destruct Rx as [Nx Fx], Ry as [Ny Fy].
  apply result_value. rewrite mul_spec.
  apply SFmul_repr; auto using Prim2SF_valid.
Qed.

Lemma add_value (x y : float) :
  real_nonnegative x -> real_nonnegative y ->
  nonnegative (x + y) /\
  value (x + y) = Z.min (rnd (value x + value y) 1) overflow
  /\ (rnd (value x + value y) 1 < overflow -> real_nonnegative (x + y)).
Proof.
  intros Rx Ry. apply real_nonnegative_spec in Rx, Ry.
  destruct Rx as [Nx Fx], Ry as [Ny Fy].
  apply result_value. rewrite add_spec.
  apply SFadd_repr; auto using Prim2SF_valid.
Qed.

Lemma value_rnd (x : float) : real_nonnegative x -> rnd (value x) 1 = value x.
Proof.
  rewrite real_nonnegative_spec. intros [Nx Fx].
  apply rnd_id; auto using Prim2SF_valid.
Qed.

Lemma sub_value (x y : float) :
  real_nonnegative x -> real_nonnegative y -> le y x ->
  real_nonnegative (x - y) /\ value (x - y) = rnd (value x - value y) 1.
Proof.
  intros Rx Ry Hle.
  pose proof (value_rnd Rx) as Hid.
  pose proof (proj1 (real_value x) Rx) as [_ Hlt].
  apply (le_value (real_is_nonnegative Ry) (real_is_nonnegative Rx)) in Hle.
  pose proof (value_nonneg y) as Hy0.
  assert (Hb : rnd (value x - value y) 1 <= value x).
  { rewrite <- Hid at 2. apply rnd_mono; lia. }
  rewrite real_nonnegative_spec in Rx, Ry. destruct Rx as [Nx Fx], Ry as [Ny Fy].
  assert (Hr : repr (Prim2SF (x - y)) (rnd (value x - value y) 1)).
  { rewrite sub_spec. apply SFsub_repr; auto using Prim2SF_valid. }
  destruct (@result_value _ _ Hr) as (_ & Hv & Hf).
  split; [apply Hf; lia | rewrite Hv; lia].
Qed.

Lemma div_value (x y : float) :
  real_nonnegative x -> real_nonnegative y -> 0 < value y ->
  nonnegative (x / y) /\
  value (x / y) = Z.min (rnd (value x * 2 ^ bias) (value y)) overflow
  /\ (rnd (value x * 2 ^ bias) (value y) < overflow -> real_nonnegative (x / y)).
Proof.
  intros Rx Ry Hpos. apply real_nonnegative_spec in Rx, Ry.
  destruct Rx as [Nx Fx], Ry as [Ny Fy].
  apply result_value. rewrite div_spec.
  apply SFdiv_repr; auto using Prim2SF_valid.
Qed.

(** Each operation is monotone on the reals that are not negative. *)

Lemma mul_le (a b c d : float) :
  real_nonnegative a -> real_nonnegative b -> real_nonnegative c -> real_nonnegative d ->
  le a c -> le b d -> le (a * b) (c * d).
Proof.
  intros Ra Rb Rc Rd Hac Hbd.
  destruct (mul_value Ra Rb) as (N1 & V1 & _), (mul_value Rc Rd) as (N2 & V2 & _).
  apply (le_value N1 N2). rewrite V1, V2.
  apply (le_value (real_is_nonnegative Ra) (real_is_nonnegative Rc)) in Hac.
  apply (le_value (real_is_nonnegative Rb) (real_is_nonnegative Rd)) in Hbd.
  pose proof (value_nonneg a). pose proof (value_nonneg b).
  pose proof bias_val as Hb. pose proof (pow2_pos (n := bias) ltac:(lia)).
  assert (value a * value b <= value c * value d) by nia.
  apply Z.min_le_compat_r. apply rnd_mono; nia.
Qed.

Lemma add_le (a b c d : float) :
  real_nonnegative a -> real_nonnegative b -> real_nonnegative c -> real_nonnegative d ->
  le a c -> le b d -> le (a + b) (c + d).
Proof.
  intros Ra Rb Rc Rd Hac Hbd.
  destruct (add_value Ra Rb) as (N1 & V1 & _), (add_value Rc Rd) as (N2 & V2 & _).
  apply (le_value N1 N2). rewrite V1, V2.
  apply (le_value (real_is_nonnegative Ra) (real_is_nonnegative Rc)) in Hac.
  apply (le_value (real_is_nonnegative Rb) (real_is_nonnegative Rd)) in Hbd.
  pose proof (value_nonneg a). pose proof (value_nonneg b).
  apply Z.min_le_compat_r. apply rnd_mono; lia.
Qed.

Lemma sub_le (a b c d : float) :
  real_nonnegative a -> real_nonnegative b -> real_nonnegative c -> real_nonnegative d ->
  le b a -> le a c -> le d b -> le (a - b) (c - d).
Proof.
  intros Ra Rb Rc Rd Hba Hac Hdb.
  assert (Hdc : le d c).
  { apply le_trans with b; [apply Rd | assumption |].
    apply le_trans with a; [apply Rb | assumption | assumption]. }
  destruct (sub_value Ra Rb Hba) as (N1 & V1), (sub_value Rc Rd Hdc) as (N2 & V2).
  apply (le_value (real_is_nonnegative N1) (real_is_nonnegative N2)). rewrite V1, V2.
  apply (le_value (real_is_nonnegative Rb) (real_is_nonnegative Ra)) in Hba.
  apply (le_value (real_is_nonnegative Ra) (real_is_nonnegative Rc)) in Hac.
  apply (le_value (real_is_nonnegative Rd) (real_is_nonnegative Rb)) in Hdb.
  apply rnd_mono; lia.
Qed.

Lemma div_le (a c d : float) :
  real_nonnegative a -> real_nonnegative c -> real_nonnegative d ->
  (0 <? d)%float = true -> le a c -> le (a / d) (c / d).
Proof.
  intros Ra Rc Rd Hpos Hac.
  assert (Hd : 0 < value d).
  { rewrite (ltb_value (le_refl (x := 0%float) eq_refl) (real_is_nonnegative Rd)) in Hpos.
    apply Z.ltb_lt in Hpos. exact Hpos. }
  destruct (div_value Ra Rd Hd) as (N1 & V1 & _), (div_value Rc Rd Hd) as (N2 & V2 & _).
  apply (le_value N1 N2). rewrite V1, V2.
  apply (le_value (real_is_nonnegative Ra) (real_is_nonnegative Rc)) in Hac.
  pose proof (value_nonneg a).
  pose proof bias_val as Hb. pose proof (pow2_pos (n := bias) ltac:(lia)).
  apply Z.min_le_compat_r. apply rnd_mono; try nia.
  apply Z.mul_le_mono_nonneg_r; [lia |].
  apply Z.mul_le_mono_nonneg_r; lia.
Qed.


Lemma is_nan_false (x : float) : is_nan x = false <-> Prim2SF x <> S754_nan.
Proof.
  rewrite <- is_nan_spec. destruct (is_nan x); split; congruence.
Qed.

Lemma nonnegative_not_nan (x : float) : nonnegative x -> is_nan x = false.
Proof.
  rewrite nonnegative_spec, is_nan_false.
  destruct (Prim2SF x); discriminate.
Qed.

Lemma real_intro (x : float) : nonnegative x -> is_finite x = true -> real_nonnegative x.
Proof. intros H1 H2. split; assumption. Qed.

Lemma min_value (a b : float) :
  nonnegative a -> nonnegative b ->
  nonnegative (min a b) /\ value (min a b) = Z.min (value a) (value b).
Proof.
  intros Ha Hb. unfold min.
  rewrite (nonnegative_not_nan Ha), (nonnegative_not_nan Hb). cbn [orb].
  rewrite (ltb_value Ha Hb), (ltb_value Hb Ha).
  destruct (Z.ltb_spec (value a) (value b)); [split; [assumption | lia] |].
  destruct (Z.ltb_spec (value b) (value a)); [split; [assumption | lia] |].
  destruct (get_sign a); (split; [assumption | lia]).
Qed.

Lemma max_value (a b : float) :
  nonnegative a -> nonnegative b ->
  nonnegative (max a b) /\ value (max a b) = Z.max (value a) (value b).
Proof.
  intros Ha Hb. unfold max.
  rewrite (nonnegative_not_nan Ha), (nonnegative_not_nan Hb). cbn [orb].
  rewrite (ltb_value Ha Hb), (ltb_value Hb Ha).
  destruct (Z.ltb_spec (value a) (value b)); [split; [assumption | lia] |].
  destruct (Z.ltb_spec (value b) (value a)); [split; [assumption | lia] |].
  destruct (get_sign a); (split; [assumption | lia]).
Qed.



(** A result is finite only if the operands are. *)
Lemma mul_finite (x y : float) :
  is_finite (x * y) = true -> is_finite x = true /\ is_finite y = true.
Proof.
  rewrite !is_finite_spec, mul_spec.
  destruct (Prim2SF x) as [|[]| |[]]; destruct (Prim2SF y) as [|[]| |[]];
    cbn [SF64mul SFmul finite xorb]; auto.
Qed.

Lemma add_finite (x y : float) :
  is_finite (x + y) = true -> is_finite x = true /\ is_finite y = true.
Proof.
  rewrite !is_finite_spec, add_spec.
  destruct (Prim2SF x) as [[]|[]| |[]]; destruct (Prim2SF y) as [[]|[]| |[]];
    cbn [SF64add SFadd finite]; auto.
Qed.

Lemma div_finite (x y : float) :
  is_finite (x / y) = true -> is_finite x = true.
Proof.
  rewrite !is_finite_spec, div_spec.
  destruct (Prim2SF x) as [|[]| |[]]; destruct (Prim2SF y) as [|[]| |[]];
    cbn [SF64div SFdiv finite xorb]; auto.
Qed.




Lemma is_zero_spec (x : float) :
  PrimFloat.is_zero x = true <-> exists s, Prim2SF x = S754_zero s.
Proof.
  unfold PrimFloat.is_zero. rewrite eqb_spec.
  change (Prim2SF zero) with (S754_zero false). unfold SFeqb.
  destruct (Prim2SF x) as [s|[]| |[] m e]; cbn; split;
    try discriminate; try (intros [s' H]; discriminate); eauto.
Qed.

(** A number times zero is zero, unless it is infinite. *)
Lemma mul_zero_r (x z : float) :
  PrimFloat.is_zero z = true -> is_nan (x * z) = false -> PrimFloat.is_zero (x * z) = true.
Proof.
  rewrite !is_zero_spec, is_nan_false, mul_spec. intros [s ->].
  destruct (Prim2SF x) as [|[]| |[]]; cbn [SF64mul SFmul]; intros H;
    try congruence; eauto.
Qed.

Lemma mul_zero_l (z y : float) :
  PrimFloat.is_zero z = true -> is_nan (z * y) = false -> PrimFloat.is_zero (z * y) = true.
Proof.
  rewrite !is_zero_spec, is_nan_false, mul_spec. intros [s ->].
  destruct (Prim2SF y) as [|[]| |[]]; cbn [SF64mul SFmul]; intros H;
    try congruence; eauto.
Qed.



Lemma value_one : value 1 = 2 ^ bias.
Proof.
  unfold value. change (Prim2SF 1) with (S754_finite false 4503599627370496 (-52)).
  cbn [sval]. pose proof bias_val.
  change (Zpos 4503599627370496) with (2 ^ 52).
  rewrite <- (@pow2_add 52 (-52 + bias)) by lia. f_equal; lia.
Qed.

Lemma add_ge_l (a b : float) :
  real_nonnegative a -> real_nonnegative b -> le a (a + b).
Proof.
  intros Ra Rb. destruct (add_value Ra Rb) as (N & V & _).
  apply (le_value (real_is_nonnegative Ra) N). rewrite V.
  pose proof (proj1 (real_value a) Ra) as [_ Hlt].
  pose proof (value_rnd Ra) as Hid.
  pose proof (value_nonneg a). pose proof (value_nonneg b).
  assert (value a <= rnd (value a + value b) 1).
  { rewrite <- Hid at 1. apply rnd_mono; lia. }
  lia.
Qed.

Lemma add_ge_r (a b : float) :
  real_nonnegative a -> real_nonnegative b -> le b (a + b).
Proof.
  intros Ra Rb. destruct (add_value Ra Rb) as (N & V & _).
  apply (le_value (real_is_nonnegative Rb) N). rewrite V.
  pose proof (proj1 (real_value b) Rb) as [_ Hlt].
  pose proof (value_rnd Rb) as Hid.
  pose proof (value_nonneg a). pose proof (value_nonneg b).
  assert (value b <= rnd (value a + value b) 1).
  { rewrite <- Hid at 1. apply rnd_mono; lia. }
  lia.
Qed.

(** A product with a factor of at most 1 does not grow. *)
Lemma mul_le_one (x c : float) :
  real_nonnegative x -> real_nonnegative c -> le c 1 ->
  real_nonnegative (x * c) /\ le (x * c) x.
Proof.
  intros Rx Rc Hc. destruct (mul_value Rx Rc) as (N & V & F).
  apply (@le_value c 1 (real_is_nonnegative Rc) eq_refl) in Hc.
  rewrite value_one in Hc.
  pose proof (proj1 (real_value x) Rx) as [_ Hlt].
  pose proof (value_rnd Rx) as Hid.
  pose proof (value_nonneg x). pose proof (value_nonneg c).
  pose proof bias_val as Hb. pose proof (pow2_pos (n := bias) ltac:(lia)) as Hp.
  assert (Hr : rnd (value x * value c) (2 ^ bias) <= value x).
  { rewrite <- Hid at 2.
    replace (value x) with (value x * 1) at 2 by lia.
    rewrite <- (@rnd_scale (2 ^ bias) (value x * 1) 1) by lia.
    apply rnd_mono; nia. }
  split.
  - apply F. lia.
  - apply (le_value N (real_is_nonnegative Rx)). rewrite V. lia.
Qed.

(** Bounds carry finiteness along. *)
Lemma add_bound (a b c d : float) :
  real_nonnegative a -> real_nonnegative b -> real_nonnegative c -> real_nonnegative d ->
  le a c -> le b d -> is_finite (c + d) = true ->
  real_nonnegative (a + b) /\ le (a + b) (c + d).
Proof.
  intros Ra Rb Rc Rd Hac Hbd Hf.
  pose proof (add_le Ra Rb Rc Rd Hac Hbd) as Hle.
  destruct (add_value Ra Rb) as (N1 & _), (add_value Rc Rd) as (N2 & _).
  split; [| exact Hle].
  apply le_real with (c + d)%float; [assumption | assumption | now apply real_intro].
Qed.

Lemma mul_bound (a b c d : float) :
  real_nonnegative a -> real_nonnegative b -> real_nonnegative c -> real_nonnegative d ->
  le a c -> le b d -> is_finite (c * d) = true ->
  real_nonnegative (a * b) /\ le (a * b) (c * d).
Proof.
  intros Ra Rb Rc Rd Hac Hbd Hf.
  pose proof (mul_le Ra Rb Rc Rd Hac Hbd) as Hle.
  destruct (mul_value Ra Rb) as (N1 & _), (mul_value Rc Rd) as (N2 & _).
  split; [| exact Hle].
  apply le_real with (c * d)%float; [assumption | assumption | now apply real_intro].
Qed.

Lemma positive_value (d : float) :
  real_nonnegative d -> (0 <? d)%float = true -> 0 < value d.
Proof.
  intros Rd Hpos.
  rewrite (@ltb_value 0%float d eq_refl (real_is_nonnegative Rd)) in Hpos.
  apply Z.ltb_lt in Hpos. exact Hpos.
Qed.

Lemma div_bound (a c d : float) :
  real_nonnegative a -> real_nonnegative c -> real_nonnegative d ->
  (0 <? d)%float = true -> le a c -> is_finite (c / d) = true ->
  real_nonnegative (a / d) /\ le (a / d) (c / d).
Proof.
  intros Ra Rc Rd Hpos Hac Hf.
  pose proof (div_le Ra Rc Rd Hpos Hac) as Hle.
  pose proof (positive_value Rd Hpos) as Hd.
  destruct (div_value Ra Rd Hd) as (N1 & _), (div_value Rc Rd Hd) as (N2 & _).
  split; [| exact Hle].
  apply le_real with (c / d)%float; [assumption | assumption | now apply real_intro].
Qed.

Lemma sub_bound (a b c d : float) :
  real_nonnegative a -> real_nonnegative b -> real_nonnegative c -> real_nonnegative d ->
  le b a -> le a c -> le d b ->
  real_nonnegative (a - b) /\ real_nonnegative (c - d) /\ le (a - b) (c - d).
Proof.
  intros Ra Rb Rc Rd Hba Hac Hdb.
  assert (Hdc : le d c).
  { apply le_trans with b; [apply Rd | assumption |].
    apply le_trans with a; [apply Rb | assumption | assumption]. }
  split; [apply (sub_value Ra Rb Hba) |].
  split; [apply (sub_value Rc Rd Hdc) |].
  now apply sub_le.
Qed.

Lemma min_le (a b b' : float) :
  nonnegative a -> nonnegative b -> nonnegative b' -> le b b' ->
  nonnegative (min a b) /\ le (min a b) (min a b') /\ le (min a b) a
  /\ (forall x, nonnegative x -> le x a -> le x b -> le x (min a b)).
Proof.
  intros Na Nb Nb' Hle.
  destruct (min_value Na Nb) as (N1 & V1), (min_value Na Nb') as (N2 & V2).
  apply (le_value Nb Nb') in Hle.
  split; [exact N1 |]. split; [| split].
  - apply (le_value N1 N2). lia.
  - apply (le_value N1 Na). lia.
  - intros x Nx Hxa Hxb. apply (le_value Nx Na) in Hxa. apply (le_value Nx Nb) in Hxb.
    apply (le_value Nx N1). lia.
Qed.

Lemma max_zero_le (x y : float) :
  real_nonnegative x -> real_nonnegative y -> le x y ->
  real_nonnegative (max 0 x) /\ real_nonnegative (max 0 y) /\ le (max 0 x) (max 0 y).
Proof.
  intros Rx Ry Hle.
  assert (N0 : nonnegative 0%float) by reflexivity.
  destruct (max_value N0 (real_is_nonnegative Rx)) as (N1 & V1).
  destruct (max_value N0 (real_is_nonnegative Ry)) as (N2 & V2).
  apply (le_value (real_is_nonnegative Rx) (real_is_nonnegative Ry)) in Hle.
  pose proof (proj1 (real_value x) Rx) as [_ Hx].
  pose proof (proj1 (real_value y) Ry) as [_ Hy].
  pose proof (value_nonneg x). pose proof (value_nonneg y).
  change (value 0) with 0 in V1, V2.
  split; [apply real_value; split; [assumption | lia] |].
  split; [apply real_value; split; [assumption | lia] |].
  apply (le_value N1 N2). lia.
Qed.






Lemma zero_not_nan (x : float) : PrimFloat.is_zero x = true -> is_nan x = false.
Proof.
  rewrite is_zero_spec, is_nan_false. intros [s ->]. discriminate.
Qed.

Lemma zero_nonnegative (x : float) : PrimFloat.is_zero x = true -> nonnegative x.
Proof.
  rewrite is_zero_spec, nonnegative_spec. intros [s ->]. reflexivity.
Qed.

Lemma eqb_refl (x : float) : is_nan x = false -> (x =? x)%float = true.
Proof.
  unfold is_nan. destruct (x =? x)%float; [reflexivity | discriminate].
Qed.

Lemma eqb_nan (x y : float) : is_nan x = true -> (x =? y)%float = false.
Proof.
  rewrite is_nan_spec, eqb_spec. intros ->. reflexivity.
Qed.











End Binary64Facts.


(** In exact arithmetic the order of the operations does not matter: there
    [calculateROI] returns the result of the nine steps as they are worded. *)
Remark calculateROI_exact (d : ROIInput Q) :
  ROIResult_eq (RoiCalculator.calculateROI d) (Spec.compute d).
Proof.
  destruct d as [n s r l a e].
  q_norm. repeat split; try reflexivity; ring.
Qed.


(** ** The estimator in binary64 *)

Section Binary64Estimator.
Import Binary64 Binary64Facts.
Local Open Scope float_scope.

Local Abbreviation lit64 := (@lit float Binary64.number).
Local Abbreviation calculateROI64 := (@RoiCalculator.calculateROI float Binary64.number).
Local Abbreviation cost64 := (@Spec.disengagementCost float Binary64.number).
Local Abbreviation capped64 := (@Spec.cappedRevenueIncrease float Binary64.number).

Lemma real_literals :
  real_nonnegative (lit64 0) /\ real_nonnegative (lit64 1) /\ real_nonnegative (lit64 2)
  /\ real_nonnegative (lit64 10) /\ real_nonnegative (lit64 250)
  /\ real_nonnegative (lit64 0.34) /\ real_nonnegative (lit64 1.25)
  /\ real_nonnegative (lit64 0.02) /\ real_nonnegative (lit64 0.05).
Proof. repeat split; vm_compute; reflexivity. Qed.

Lemma real_of_range (x lo hi : float) :
  nonnegative lo -> le lo x -> le x hi -> real_nonnegative hi -> real_nonnegative x.
Proof.
  intros Nlo H1 H2 Rhi.
  apply le_real with hi; [| assumption | assumption].
  now apply le_nonnegative with lo.
Qed.

(** The disengagement factor [(10 - score) / 10] does not grow with the
    score, for scores up to 10. *)
Lemma factor_antitone (x y : float) :
  nonnegative x -> le x y -> le y 10 ->
  real_nonnegative ((10 - x) / 10) /\ real_nonnegative ((10 - y) / 10)
  /\ le ((10 - y) / 10) ((10 - x) / 10).
Proof.
  intros Nx Hxy Hy.
  assert (R10 : real_nonnegative 10) by (split; reflexivity).
  assert (R0 : real_nonnegative 0) by (split; reflexivity).
  assert (Ny : nonnegative y) by now apply le_nonnegative with x.
  assert (Ry : real_nonnegative y) by now apply le_real with 10.
  assert (Hx : le x 10) by now apply le_trans with y.
  assert (Rx : real_nonnegative x) by now apply le_real with 10.
  destruct (@sub_bound 10 y 10 x R10 Ry R10 Rx Hy (le_refl (proj1 R10)) Hxy)
    as (Rsy & Rsx & Hs).
  destruct (@sub_bound 10 x 10 0 R10 Rx R10 R0 Hx (le_refl (proj1 R10)) Nx)
    as (_ & _ & Hs0).
  change (10 - 0) with 10 in Hs0.
  destruct (@div_bound (10 - x) 10 10 Rsx R10 R10 eq_refl Hs0 eq_refl) as (Rfx & _).
  destruct (@div_bound (10 - y) (10 - x) 10 Rsy Rsx R10 eq_refl Hs (proj2 Rfx))
    as (Rfy & Hf).
  repeat split; try apply Rfx; try apply Rfy; exact Hf.
Qed.

(** The disengagement cost (steps 2 to 5) does not grow with the score, as
    long as it does not overflow. *)
Lemma disengagementCost_antitone (n s a x y : float) :
  real_nonnegative n -> real_nonnegative s -> real_nonnegative a ->
  nonnegative x -> le x y -> le y 10 ->
  is_finite (cost64 n s a x) = true ->
  real_nonnegative (cost64 n s a x) /\ real_nonnegative (cost64 n s a y)
  /\ le (cost64 n s a y) (cost64 n s a x).
Proof.
  intros Rn Rs Ra Nx Hxy Hy Hfin.
  destruct real_literals as (_ & _ & _ & _ & R250 & R34 & _).
  destruct (factor_antitone Nx Hxy Hy) as (Rfx & Rfy & Hf).
  unfold Spec.disengagementCost in *. cbv zeta in *.
  cbn [js_add js_sub js_mul js_div Binary64.number] in *.
  change (lit64 10) with 10 in *.
  set (fx := (10 - x) / 10) in *. set (fy := (10 - y) / 10) in *.
  set (c34 := lit64 0.34) in *. set (c250 := lit64 250) in *.
  destruct (add_finite _ _ Hfin) as (Fp & Fb).
  destruct (mul_finite _ _ Fp) as (Fp1 & _).
  destruct (mul_finite _ _ Fp1) as (Fk1 & _).
  destruct (mul_finite _ _ Fb) as (Fk2 & _).
  destruct (mul_finite _ _ Fk2) as (Fna & Fads).
  assert (Rk1 : real_nonnegative (n * s))
    by (apply real_intro; [exact (proj1 (mul_value Rn Rs)) | assumption]).
  assert (Rna : real_nonnegative (n * a))
    by (apply real_intro; [exact (proj1 (mul_value Rn Ra)) | assumption]).
  assert (Rads : real_nonnegative (s / c250)).
  { apply real_intro; [| assumption].
    exact (proj1 (div_value Rs R250 (positive_value R250 eq_refl))). }
  assert (Rk2 : real_nonnegative (n * a * (s / c250)))
    by (apply real_intro; [exact (proj1 (mul_value Rna Rads)) | assumption]).
  assert (Rp1 : real_nonnegative (n * s * fx))
    by (apply real_intro; [exact (proj1 (mul_value Rk1 Rfx)) | assumption]).
  assert (Rp : real_nonnegative (n * s * fx * c34))
    by (apply real_intro; [exact (proj1 (mul_value Rp1 R34)) | assumption]).
  assert (Rb : real_nonnegative (n * a * (s / c250) * fx))
    by (apply real_intro; [exact (proj1 (mul_value Rk2 Rfx)) | assumption]).
  assert (Rc : real_nonnegative (n * s * fx * c34 + n * a * (s / c250) * fx))
    by (apply real_intro; [exact (proj1 (add_value Rp Rb)) | assumption]).
  destruct (mul_bound Rk1 Rfy Rk1 Rfx (le_refl (proj1 Rk1)) Hf Fp1) as (Rq1 & Hq1).
  destruct (mul_bound Rq1 R34 Rp1 R34 Hq1 (le_refl (proj1 R34)) Fp) as (Rq & Hq).
  destruct (mul_bound Rk2 Rfy Rk2 Rfx (le_refl (proj1 Rk2)) Hf Fb) as (Rd & Hd).
  destruct (add_bound Rq Rd Rp Rb Hq Hd Hfin) as (Rcy & Hc).
  repeat split; try apply Rc; try apply Rcy; exact Hc.
Qed.

Lemma valid_binary64_real (d : ROIInput float) :
  Spec.valid_binary64 d ->
  real_nonnegative (numEmployees d) /\ real_nonnegative (avgAnnualSalary d)
  /\ real_nonnegative (annualRevenue d) /\ real_nonnegative (employeesWhoLeft d)
  /\ real_nonnegative (avgExtraAbsenteeismDaysPerEmployee d)
  /\ real_nonnegative (engagementScore d).
Proof.
  intros (Hn1 & Hnf & Rs & Rr & Hl0 & Hln & Ra & He1 & He10).
  assert (N1 : nonnegative 1) by reflexivity.
  assert (R10 : real_nonnegative 10) by (split; reflexivity).
  assert (Rn : real_nonnegative (numEmployees d)).
  { apply real_intro; [| assumption]. now apply le_nonnegative with 1. }
  repeat split; try apply Rn; try apply Rs; try apply Rr; try apply Ra; try assumption.
  - apply (le_real Hl0 Hln Rn).
  - now apply le_nonnegative with 1.
  - apply (@real_of_range (engagementScore d) 1 10 N1 He1 He10 R10).
Qed.

(** The improved scores of step 7: [e <= min(10, e+1) <= min(10, e+2) <= 10]. *)
Lemma improved_scores (e : float) :
  le 1 e -> le e 10 ->
  let i1 := min 10 (e + 1) in
  let i2 := min 10 (e + 2) in
  nonnegative e /\ le e i1 /\ nonnegative i1 /\ le i1 i2 /\ le i2 10.
Proof.
  intros He1 He10 i1 i2.
  assert (N1 : nonnegative 1) by reflexivity.
  assert (R1 : real_nonnegative 1) by (split; reflexivity).
  assert (R2 : real_nonnegative 2) by (split; reflexivity).
  assert (R10 : real_nonnegative 10) by (split; reflexivity).
  assert (Ne : nonnegative e) by now apply le_nonnegative with 1.
  assert (Re : real_nonnegative e) by now apply le_real with 10.
  destruct (@add_bound e 2 10 2 Re R2 R10 R2 He10 (le_refl (proj1 R2)) eq_refl)
    as (Re2 & _).
  destruct (@add_bound e 1 e 2 Re R1 Re R2 (le_refl Ne) eq_refl (proj2 Re2))
    as (Re1 & H12).
  destruct (@min_le 10 (e + 1) (e + 2) (proj1 R10) (proj1 Re1) (proj1 Re2) H12)
    as (Ni1 & Hi & _ & Hg).
  destruct (@min_le 10 (e + 2) (e + 2) (proj1 R10) (proj1 Re2) (proj1 Re2)
              (le_refl (proj1 Re2))) as (_ & _ & Hi2 & _).
  repeat split; try assumption.
  apply Hg; [assumption | assumption | now apply add_ge_l].
Qed.

(** The absenteeism cost is a real number that is not negative, and a part
    of the disengagement cost. *)
Lemma absenteeismCost_part (n s a x : float) :
  real_nonnegative n -> real_nonnegative s -> real_nonnegative a ->
  nonnegative x -> le x 10 ->
  is_finite (cost64 n s a x) = true ->
  real_nonnegative (n * a * (s / 250) * ((10 - x) / 10))
  /\ le (n * a * (s / 250) * ((10 - x) / 10)) (cost64 n s a x).
Proof.
  intros Rn Rs Ra Nx Hx Hfin.
  destruct real_literals as (_ & _ & _ & _ & R250 & R34 & _).
  destruct (factor_antitone Nx (le_refl Nx) Hx) as (Rfx & _).
  unfold Spec.disengagementCost in *. cbv zeta in *.
  cbn [js_add js_sub js_mul js_div Binary64.number] in *.
  change (lit64 10) with 10 in *. change (lit64 250) with 250 in *.
  set (fx := (10 - x) / 10) in *. set (c34 := lit64 0.34) in *.
  destruct (add_finite _ _ Hfin) as (Fp & Fb).
  destruct (mul_finite _ _ Fp) as (Fp1 & _).
  destruct (mul_finite _ _ Fp1) as (Fk1 & _).
  destruct (mul_finite _ _ Fb) as (Fk2 & _).
  destruct (mul_finite _ _ Fk2) as (Fna & Fads).
  assert (Rk1 : real_nonnegative (n * s))
    by (apply real_intro; [exact (proj1 (mul_value Rn Rs)) | assumption]).
  assert (Rna : real_nonnegative (n * a))
    by (apply real_intro; [exact (proj1 (mul_value Rn Ra)) | assumption]).
  assert (Rads : real_nonnegative (s / 250)).
  { apply real_intro; [| assumption].
    exact (proj1 (div_value Rs R250 (positive_value R250 eq_refl))). }
  assert (Rk2 : real_nonnegative (n * a * (s / 250)))
    by (apply real_intro; [exact (proj1 (mul_value Rna Rads)) | assumption]).
  assert (Rp1 : real_nonnegative (n * s * fx))
    by (apply real_intro; [exact (proj1 (mul_value Rk1 Rfx)) | assumption]).
  assert (Rp : real_nonnegative (n * s * fx * c34))
    by (apply real_intro; [exact (proj1 (mul_value Rp1 R34)) | assumption]).
  assert (Rb : real_nonnegative (n * a * (s / 250) * fx))
    by (apply real_intro; [exact (proj1 (mul_value Rk2 Rfx)) | assumption]).
  split; [exact Rb | now apply add_ge_r].
Qed.

(** The turnover cost is not negative. *)
Lemma turnoverCost_real (l s : float) :
  real_nonnegative l -> real_nonnegative s ->
  is_finite (l * (s * lit64 1.25)) = true ->
  real_nonnegative (l * (s * lit64 1.25)).
Proof.
  intros Rl Rs Ft.
  destruct real_literals as (_ & _ & _ & _ & _ & _ & R125 & _).
  destruct (mul_finite _ _ Ft) as (_ & F1).
  assert (R1 : real_nonnegative (s * lit64 1.25))
    by (apply real_intro; [exact (proj1 (mul_value Rs R125)) | assumption]).
  apply real_intro; [exact (proj1 (mul_value Rl R1)) | assumption].
Qed.

(** The factors [(score + 1) / 10] and [(score + 2) / 10] of lines 186 and
    187 grow with the score. *)
Lemma revenue_factor_monotone (x y delta : float) :
  nonnegative x -> le x y -> le y 10 -> real_nonnegative delta -> le delta 2 ->
  real_nonnegative ((x + delta) / 10) /\ real_nonnegative ((y + delta) / 10)
  /\ le ((x + delta) / 10) ((y + delta) / 10).
Proof.
  intros Nx Hxy Hy Rd Hd.
  assert (R10 : real_nonnegative 10) by (split; reflexivity).
  assert (R2 : real_nonnegative 2) by (split; reflexivity).
  assert (Ny : nonnegative y) by now apply le_nonnegative with x.
  assert (Ry : real_nonnegative y) by now apply le_real with 10.
  assert (Rx : real_nonnegative x) by now apply le_real with y.
  destruct (@add_bound y delta 10 2 Ry Rd R10 R2 Hy Hd eq_refl) as (Ryd & Hb).
  destruct (@add_bound x delta y delta Rx Rd Ry Rd Hxy (le_refl (proj1 Rd)) (proj2 Ryd))
    as (Rxd & Hxd).
  destruct (@div_bound (y + delta) (10 + 2) 10 Ryd (conj eq_refl eq_refl) R10
              eq_refl Hb eq_refl) as (Rqy & _).
  destruct (@div_bound (x + delta) (y + delta) 10 Rxd Ryd R10 eq_refl Hxd (proj2 Rqy))
    as (Rqx & Hq).
  repeat split; try apply Rqx; try apply Rqy; exact Hq.
Qed.

(** The savings of step 7, when the disengagement cost has not overflowed. *)
Lemma savings_real (n s a e : float) :
  real_nonnegative n -> real_nonnegative s -> real_nonnegative a ->
  le 1 e -> le e 10 ->
  is_finite (cost64 n s a e) = true ->
  let saving delta := max 0 (cost64 n s a e - cost64 n s a (min 10 (e + delta))) in
  real_nonnegative (saving 1) /\ real_nonnegative (saving 2)
  /\ le (saving 1) (saving 2).
Proof.
  intros Rn Rs Ra He1 He10 Hfin saving. unfold saving.
  destruct (improved_scores He1 He10) as (Ne & He & Ni1 & H12 & Hi2).
  cbv zeta in *.
  set (i1 := min 10 (e + 1)) in *. set (i2 := min 10 (e + 2)) in *.
  assert (Hi1 : le i1 10) by now apply le_trans with i2.
  destruct (disengagementCost_antitone Rn Rs Ra Ne He Hi1 Hfin) as (Rc & Rc1 & Hc1).
  destruct (disengagementCost_antitone Rn Rs Ra Ni1 H12 Hi2 (proj2 Rc1))
    as (_ & Rc2 & Hc2).
  destruct (sub_bound Rc Rc1 Rc Rc2 Hc1 (le_refl (proj1 Rc)) Hc2) as (Rs1 & Rs2 & Hs).
  exact (max_zero_le Rs1 Rs2 Hs).
Qed.



(** C6: on every valid input the smaller revenue increase is at most the
    larger one, in binary64: each of the operations of lines 186 and 187 is
    monotone under rounding, and none of the intermediate values
    overflows. *)
Theorem potentialRevenueIncrease_ordered (d : ROIInput float) :
  Spec.valid_binary64 d ->
  le (potentialRevenueIncreaseMin (calculateROI64 d))
     (potentialRevenueIncreaseMax (calculateROI64 d)).
Proof.
  intros Hv. destruct (valid_binary64_real Hv) as (_ & _ & Rr & _ & _ & Re).
  destruct Hv as (_ & _ & _ & _ & _ & _ & _ & He1 & He10).
  destruct d as [n s r l a e].
  cbn [numEmployees avgAnnualSalary annualRevenue employeesWhoLeft
       avgExtraAbsenteeismDaysPerEmployee engagementScore] in *.
  destruct real_literals as (_ & R1 & R2 & R10 & _ & _ & _ & R02 & R05).
  change (le (r * lit64 0.02 * ((e + lit64 1) / lit64 10))
             (r * lit64 0.05 * ((e + lit64 2) / lit64 10))).
  destruct (@add_bound e (lit64 2) (lit64 10) (lit64 2) Re R2 R10 R2 He10
              (le_refl (proj1 R2)) eq_refl) as (Re2 & Hb2).
  destruct (@add_bound e (lit64 1) e (lit64 2) Re R1 Re R2 (le_refl (proj1 Re))
              eq_refl (proj2 Re2)) as (Re1 & H12).
  destruct (@div_bound (e + lit64 2) (lit64 10 + lit64 2) (lit64 10) Re2
              (conj eq_refl eq_refl) R10 eq_refl Hb2 eq_refl) as (Rq2 & _).
  destruct (@div_bound (e + lit64 1) (e + lit64 2) (lit64 10) Re1 Re2 R10 eq_refl
              H12 (proj2 Rq2)) as (Rq1 & Hq).
  destruct (@mul_le_one r (lit64 0.02) Rr R02 eq_refl) as (Ra1 & _).
  destruct (@mul_le_one r (lit64 0.05) Rr R05 eq_refl) as (Ra2 & _).
  apply mul_le; try assumption.
  apply mul_le; try assumption; [apply le_refl, Rr | reflexivity].
Qed.

Lemma potentialRevenueIncrease_ordered_witness :
  let d := example_input Binary64.literal in
  Spec.valid_binary64 d
  /\ le (potentialRevenueIncreaseMin (calculateROI64 d))
        (potentialRevenueIncreaseMax (calculateROI64 d)).
Proof.
  intros d.
  assert (Hv : Spec.valid_binary64 d) by (repeat split; vm_compute; reflexivity).
  exact (conj Hv (potentialRevenueIncrease_ordered Hv)).
Defined.







(** C7, corrected: the hidden loss is the binary64 sum of the turnover cost
    and the disengagement cost (line 168), on every input.  The comparison
    [==] of the specification holds exactly when that sum is not NaN, and
    it is not NaN on a valid input on which neither cost overflows. *)
Theorem totalHiddenLoss_is_sum (d : ROIInput float) :
  let r := calculateROI64 d in
  totalHiddenLoss r = totalTurnoverCost r + totalDisengagementCost r
  /\ (is_nan (totalHiddenLoss r) = false ->
      (totalHiddenLoss r =? totalTurnoverCost r + totalDisengagementCost r) = true)
  /\ (is_nan (totalHiddenLoss r) = true ->
      (totalHiddenLoss r =? totalTurnoverCost r + totalDisengagementCost r) = false)
  /\ (Spec.valid_binary64 d ->
      is_finite (totalTurnoverCost r) = true ->
      is_finite (totalDisengagementCost r) = true ->
      (totalHiddenLoss r =? totalTurnoverCost r + totalDisengagementCost r) = true).
Proof.
  intros r.
  assert (E : totalHiddenLoss r = totalTurnoverCost r + totalDisengagementCost r)
    by reflexivity.
  split; [exact E |]. rewrite <- E. split; [apply eqb_refl |]. split; [apply eqb_nan |].
  intros Hv Ft Fc. apply eqb_refl. rewrite E. apply nonnegative_not_nan.
  destruct (valid_binary64_real Hv) as (Rn & Rs & _ & Rl & Ra & Re).
  destruct Hv as (_ & _ & _ & _ & _ & _ & _ & He1 & He10).
  destruct d as [n s v l a e].
  cbn [numEmployees avgAnnualSalary annualRevenue employeesWhoLeft
       avgExtraAbsenteeismDaysPerEmployee engagementScore] in *.
  destruct real_literals as (_ & _ & _ & _ & _ & _ & R125 & _).
  change (totalDisengagementCost r) with (cost64 n s a e) in *.
  change (totalTurnoverCost r) with (l * (s * lit64 1.25)) in *.
  destruct (disengagementCost_antitone Rn Rs Ra (proj1 Re) (le_refl (proj1 Re)) He10 Fc)
    as (Rc & _).
  destruct (mul_finite _ _ Ft) as (_ & F1).
  assert (R1 : real_nonnegative (s * lit64 1.25))
    by (apply real_intro; [exact (proj1 (mul_value Rs R125)) | assumption]).
  assert (Rt : real_nonnegative (l * (s * lit64 1.25)))
    by (apply real_intro; [exact (proj1 (mul_value Rl R1)) | assumption]).
  exact (proj1 (add_value Rt Rc)).
Qed.

Lemma totalHiddenLoss_is_sum_witness :
  let d := example_input Binary64.literal in
  let r := calculateROI64 d in
  Spec.valid_binary64 d
  /\ (totalHiddenLoss r =? totalTurnoverCost r + totalDisengagementCost r) = true.
Proof.
  intros d r.
  assert (Hv : Spec.valid_binary64 d) by (repeat split; vm_compute; reflexivity).
  exact (conj Hv (proj2 (proj2 (proj2 (totalHiddenLoss_is_sum d))) Hv eq_refl eq_refl)).
Defined.

(** C7 as claimed fails in the arithmetic of the code: on this valid input
    [avgAnnualSalary * 1.25] is [Infinity], the turnover cost
    [0 * Infinity] is NaN, so is the hidden loss, and NaN is not [==] to
    anything. *)
Lemma totalHiddenLoss_not_a_number :
  let d := {| numEmployees := 100; avgAnnualSalary := 0x1.cp+1023;
              annualRevenue := 50000000; employeesWhoLeft := 0;
              avgExtraAbsenteeismDaysPerEmployee := 5; engagementScore := 6 |} in
  let r := calculateROI64 d in
  Spec.valid_binary64 d
  /\ is_nan (totalTurnoverCost r) = true
  /\ is_nan (totalHiddenLoss r) = true
  /\ (totalHiddenLoss r =? totalTurnoverCost r + totalDisengagementCost r) = false.
Proof.
  intros d r. repeat split; vm_compute; reflexivity.
Qed.

End Binary64Estimator.

Local Open Scope Q_scope.

(** ** The handler *)

Lemma missing_is_falsy : ToBoolean VUndefined = false.
Proof. reflexivity. Qed.

Lemma zero_is_falsy (q : Q) : q == 0 -> ToBoolean (VNumber (Finite q)) = false.
Proof. intros Hq. simpl. now rewrite (Qeq_eq_bool _ _ Hq). Qed.

(** On two finite numbers [>] and [<] are the order of the rationals. *)
Lemma js_lt_numbers (a b : Q) :
  js_lt (VNumber (Finite a)) (VNumber (Finite b)) = true <-> a < b.
Proof.
  simpl. rewrite negb_true_iff, <- not_true_iff_false, Qle_bool_iff.
  split; [apply Qnot_le_lt | apply Qlt_not_le].
Qed.

Lemma js_gt_numbers (a b : Q) :
  js_gt (VNumber (Finite a)) (VNumber (Finite b)) = true <-> b < a.
Proof. apply js_lt_numbers. Qed.

(** A comparison with a missing field is false. *)
Lemma js_lt_missing (v : value) : js_lt VUndefined v = false /\ js_gt VUndefined v = false.
Proof. destruct v as [| |[]|[]|u []]; split; reflexivity. Qed.

(** The handler reaches [calculateROI] exactly when the three [if]s of lines
    216 to 226 are not taken, and then with the six fields of the body. *)
Lemma handler_calls (body : RequestBody) (data : ROIInput value) :
  handler body = CallCalculateROI data <->
  required_fields_missing body = false
  /\ js_gt (employeesWhoLeft (roi body)) (numEmployees (roi body)) = false
  /\ js_lt (engagementScore (roi body)) (VNumber (Finite 1)) = false
  /\ js_gt (engagementScore (roi body)) (VNumber (Finite 10)) = false
  /\ data = roi body.
Proof.
  unfold handler. destruct body as [[n s r l a e] m p]. cbn [roi numEmployees
    avgAnnualSalary annualRevenue employeesWhoLeft avgExtraAbsenteeismDaysPerEmployee
    engagementScore].
  destruct (required_fields_missing _); [split; [discriminate | intros [? _]; discriminate] |].
  destruct (js_gt l n); [split; [discriminate | intros (_ & ? & _); discriminate] |].
  destruct (js_lt e _); [split; [discriminate | intros (_ & _ & ? & _); discriminate] |].
  destruct (js_gt e _); [split; [discriminate | intros (_ & _ & _ & ? & _); discriminate] |].
  simpl. split.
  - intros [= <-]. auto.
  - intros (_ & _ & _ & _ & ->). reflexivity.
Qed.

(** Otherwise it answers 400. *)
Lemma handler_responds (body : RequestBody) :
  (exists error, handler body = Respond 400 error)
  \/ handler body = CallCalculateROI (roi body).
Proof.
  destruct (handler body) as [st msg | data] eqn:E.
  - left. exists msg. unfold handler in E.
    repeat match type of E with
    | (if ?c then _ else _) = _ => destruct c
    end; inversion E; reflexivity.
  - right. apply handler_calls in E. now destruct E as (_ & _ & _ & _ & ->).
Qed.

(** C3 fails in the code: a request in which
    [avgExtraAbsenteeismDaysPerEmployee] is missing, and that is otherwise
    the example of section 8, passes the three checks, is not answered 400
    and reaches [calculateROI], which computes NaN for the absenteeism cost
    and for all that depends on it. *)
Lemma missing_field_reaches_calculateROI :
  avgExtraAbsenteeismDaysPerEmployee (roi body_without_absenteeism) = VUndefined
  /\ handler body_without_absenteeism
     = CallCalculateROI (roi body_without_absenteeism)
  /\ (forall error, handler body_without_absenteeism <> Respond 400 error)
  /\ (let r := RoiCalculator.calculateROI (H := Binary64.number)
                 (ROIInput_map field_number (roi body_without_absenteeism)) in
      PrimFloat.is_nan (totalAbsenteeismCost r) = true
      /\ PrimFloat.is_nan (totalDisengagementCost r) = true
      /\ PrimFloat.is_nan (totalHiddenLoss r) = true
      /\ PrimFloat.is_nan (potentialSavingsMin r) = true
      /\ PrimFloat.is_nan (potentialSavingsMax r) = true).
Proof.
  split; [reflexivity | split; [reflexivity | split; [discriminate |]]].
  repeat split; vm_compute; reflexivity.
Qed.

(** So does a request in which [engagementScore] is missing: both
    comparisons of line 224 are false on [undefined]. *)
Remark missing_score_reaches_calculateROI :
  engagementScore (roi body_without_score) = VUndefined
  /\ handler body_without_score = CallCalculateROI (roi body_without_score).
Proof.
  split; reflexivity.
Qed.

(** C10: a request whose [numEmployees], [avgAnnualSalary] or [annualRevenue]
    is the number 0 is answered with status 400 and the message of line 217 and
    does not reach [calculateROI].  On every request the condition of line
    216 is the same whatever [employeesWhoLeft],
    [avgExtraAbsenteeismDaysPerEmployee] and [engagementScore] are, and every
    request that passes it still reaches [calculateROI] when these three
    fields are removed from it: nothing checks their presence. *)
Theorem zero_is_rejected :
  (forall (body : RequestBody) (q : Q),
     q == 0 ->
     numEmployees (roi body) = VNumber (Finite q)
     \/ avgAnnualSalary (roi body) = VNumber (Finite q)
     \/ annualRevenue (roi body) = VNumber (Finite q) ->
     handler body = Respond 400 "All required fields must be provided"
     /\ (forall data, handler body <> CallCalculateROI data))
  /\ (forall (body : RequestBody) (v1 v2 v3 : value),
        required_fields_missing (with_unchecked_fields v1 v2 v3 body)
        = required_fields_missing body)
  /\ (forall body : RequestBody,
        required_fields_missing body = false ->
        handler (with_unchecked_fields VUndefined VUndefined VUndefined body)
        = CallCalculateROI
            (roi (with_unchecked_fields VUndefined VUndefined VUndefined body))).
Proof.
  split; [| split].
  - intros body q Hq Hf.
    assert (Hreq : required_fields_missing body = true).
    { unfold required_fields_missing.
      destruct Hf as [-> | [-> | ->]]; rewrite (zero_is_falsy Hq); simpl;
        rewrite ?orb_true_r; reflexivity. }
    assert (Hh : handler body = Respond 400 "All required fields must be provided")
      by (unfold handler; now rewrite Hreq).
    split; [exact Hh |].
    intros data Hc. rewrite Hh in Hc. discriminate.
  - reflexivity.
  - intros body Hreq. apply handler_calls.
    split; [exact Hreq |].
    cbn [roi with_unchecked_fields employeesWhoLeft engagementScore numEmployees].
    split; [apply js_lt_missing |]. split; [apply js_lt_missing |].
    split; [apply js_lt_missing | reflexivity].
Qed.

Lemma zero_is_rejected_witness :
  let d := {| numEmployees := 100; avgAnnualSalary := 0;
              annualRevenue := 50000000; employeesWhoLeft := 10;
              avgExtraAbsenteeismDaysPerEmployee := 5; engagementScore := 6 |} in
  Spec.valid d
  /\ handler (numeric_body d example_email example_phone)
     = Respond 400 "All required fields must be provided".
Proof.
  intros d.
  assert (Hv : Spec.valid d) by (apply validb_spec; reflexivity).
  split; [exact Hv |].
  refine (proj1 (proj1 zero_is_rejected (numeric_body d example_email example_phone) 0 _ _)).
  - reflexivity.
  - right; left; reflexivity.
Defined.

(** The three fields that line 216 does not name may all be missing: the
    request still reaches [calculateROI]. *)
Lemma unchecked_fields_may_be_missing :
  handler (with_unchecked_fields VUndefined VUndefined VUndefined
             (numeric_body (example_input (fun q => q)) example_email example_phone))
  = CallCalculateROI
      (roi (with_unchecked_fields VUndefined VUndefined VUndefined
              (numeric_body (example_input (fun q => q)) example_email example_phone))).
Proof. reflexivity. Qed.

(** A request with the numbers of a valid input, a positive salary and
    revenue and non-empty contact fields reaches [calculateROI] with these
    numbers. *)
Lemma valid_request_reaches_calculateROI (d : ROIInput Q) (mail phone : value) :
  Spec.valid d -> 0 < avgAnnualSalary d -> 0 < annualRevenue d ->
  ToBoolean mail = true -> ToBoolean phone = true ->
  handler (numeric_body d mail phone)
  = CallCalculateROI (ROIInput_map (fun q => VNumber (Finite q)) d).
Proof.
  intros (Hn & _ & _ & [_ Hl] & _ & [He1 He10]) Hs Hr Hm Hp.
  apply handler_calls. destruct d as [n s r l a e]. cbn in *.
  unfold required_fields_missing. cbn. rewrite Hm, Hp.
  assert (Hnz : forall x, 0 < x -> Qeq_bool x 0 = false).
  { intros x Hx. apply not_true_iff_false. rewrite Qeq_bool_iff. lra. }
  rewrite (Hnz n), (Hnz s), (Hnz r) by lra. cbn.
  assert (Hle : forall x y, x <= y -> Qle_bool x y = true)
    by (intros; now apply Qle_bool_iff).
  unfold js_gt, js_lt. cbn. rewrite !Hle by assumption. repeat split.
Qed.

(** * Further properties of the sources *)

Local Close Scope Q_scope.

(** ** The patterns *)

Module RegExpFacts.
Import RegExp.

Lemma cat_inv (r1 r2 : regex) (s : list N) :
  matches (Cat r1 r2) s -> exists s1 s2, s = s1 ++ s2 /\ matches r1 s1 /\ matches r2 s2.
Proof. intros H. inversion H; subst. eauto. Qed.

Lemma alt_inv (r1 r2 : regex) (s : list N) :
  matches (Alt r1 r2) s -> matches r1 s \/ matches r2 s.
Proof. intros H. inversion H; subst; auto. Qed.

Lemma class_inv (p : N -> bool) (s : list N) :
  matches (Class p) s -> exists c, s = [c] /\ p c = true.
Proof. intros H. inversion H; subst. eauto. Qed.

Lemma epsilon_inv (s : list N) : matches Epsilon s -> s = [].
Proof. intros H. now inversion H. Qed.

Lemma nullable_matches (r : regex) : nullable r = true <-> matches r [].
Proof.
  induction r as [| p | r1 IH1 r2 IH2 | r1 IH1 r2 IH2 | r IH]; simpl.
  - split; [constructor | reflexivity].
  - split; [discriminate | intros H; inversion H].
  - rewrite andb_true_iff, IH1, IH2. split.
    + intros [H1 H2]. exact (matches_cat H1 H2).
    + intros H. apply cat_inv in H. destruct H as (s1 & s2 & E & H1 & H2).
      symmetry in E. apply app_eq_nil in E. destruct E; subst. now split.
  - rewrite orb_true_iff, IH1, IH2. split.
    + intros [H | H]; [now apply matches_alt_l | now apply matches_alt_r].
    + intros H. inversion H; subst; auto.
  - split; [constructor | reflexivity].
Qed.

(** A non-empty match of [r*] starts with a non-empty match of [r]. *)
Lemma star_head (r : regex) (s : list N) :
  matches (Star r) s -> s <> [] ->
  exists c s1 s2, s = (c :: s1) ++ s2 /\ matches r (c :: s1) /\ matches (Star r) s2.
Proof.
  intros H. remember (Star r) as q eqn:Eq.
  induction H as [| | | | | | r' s1 s2 H1 _ H2 IH2]; try discriminate.
  - intros Hn. now contradiction Hn.
  - injection Eq as ->. intros Hn. destruct s1 as [| c s1].
    + apply IH2; [reflexivity | exact Hn].
    + exists c, s1, s2. auto.
Qed.

Lemma lang_cat' (a : option regex) (r : regex) (s : list N) :
  lang (cat' a r) s <-> exists s1 s2, s = s1 ++ s2 /\ lang a s1 /\ matches r s2.
Proof.
  destruct a as [a |]; simpl.
  - split.
    + intros H. inversion H; subst. eauto.
    + intros (s1 & s2 & -> & H1 & H2). now constructor.
  - split; [contradiction | intros (? & ? & _ & [] & _)].
Qed.

Lemma lang_alt' (a b : option regex) (s : list N) :
  lang (alt' a b) s <-> lang a s \/ lang b s.
Proof.
  destruct a as [a |], b as [b |]; simpl; try tauto.
  split.
  - intros H. inversion H; subst; auto.
  - intros [H | H]; [now apply matches_alt_l | now apply matches_alt_r].
Qed.

Lemma after_matches (r : regex) (c : N) (s : list N) :
  lang (after c r) s <-> matches r (c :: s).
Proof.
  revert s. induction r as [| p | r1 IH1 r2 IH2 | r1 IH1 r2 IH2 | r IH]; intros s; simpl.
  - split; [contradiction | intros H; inversion H].
  - destruct (p c) eqn:Ep; simpl.
    + split.
      * intros H. inversion H; subst. now constructor.
      * intros H. inversion H; subst. constructor.
    + split; [contradiction | intros H; inversion H; subst; congruence].
  - assert (Hcat : (exists s1 s2, s = s1 ++ s2 /\ lang (after c r1) s1 /\ matches r2 s2)
                   \/ (matches r1 [] /\ matches r2 (c :: s))
                   <-> matches (Cat r1 r2) (c :: s)).
    { split.
      - intros [(s1 & s2 & -> & H1 & H2) | [H1 H2]].
        + apply IH1 in H1. exact (matches_cat H1 H2).
        + exact (matches_cat H1 H2).
      - intros H. apply cat_inv in H. destruct H as (s1 & s2 & E & H1 & H2).
        destruct s1 as [| c1 s1]; simpl in E.
        + subst. right. now split.
        + injection E as -> ->. left. exists s1, s2. rewrite IH1. auto. }
    destruct (nullable r1) eqn:En.
    + rewrite lang_alt', lang_cat', IH2, <- Hcat.
      apply nullable_matches in En. tauto.
    + rewrite lang_cat', <- Hcat. split; [tauto |].
      intros [H | [H _]]; [exact H |].
      apply nullable_matches in H. congruence.
  - rewrite lang_alt', IH1, IH2. split.
    + intros [H | H]; [now apply matches_alt_l | now apply matches_alt_r].
    + intros H. inversion H; subst; auto.
  - rewrite lang_cat'. split.
    + intros (s1 & s2 & -> & H1 & H2). apply IH in H1.
      exact (matches_star_cons H1 H2).
    + intros H. apply star_head in H; [| discriminate].
      destruct H as (c' & s1 & s2 & E & H1 & H2). injection E as <- ->.
      exists s1, s2. rewrite IH. auto.
Qed.

(** [test] decides the language of the pattern. *)
Lemma test_matches (r : regex) (s : list N) : test r s = true <-> matches r s.
Proof.
  revert r. induction s as [| c s IH]; intros r; simpl.
  - apply nullable_matches.
  - rewrite <- after_matches. destruct (after c r) as [r' |]; simpl.
    + apply IH.
    + split; [discriminate | contradiction].
Qed.

(** Every code unit of a match belongs to a class of the pattern. *)
Lemma matches_within (P : N -> Prop) (r : regex) (s : list N) :
  classes_within P r -> matches r s -> Forall P s.
Proof.
  intros Hc H. induction H; simpl in Hc.
  - constructor.
  - constructor; [auto | constructor].
  - apply Forall_app. split; [apply IHmatches1 | apply IHmatches2]; tauto.
  - apply IHmatches; tauto.
  - apply IHmatches; tauto.
  - constructor.
  - apply Forall_app. split; [apply IHmatches1 | apply IHmatches2]; assumption.
Qed.

(** Repetitions of one class. *)
Lemma times_class (p : N -> bool) (n : nat) (s : list N) :
  matches (times n (Class p)) s <-> List.length s = n /\ Forall (fun c => p c = true) s.
Proof.
  revert s. induction n as [| n IH]; intros s; simpl.
  - split.
    + intros H. apply epsilon_inv in H. subst. split; [reflexivity | constructor].
    + intros [H _]. apply length_zero_iff_nil in H. subst. constructor.
  - split.
    + intros H. apply cat_inv in H. destruct H as (s1 & s2 & -> & H1 & H2).
      apply class_inv in H1. destruct H1 as (c & -> & Hc).
      apply IH in H2. destruct H2 as [<- Hf]. split; [reflexivity | now constructor].
    + intros [Hl Hf]. destruct s as [| c s]; [discriminate |].
      inversion Hf; subst. change (c :: s) with ([c] ++ s).
      constructor; [now constructor | apply IH; split; [now injection Hl | assumption]].
Qed.

Lemma at_most_class (p : N -> bool) (n : nat) (s : list N) :
  matches (at_most n (Class p)) s <-> List.length s <= n /\ Forall (fun c => p c = true) s.
Proof.
  revert s. induction n as [| n IH]; intros s; simpl.
  - split.
    + intros H. apply epsilon_inv in H. subst. split; [apply le_n | constructor].
    + intros [H _]. apply Nat.le_0_r, length_zero_iff_nil in H. subst. constructor.
  - split.
    + intros H. apply alt_inv in H. destruct H as [H | H].
      * apply cat_inv in H. destruct H as (s1 & s2 & -> & H1 & H2).
        apply class_inv in H1. destruct H1 as (c & -> & Hc).
        apply IH in H2. destruct H2 as [Hl Hf]. split; [simpl; now apply le_n_S | now constructor].
      * apply epsilon_inv in H. subst. split; [apply Nat.le_0_l | constructor].
    + intros [Hl Hf]. destruct s as [| c s].
      * apply matches_alt_r. constructor.
      * apply matches_alt_l. inversion Hf; subst. change (c :: s) with ([c] ++ s).
        constructor; [now constructor |].
        apply IH. split; [now apply le_S_n | assumption].
Qed.

Lemma between_class (p : N -> bool) (n m : nat) (s : list N) :
  n <= m ->
  matches (between n m (Class p)) s
  <-> (n <= List.length s <= m /\ Forall (fun c => p c = true) s).
Proof.
  intros Hnm. unfold between. split.
  - intros H. apply cat_inv in H. destruct H as (s1 & s2 & -> & H1 & H2).
    apply times_class in H1. apply at_most_class in H2.
    destruct H1 as [H1 F1], H2 as [H2 F2]. rewrite length_app, Forall_app.
    repeat split; try assumption.
    + rewrite H1. apply Nat.le_add_r.
    + rewrite H1. rewrite <- (Nat.sub_add n m Hnm), Nat.add_comm.
      now apply Nat.add_le_mono_r.
  - intros [[Hn Hm] Hf]. rewrite <- (firstn_skipn n s).
    rewrite <- (firstn_skipn n s) in Hf. apply Forall_app in Hf. destruct Hf as [F1 F2].
    constructor.
    + apply times_class. split; [| assumption].
      apply firstn_length_le. assumption.
    + apply at_most_class. split; [| assumption].
      rewrite length_skipn. now apply Nat.sub_le_mono_r.
Qed.

(** The last repetition of [r+]. *)
Lemma plus_last (r : regex) (s : list N) :
  matches (plus r) s -> exists s1 s2, s = s1 ++ s2 /\ matches (Star r) s1 /\ matches r s2.
Proof.
  intros H. apply cat_inv in H. destruct H as (s1 & s2 & -> & H1 & H2).
  revert s1 H1. remember (Star r) as q eqn:Eq.
  induction H2 as [| | | | | | r' t1 t2 Ht1 _ Ht2 IH]; try discriminate; intros s1 H1.
  - injection Eq as ->. exists [], s1. rewrite app_nil_r. repeat split; [constructor | assumption].
  - injection Eq as ->. destruct (IH eq_refl t1 Ht1) as (u1 & u2 & E & Hu1 & Hu2).
    exists (s1 ++ u1), u2. rewrite <- app_assoc, <- E. repeat split; [| assumption].
    now constructor.
Qed.

(** *** The e-mail pattern *)

Lemma email_parts (s : list N) :
  matches emailRegex s ->
  exists l d t,
    s = l ++ [64%N] ++ d ++ t
    /\ matches dotted_words l /\ matches dotted_words d
    /\ matches (plus (Cat (Class dot_char) (between 2 3 (Class word_char)))) t.
Proof.
  intros H. apply cat_inv in H. destruct H as (l & s1 & -> & Hl & H).
  apply cat_inv in H. destruct H as (a & s2 & -> & Ha & H).
  apply cat_inv in H. destruct H as (d & t & -> & Hd & Ht).
  apply class_inv in Ha. destruct Ha as (c & -> & Hc).
  apply N.eqb_eq in Hc. subst c. exists l, d, t. auto.
Qed.

Lemma dotted_words_within (P : N -> Prop) :
  (forall c, word_char c = true -> P c) ->
  (forall c, dot_or_hyphen c = true -> P c) ->
  classes_within P dotted_words.
Proof. intros Hw Hs. simpl. tauto. Qed.

Lemma tld_within (P : N -> Prop) :
  (forall c, word_char c = true -> P c) ->
  (forall c, dot_char c = true -> P c) ->
  classes_within P (plus (Cat (Class dot_char) (between 2 3 (Class word_char)))).
Proof. intros Hw Hs. simpl. tauto. Qed.

Lemma not_at_word (c : N) : word_char c = true -> c <> 64%N.
Proof. intros H ->. discriminate H. Qed.

Lemma not_at_sep (c : N) : dot_or_hyphen c = true -> c <> 64%N.
Proof. intros H ->. discriminate H. Qed.

Lemma not_at_dot (c : N) : dot_char c = true -> c <> 64%N.
Proof. intros H ->. discriminate H. Qed.

Lemma count_none (s : list N) :
  Forall (fun c => c <> 64%N) s -> count_occ N.eq_dec s 64%N = 0.
Proof.
  intros H. apply count_occ_not_In. intros Hin.
  rewrite Forall_forall in H. now apply (H _ Hin).
Qed.

(** X1: an address that the e-mail pattern accepts holds exactly one [@],
    and otherwise only letters, digits, [_], [.] and [-]. *)
Theorem email_one_at (s : list N) :
  test emailRegex s = true ->
  count_occ N.eq_dec s 64%N = 1 /\ forallb email_char s = true.
Proof.
  intros H. apply test_matches in H. split.
  - apply email_parts in H. destruct H as (l & d & t & -> & Hl & Hd & Ht).
    apply (matches_within _ (dotted_words_within _ not_at_word not_at_sep)) in Hl, Hd.
    apply (matches_within _ (tld_within _ not_at_word not_at_dot)) in Ht.
    rewrite !count_occ_app, (count_none Hl), (count_none Hd), (count_none Ht).
    reflexivity.
  - apply forallb_forall. apply Forall_forall.
    apply (@matches_within (fun c => email_char c = true) emailRegex s); [| exact H].
    unfold email_char. simpl. repeat split; intros c Hc.
    all: try (rewrite Hc; rewrite ?orb_true_r; reflexivity).
    all: unfold dot_char in Hc; unfold dot_or_hyphen; rewrite Hc; rewrite ?orb_true_r; reflexivity.
Qed.

Lemma email_one_at_witness :
  test emailRegex (units "hr@example.com") = true
  /\ count_occ N.eq_dec (units "hr@example.com") 64%N = 1.
Proof.
  assert (H : test emailRegex (units "hr@example.com") = true) by (vm_compute; reflexivity).
  split; [exact H | exact (proj1 (email_one_at _ H))].
Defined.

(** X2: an address that the e-mail pattern accepts ends with a dot followed
    by two or three characters of [\w], and that dot is not its first code
    unit: an address whose last label is longer than three is refused. *)
Theorem email_last_label (s : list N) :
  test emailRegex s = true ->
  exists pre label,
    s = pre ++ 46%N :: label
    /\ pre <> []
    /\ 2 <= List.length label <= 3
    /\ forallb word_char label = true.
Proof.
  intros H. apply test_matches, email_parts in H.
  destruct H as (l & d & t & -> & _ & _ & Ht).
  apply plus_last in Ht. destruct Ht as (t1 & t2 & -> & _ & Ht2).
  apply cat_inv in Ht2. destruct Ht2 as (a & label & -> & Ha & Hlabel).
  apply class_inv in Ha. destruct Ha as (c & -> & Hc). apply N.eqb_eq in Hc. subst c.
  apply between_class in Hlabel; [| repeat constructor]. destruct Hlabel as [Hlen Hw].
  exists (l ++ [64%N] ++ d ++ t1), label. repeat split.
  - now rewrite <- !app_assoc.
  - intros E. apply app_eq_nil in E. destruct E as [_ E]. discriminate E.
  - apply Hlen.
  - apply Hlen.
  - apply forallb_forall. now apply Forall_forall.
Qed.

Lemma email_last_label_witness :
  test emailRegex (units "hr@example.com") = true
  /\ exists pre label,
       units "hr@example.com" = pre ++ 46%N :: label
       /\ pre <> []
       /\ 2 <= List.length label <= 3
       /\ forallb word_char label = true.
Proof.
  assert (H : test emailRegex (units "hr@example.com") = true) by (vm_compute; reflexivity).
  split; [exact H | exact (email_last_label _ H)].
Defined.

(** A last label of four letters is refused. *)
Remark email_info_refused : test emailRegex (units "hr@example.info") = false.
Proof. vm_compute. reflexivity. Qed.

Lemma alternating_app (b : bool) (x y : list N) :
  alternating b x = true -> alternating b (x ++ y) = alternating true y.
Proof.
  revert b. induction x as [| c x IH]; intros b; simpl.
  - now intros ->.
  - destruct (word_char c).
    + apply IH.
    + intros H. apply andb_true_iff in H. destruct H as [-> H]. simpl. now apply IH.
Qed.

Lemma alternating_words (b : bool) (w : list N) :
  Forall (fun c => word_char c = true) w -> w <> [] -> alternating b w = true.
Proof.
  intros Hw Hn. destruct w as [| c w]; [now contradiction Hn |].
  inversion Hw as [| ? ? Hc Hw']; subst. simpl. rewrite Hc. clear Hn Hw Hc.
  induction Hw' as [| c' w' Hc' _ IH]; simpl; [reflexivity | now rewrite Hc'].
Qed.

Lemma plus_word (w : list N) :
  matches (plus (Class word_char)) w ->
  Forall (fun c => word_char c = true) w /\ w <> [].
Proof.
  intros H. split.
  - apply (matches_within (fun c => word_char c = true) (r := plus (Class word_char)));
      [simpl; auto | exact H].
  - apply cat_inv in H. destruct H as (s1 & s2 & -> & H1 & _).
    apply class_inv in H1. destruct H1 as (c & -> & _). discriminate.
Qed.

Lemma star_alternating (r : regex) (s : list N) :
  (forall u, matches r u -> alternating true u = true) ->
  matches (Star r) s -> alternating true s = true.
Proof.
  intros Hr H. remember (Star r) as q eqn:Eq.
  induction H as [| | | | | | r' s1 s2 H1 _ H2 IH]; try discriminate.
  - reflexivity.
  - injection Eq as ->. rewrite (alternating_app _ _ _ (Hr _ H1)). now apply IH.
Qed.

Lemma dotted_words_alternating (b : bool) (s : list N) :
  matches dotted_words s -> alternating b s = true.
Proof.
  intros H. apply cat_inv in H. destruct H as (w & y & -> & Hw & Hy).
  apply plus_word in Hw. destruct Hw as [Hw Hn].
  rewrite (alternating_app _ _ _ (alternating_words b Hw Hn)).
  apply (star_alternating (r := Cat (opt (Class dot_or_hyphen)) (plus (Class word_char))));
    [| exact Hy].
  intros u Hu. apply cat_inv in Hu. destruct Hu as (a & w' & -> & Ha & Hw').
  apply plus_word in Hw'. destruct Hw' as [Hw' Hn'].
  apply alt_inv in Ha. destruct Ha as [Ha | Ha].
  - apply class_inv in Ha. destruct Ha as (c & -> & _). simpl.
    destruct (word_char c); now apply alternating_words.
  - apply epsilon_inv in Ha. subst. now apply alternating_words.
Qed.

(** X3: in an address that the e-mail pattern accepts the first and the last
    code unit are of [\w] and no two neighbours are both outside [\w]: no
    leading, trailing or doubled [.], [-] or [@]. *)
Theorem email_alternating (s : list N) :
  test emailRegex s = true -> alternating false s = true.
Proof.
  intros H. apply test_matches, email_parts in H.
  destruct H as (l & d & t & -> & Hl & Hd & Ht).
  rewrite (alternating_app _ _ _ (dotted_words_alternating false Hl)).
  simpl. rewrite (alternating_app _ _ _ (dotted_words_alternating false Hd)).
  apply cat_inv in Ht. destruct Ht as (t1 & t2 & -> & Ht1 & Ht2).
  assert (Hblock : forall u,
             matches (Cat (Class dot_char) (between 2 3 (Class word_char))) u ->
             alternating true u = true).
  { intros u Hu. apply cat_inv in Hu. destruct Hu as (a & w & -> & Ha & Hw).
    apply class_inv in Ha. destruct Ha as (c & -> & _).
    apply between_class in Hw; [| repeat constructor]. destruct Hw as [[Hlen _] Hw].
    simpl. destruct (word_char c); apply alternating_words; try assumption.
    all: intros ->; simpl in Hlen; apply Nat.nle_succ_0 in Hlen; contradiction. }
  rewrite (alternating_app _ _ _ (Hblock _ Ht1)).
  exact (star_alternating Hblock Ht2).
Qed.

Lemma email_alternating_witness :
  test emailRegex (units "hr@example.com") = true
  /\ alternating false (units "hr@example.com") = true.
Proof.
  assert (H : test emailRegex (units "hr@example.com") = true) by (vm_compute; reflexivity).
  split; [exact H | exact (email_alternating _ H)].
Defined.

(** Conversely a name matches [\w+([.-]?\w+)*]. *)
Lemma blocks_of_alternating (s : list N) :
  forallb name_char s = true ->
  (alternating true s = true ->
   matches (Star (Cat (opt (Class dot_or_hyphen)) (plus (Class word_char)))) s)
  /\ (alternating false s = true ->
      exists c s', s = c :: s' /\ word_char c = true
        /\ matches (Star (Cat (opt (Class dot_or_hyphen)) (plus (Class word_char)))) s').
Proof.
  induction s as [| c s IH]; simpl.
  - intros _. split; [constructor | discriminate].
  - intros H. apply andb_true_iff in H. destruct H as [Hc Hs].
    destruct (IH Hs) as [IH1 IH2]. clear IH.
    assert (Hone : forall w, word_char w = true -> matches (plus (Class word_char)) [w]).
    { intros w Hw. change [w] with ([w] ++ []). constructor; now constructor. }
    destruct (word_char c) eqn:Ew.
    + split.
      * intros Ha. change (c :: s) with (([] ++ [c]) ++ s).
        constructor; [| now apply IH1].
        constructor; [apply matches_alt_r; constructor | now apply Hone].
      * intros Ha. exists c, s. auto.
    + split; [| discriminate]. simpl. intros Ha.
      destruct (IH2 Ha) as (w & s' & -> & Hw & Hm).
      change (c :: w :: s') with (([c] ++ [w]) ++ s').
      constructor; [| exact Hm].
      constructor; [apply matches_alt_l; constructor | now apply Hone].
      unfold name_char in Hc. now rewrite Ew in Hc.
Qed.

Lemma dotted_words_of_name (s : list N) : is_name s = true -> matches dotted_words s.
Proof.
  unfold is_name. intros H. apply andb_true_iff in H. destruct H as [Hc Ha].
  destruct (proj2 (blocks_of_alternating s Hc) Ha) as (c & s' & -> & Hw & Hm).
  change (c :: s') with (([c] ++ []) ++ s').
  constructor; [| exact Hm]. constructor; now constructor.
Qed.

Lemma name_of_dotted_words (s : list N) : matches dotted_words s -> is_name s = true.
Proof.
  intros H. unfold is_name. apply andb_true_iff. split.
  - apply forallb_forall, Forall_forall.
    apply (@matches_within (fun c => name_char c = true) dotted_words s); [| exact H].
    unfold name_char. simpl. repeat split; intros c Hc; rewrite Hc;
      rewrite ?orb_true_r; reflexivity.
  - now apply dotted_words_alternating.
Qed.

Lemma label_block (u : list N) :
  matches (Cat (Class dot_char) (between 2 3 (Class word_char))) u
  <-> exists label, u = 46%N :: label
        /\ 2 <= List.length label <= 3 /\ forallb word_char label = true.
Proof.
  split.
  - intros H. apply cat_inv in H. destruct H as (a & label & -> & Ha & Hl).
    apply class_inv in Ha. destruct Ha as (c & -> & Hc). apply N.eqb_eq in Hc. subst c.
    apply between_class in Hl; [| repeat constructor]. destruct Hl as [Hlen Hw].
    exists label. repeat split; try apply Hlen.
    apply forallb_forall. now apply Forall_forall.
  - intros (label & -> & Hlen & Hw). change (46%N :: label) with ([46%N] ++ label).
    constructor; [now constructor |].
    apply between_class; [repeat constructor |]. split; [exact Hlen |].
    apply Forall_forall. now apply forallb_forall.
Qed.

Lemma label_block_name (u : list N) :
  matches (Cat (Class dot_char) (between 2 3 (Class word_char))) u ->
  forallb name_char u = true /\ alternating true u = true.
Proof.
  intros H. apply label_block in H. destruct H as (label & -> & [Hlen _] & Hw).
  assert (Hf : Forall (fun c => word_char c = true) label)
    by (apply Forall_forall; now apply forallb_forall).
  split.
  - simpl. apply forallb_forall. intros c Hc. unfold name_char.
    rewrite forallb_forall in Hw. now rewrite (Hw c Hc).
  - simpl. apply alternating_words; [exact Hf |].
    intros ->. simpl in Hlen. apply Nat.nle_succ_0 in Hlen. contradiction.
Qed.

Lemma star_label_blocks_name (s : list N) :
  matches (Star (Cat (Class dot_char) (between 2 3 (Class word_char)))) s ->
  forallb name_char s = true /\ alternating true s = true.
Proof.
  intros H. remember (Star _) as q eqn:Eq.
  induction H as [| | | | | | r' s1 s2 H1 _ H2 IH]; try discriminate.
  - split; reflexivity.
  - injection Eq as ->. destruct (label_block_name H1) as [Hc Ha].
    destruct (IH eq_refl) as [Hc' Ha'].
    rewrite forallb_app, Hc, Hc'. split; [reflexivity |].
    now rewrite (alternating_app _ _ _ Ha).
Qed.

(** X23: the e-mail pattern accepts exactly the strings [name @ name . label]
    in which each name is made of letters, digits and [_] with single [.] or
    [-] between them and none at either end, and the label is two or three
    letters, digits or [_]. *)
Theorem email_shape (s : list N) :
  test emailRegex s = true
  <-> exists l pre label,
        s = l ++ 64%N :: pre ++ 46%N :: label
        /\ is_name l = true /\ is_name pre = true
        /\ 2 <= List.length label <= 3 /\ forallb word_char label = true.
Proof.
  rewrite test_matches. split.
  - intros H. apply email_parts in H. destruct H as (l & d & t & -> & Hl & Hd & Ht).
    apply plus_last in Ht. destruct Ht as (t1 & t2 & -> & Ht1 & Ht2).
    apply label_block in Ht2. destruct Ht2 as (label & -> & Hlen & Hw).
    exists l, (d ++ t1), label. repeat split; try assumption; try apply Hlen.
    + simpl. now rewrite <- app_assoc.
    + now apply name_of_dotted_words.
    + apply name_of_dotted_words in Hd. unfold is_name in *.
      apply andb_true_iff in Hd. destruct Hd as [Hc Ha].
      destruct (star_label_blocks_name Ht1) as [Hc' Ha'].
      rewrite forallb_app, Hc, Hc'. simpl.
      now rewrite (alternating_app _ _ _ Ha).
  - intros (l & pre & label & -> & Hl & Hpre & Hlen & Hw).
    unfold emailRegex. constructor; [now apply dotted_words_of_name |].
    change (64%N :: pre ++ 46%N :: label) with ([64%N] ++ (pre ++ 46%N :: label)).
    constructor; [now constructor |].
    constructor; [now apply dotted_words_of_name |].
    rewrite <- (app_nil_r (46%N :: label)).
    constructor; [| constructor].
    apply label_block. exists label. auto.
Qed.

(** *** The telephone pattern *)

(** X4: the telephone pattern accepts exactly the strings of 10 to 15
    digits. *)
Theorem phone_digits (s : list N) :
  test phoneRegex s = true
  <-> (10 <= List.length s <= 15 /\ forallb digit_char s = true).
Proof.
  rewrite test_matches. unfold phoneRegex.
  rewrite between_class by (repeat constructor).
  rewrite forallb_forall, Forall_forall. reflexivity.
Qed.

End RegExpFacts.

(** ** The culture quiz *)

Module CultureQuizFacts.
Import CultureQuiz.


(** What the pattern accepts is a string, or an array of one element that it
    accepts. *)
Lemma email_matches_form : forall x : jsvalue,
  email_matches x = true ->
  exists s, email_form x s /\ RegExp.test RegExp.emailRegex s = true.
Proof.
  fix IH 1. intros [v | items | members] H.
  - destruct v; try discriminate H. eexists. split; [constructor | exact H].
  - destruct items as [| y [| z rest]]; try discriminate H.
    destruct (IH y H) as (s & Hf & Ht).
    exists s. split; [constructor; exact Hf | exact Ht].
  - discriminate H.
Qed.

Lemma email_form_matches (x : jsvalue) (s : list N) :
  email_form x s -> to_string_throws x = false /\ email_matches x = RegExp.test RegExp.emailRegex s.
Proof.
  induction 1 as [s n | y s _ [IH1 IH2]]; [split; reflexivity |].
  split; [simpl; now rewrite IH1 | exact IH2].
Qed.

(** [emailRegex.test(email)] is true exactly for such a value. *)
Lemma emailRegex_test_true (x : jsvalue) :
  emailRegex_test x = Some true <->
  exists s, email_form x s /\ RegExp.test RegExp.emailRegex s = true.
Proof.
  unfold emailRegex_test. split.
  - destruct (to_string_throws x); [discriminate |].
    intros [= H]. now apply email_matches_form.
  - intros (s & Hf & Ht). destruct (email_form_matches Hf) as [-> ->].
    now rewrite Ht.
Qed.



(** X9: the answer 'Invalid answers format' is given only when [answers] is
    a truthy primitive value (a string, a number or [true]); a [null] is
    answered by the first check, so the test [answers === null] of line 1068
    decides nothing. *)
Theorem invalid_answers_only_primitives (body : Body) :
  handler body = Respond 400 "Invalid answers format" ->
  exists v, answers body = Prim v /\ ToBoolean v = true /\ v <> VNull.
Proof.
  intros H. unfold handler in H.
  destruct (answers body) as [v | items | members] eqn:Ea; simpl in H.
  - exists v. split; [reflexivity |].
    destruct (ToBoolean v) eqn:Ev.
    + split; [reflexivity | intros ->; discriminate Ev].
    + destruct (truthy (email body)); simpl in H; discriminate H.
  - repeat match type of H with
    | context [if ?c then _ else _] => destruct c; simpl in H
    | context [match ?c with Some _ => _ | None => _ end] => destruct c as [[]|]; simpl in H
    end; discriminate H.
  - repeat match type of H with
    | context [if ?c then _ else _] => destruct c; simpl in H
    | context [match ?c with Some _ => _ | None => _ end] => destruct c as [[]|]; simpl in H
    end; discriminate H.
Qed.

Lemma invalid_answers_only_primitives_witness :
  let body := {| email := Prim example_email;
                 answers := Prim (VString (units "yes") NaN);
                 totalScore := Prim (VNumber (Finite 21));
                 totalQuestions := Prim (VNumber (Finite 2));
                 answeredCount := Prim (VNumber (Finite 2));
                 cultureLevel := cultureLevel example_body |} in
  handler body = Respond 400 "Invalid answers format"
  /\ exists v, answers body = Prim v /\ ToBoolean v = true /\ v <> VNull.
Proof.
  intros body.
  assert (H : handler body = Respond 400 "Invalid answers format")
    by (vm_compute; reflexivity).
  split; [exact H | exact (invalid_answers_only_primitives body H)].
Defined.

(** X10: a request whose [answeredCount] or [totalQuestions] is the number 0
    is refused as having a required field missing.  [totalScore] is only
    compared with [undefined]: on every request, replacing a [totalScore]
    that is not [undefined] by any other value that is not [undefined], 0
    and [null] among them, leaves the outcome as it is; and a [totalScore]
    of 0 is accepted. *)
Theorem zero_counts_refused :
  (forall (body : Body) (q : Q),
     (q == 0)%Q ->
     answeredCount body = Prim (VNumber (Finite q))
     \/ totalQuestions body = Prim (VNumber (Finite q)) ->
     handler body = Respond 400 "All required fields must be provided")
  /\ (forall (body : Body) (v : jsvalue),
        v <> Prim VUndefined -> totalScore body <> Prim VUndefined ->
        handler (with_totalScore v body) = handler body)
  /\ handler (with_totalScore (Prim (VNumber (Finite 0))) example_body) = Accept
  /\ handler (with_totalScore (Prim VNull) example_body) = Accept.
Proof.
  split; [| split; [| split; vm_compute; reflexivity]].
  - intros body q Hq Hz. unfold handler.
    destruct Hz as [-> | ->]; cbn [truthy]; rewrite (zero_is_falsy Hq); simpl;
      rewrite ?orb_true_r; reflexivity.
  - intros body v Hv Hb. unfold handler, with_totalScore. simpl.
    assert (E : forall x, x <> Prim VUndefined -> is_undefined x = false).
    { intros [[]| |] Hx; try reflexivity. now contradiction Hx. }
    rewrite (E v Hv), (E _ Hb). reflexivity.
Qed.

Lemma zero_counts_refused_witness :
  let body := with_totalScore (Prim (VNumber (Finite 0)))
                {| email := Prim example_email;
                   answers := answers example_body;
                   totalScore := Prim (VNumber (Finite 5));
                   totalQuestions := Prim (VNumber (Finite 2));
                   answeredCount := Prim (VNumber (Finite 0));
                   cultureLevel := cultureLevel example_body |} in
  (0 == 0)%Q /\ answeredCount body = Prim (VNumber (Finite 0))
  /\ handler body = Respond 400 "All required fields must be provided".
Proof.
  intros body.
  assert (Hq : (0 == 0)%Q) by reflexivity.
  assert (Ha : answeredCount body = Prim (VNumber (Finite 0))) by reflexivity.
  exact (conj Hq (conj Ha (proj1 zero_counts_refused body 0%Q Hq (or_introl Ha)))).
Defined.

(** X11: when the e-mail handler goes on to save, the [email] that it hands
    to [new CultureQuizEmail] is the one of the body, a string that the
    e-mail pattern accepts or an array of one such value, and the
    [quizType] that it hands over is truthy: the one of the body, or
    'culture_quiz' when that is missing or falsy. *)
Theorem email_handler_saves (body : EmailBody) (email quiz : jsvalue) :
  email_handler body = EmailSave email quiz ->
  email = e_email body
  /\ (exists s, email_form email s /\ RegExp.test RegExp.emailRegex s = true)
  /\ truthy quiz = true
  /\ (truthy (quizType body) = false -> quiz = culture_quiz)
  /\ (truthy (quizType body) = true -> quiz = quizType body).
Proof.
  unfold email_handler.
  destruct (truthy (e_email body)); simpl; try discriminate.
  destruct (emailRegex_test (e_email body)) as [[]|] eqn:He; simpl; try discriminate.
  intros [= <- <-]. repeat split.
  - now apply emailRegex_test_true.
  - unfold or_default. destruct (truthy (quizType body)) eqn:Eq; [exact Eq | reflexivity].
  - intros Eq. unfold or_default. now rewrite Eq.
  - intros Eq. unfold or_default. now rewrite Eq.
Qed.

Lemma email_handler_saves_witness :
  email_handler example_email_body = EmailSave (Prim example_email) culture_quiz
  /\ truthy culture_quiz = true.
Proof.
  assert (H : email_handler example_email_body
              = EmailSave (Prim example_email) culture_quiz)
    by (vm_compute; reflexivity).
  split; [exact H | exact (proj1 (proj2 (proj2 (email_handler_saves _ H))))].
Defined.

End CultureQuizFacts.

(** ** Activity types, origins and the contact form *)

Module ActivitiesFacts.
Import Activities.

Lemma schema_label (a : string) :
  In a schema_enum -> exists l, label a = Some l /\ In (a, l) activityMap.
Proof.
  simpl. intros [<- | [<- | [<- | [<- | [<- | [<- | []]]]]]]; eexists;
    (split; [reflexivity | simpl; tauto]).
Qed.

(** X15: every activity type that contactSchema allows has a label in
    [activityMap]: for a list of allowed types that is not empty,
    formatActivityTypes gives the labels of the types, in their order,
    joined by a comma and a blank, and no type is printed as it was sent. *)
Theorem allowed_activities_are_labelled (activities : list string) :
  activities <> [] ->
  Forall (fun a => In a schema_enum) activities ->
  exists ls,
    formatActivityTypes (Some activities) = Some (String.concat ", " ls)
    /\ Forall2 (fun a l => In (a, l) activityMap) activities ls.
Proof.
  intros Hn Hall.
  assert (H : exists ls, labels activities = Some ls
                         /\ Forall2 (fun a l => In (a, l) activityMap) activities ls).
  { clear Hn. induction Hall as [| a rest Ha _ IH].
    - exists []. split; [reflexivity | constructor].
    - destruct (schema_label Ha) as (l & Hl & Hin).
      destruct IH as (ls & Hls & Hf).
      exists (l :: ls). split; [| now constructor].
      simpl labels. now rewrite Hl, Hls. }
  destruct H as (ls & Hls & Hf). exists ls. split; [| exact Hf].
  destruct activities as [| a rest]; [now contradiction Hn |].
  unfold formatActivityTypes. now rewrite Hls.
Qed.

Lemma allowed_activities_are_labelled_witness :
  formatActivityTypes (Some ["team-building"; "offsite-retreats"]%string)
  = Some "Team Building, Offsite Retreats"%string
  /\ exists ls,
       formatActivityTypes (Some ["team-building"; "offsite-retreats"]%string)
       = Some (String.concat ", " ls)
       /\ Forall2 (fun a l => In (a, l) activityMap)
            ["team-building"; "offsite-retreats"]%string ls.
Proof.
  split; [reflexivity |].
  apply allowed_activities_are_labelled; [discriminate |].
  repeat constructor; simpl; tauto.
Defined.

End ActivitiesFacts.

Module CorsFacts.
Import Cors.



End CorsFacts.

Module ContactFacts.
Import Contact.

Lemma js_or_empty (v : value) :
  (ToBoolean v = true /\ js_or v empty_string = v)
  \/ (ToBoolean v = false /\ js_or v empty_string = empty_string).
Proof. unfold js_or. destruct (ToBoolean v); auto. Qed.

(** X17: the contact handler refuses, with status 400, exactly the requests
    whose [fullName] or [workEmail] is missing or otherwise falsy; in the
    document it saves otherwise, each of [phoneNumber], [companyName],
    [participants] and [message] is the value of the body when that is truthy
    and the empty string when it is not, and [activityType] is the value of
    the body or the empty array: none of them is [undefined] or [null]. *)
Theorem contact_document (body : Body) :
  (handler body = Respond 400 "Full name and email are required"
   <-> (ToBoolean (fullName body) = false \/ ToBoolean (workEmail body) = false))
  /\ forall doc, handler body = Save doc ->
       d_fullName doc = fullName body /\ d_workEmail doc = workEmail body
       /\ Forall (fun p => (ToBoolean (snd p) = true /\ fst p = snd p)
                           \/ (ToBoolean (snd p) = false /\ fst p = empty_string))
            [(d_phoneNumber doc, phoneNumber body);
             (d_companyName doc, companyName body);
             (d_participants doc, participants body);
             (d_message doc, message body)]
       /\ Forall (fun v => v <> VUndefined /\ v <> VNull)
            [d_phoneNumber doc; d_companyName doc; d_participants doc; d_message doc]
       /\ ((truthy (activityType body) = true /\ d_activityType doc = activityType body)
           \/ (truthy (activityType body) = false /\ d_activityType doc = Arr []))
       /\ truthy (d_activityType doc) = true.
Proof.
  unfold handler.
  destruct (ToBoolean (fullName body)) eqn:En, (ToBoolean (workEmail body)) eqn:Ee; simpl.
  2-4: split; [split; [auto | reflexivity] | discriminate].
  split; [split; [discriminate | intros [H | H]; discriminate H] |].
  intros doc [= <-]. simpl.
  assert (Hor : forall v, js_or v empty_string <> VUndefined
                          /\ js_or v empty_string <> VNull).
  { intros v. unfold js_or. destruct (ToBoolean v) eqn:Ev.
    - split; intros ->; discriminate Ev.
    - split; discriminate. }
  repeat split; try reflexivity.
  - repeat (constructor; [simpl; destruct (js_or_empty (phoneNumber body));
                          destruct (js_or_empty (companyName body));
                          destruct (js_or_empty (participants body));
                          destruct (js_or_empty (message body)); tauto |]).
    constructor.
  - repeat (constructor; [apply Hor |]). constructor.
  - destruct (truthy (activityType body)); auto.
  - destruct (truthy (activityType body)) eqn:Et; [exact Et | reflexivity].
Qed.

Lemma contact_document_witness :
  exists doc,
    handler minimal_body = Save doc
    /\ d_phoneNumber doc = empty_string
    /\ d_activityType doc = Arr []
    /\ Forall (fun v => v <> VUndefined /\ v <> VNull)
         [d_phoneNumber doc; d_companyName doc; d_participants doc; d_message doc].
Proof.
  eexists. split; [reflexivity |]. split; [reflexivity |]. split; [reflexivity |].
  refine (proj1 (proj2 (proj2 (proj2 (proj2 (contact_document minimal_body) _ _))))).
  reflexivity.
Defined.

End ContactFacts.

(** ** The estimator, the schema and the handler together *)

Module RoiFacts.

Section Binary64Results.
Import Binary64 Binary64Facts.
Local Open Scope float_scope.

Local Abbreviation lit64 := (@lit float Binary64.number).
Local Abbreviation calculateROI64 := (@RoiCalculator.calculateROI float Binary64.number).
Local Abbreviation cost64 := (@Spec.disengagementCost float Binary64.number).

(** X18: on a valid input whose hidden loss has not overflowed, in binary64,
    no figure of the result is negative (or NaN), the absenteeism cost is at
    most the disengagement cost, and the hidden loss is at least the
    turnover cost and at least the disengagement cost. *)
Theorem results_nonnegative (d : ROIInput float) :
  Spec.valid_binary64 d ->
  let r := calculateROI64 d in
  is_finite (totalHiddenLoss r) = true ->
  nonnegative (totalTurnoverCost r)
  /\ nonnegative (totalAbsenteeismCost r)
  /\ le (totalAbsenteeismCost r) (totalDisengagementCost r)
  /\ le (totalTurnoverCost r) (totalHiddenLoss r)
  /\ le (totalDisengagementCost r) (totalHiddenLoss r)
  /\ nonnegative (potentialSavingsMin r)
  /\ nonnegative (potentialSavingsMax r)
  /\ nonnegative (potentialRevenueIncreaseMin r)
  /\ nonnegative (potentialRevenueIncreaseMax r).
Proof.
  intros Hv r Hfin.
  destruct (valid_binary64_real Hv) as (Rn & Rs & Rv & Rl & Ra & Re).
  destruct Hv as (_ & _ & _ & _ & _ & _ & _ & He1 & He10).
  destruct d as [n s v l a e].
  cbn [numEmployees avgAnnualSalary annualRevenue employeesWhoLeft
       avgExtraAbsenteeismDaysPerEmployee engagementScore] in *.
  destruct real_literals as (_ & R1 & R2 & _ & _ & _ & _ & R02 & R05).
  change (totalHiddenLoss r) with (l * (s * lit64 1.25) + cost64 n s a e) in *.
  change (totalTurnoverCost r) with (l * (s * lit64 1.25)).
  change (totalDisengagementCost r) with (cost64 n s a e).
  change (totalAbsenteeismCost r) with (n * a * (s / 250) * ((10 - e) / 10)).
  change (potentialSavingsMin r)
    with (max 0 (cost64 n s a e - cost64 n s a (min 10 (e + 1)))).
  change (potentialSavingsMax r)
    with (max 0 (cost64 n s a e - cost64 n s a (min 10 (e + 2)))).
  change (potentialRevenueIncreaseMin r) with (v * lit64 0.02 * ((e + 1) / 10)).
  change (potentialRevenueIncreaseMax r) with (v * lit64 0.05 * ((e + 2) / 10)).
  destruct (add_finite _ _ Hfin) as (Ft & Fc).
  pose proof (turnoverCost_real Rl Rs Ft) as Rt.
  destruct (disengagementCost_antitone Rn Rs Ra (proj1 Re) (le_refl (proj1 Re)) He10 Fc)
    as (Rc & _).
  destruct (absenteeismCost_part Rn Rs Ra (proj1 Re) He10 Fc) as (Rb & Hb).
  destruct (savings_real Rn Rs Ra He1 He10 Fc) as (Rs1 & Rs2 & _).
  destruct (@revenue_factor_monotone e e 1 (proj1 Re) (le_refl (proj1 Re)) He10
              (conj eq_refl eq_refl) eq_refl) as (Rq1 & _).
  destruct (@revenue_factor_monotone e e 2 (proj1 Re) (le_refl (proj1 Re)) He10
              (conj eq_refl eq_refl) eq_refl) as (Rq2 & _).
  destruct (@mul_le_one v (lit64 0.02) Rv R02 eq_refl) as (Ra1 & _).
  destruct (@mul_le_one v (lit64 0.05) Rv R05 eq_refl) as (Ra2 & _).
  split; [apply Rt |]. split; [apply Rb |]. split; [exact Hb |].
  split; [now apply add_ge_l |]. split; [now apply add_ge_r |].
  split; [apply Rs1 |]. split; [apply Rs2 |].
  split; [exact (proj1 (mul_value Ra1 Rq1)) | exact (proj1 (mul_value Ra2 Rq2))].
Qed.

Lemma results_nonnegative_witness :
  let d := example_input Binary64.literal in
  let r := calculateROI64 d in
  Spec.valid_binary64 d /\ is_finite (totalHiddenLoss r) = true
  /\ le (totalAbsenteeismCost r) (totalDisengagementCost r).
Proof.
  intros d r.
  assert (Hv : Spec.valid_binary64 d) by (repeat split; vm_compute; reflexivity).
  assert (Hf : is_finite (totalHiddenLoss r) = true) by (vm_compute; reflexivity).
  exact (conj Hv (conj Hf (proj1 (proj2 (proj2 (results_nonnegative Hv Hf)))))).
Defined.

(** X20: between two valid inputs that differ only in the engagement score,
    and whose hidden loss at the lower score has not overflowed, the one
    with the higher score has the lower (or equal) disengagement cost and
    hidden loss, the same turnover cost, and the higher (or equal) revenue
    increases, in binary64. *)
Theorem higher_score_lower_loss (d : ROIInput float) (e : float) :
  Spec.valid_binary64 d -> le (engagementScore d) e -> le e 10 ->
  let r := calculateROI64 d in
  let r' := calculateROI64 (with_engagementScore e d) in
  is_finite (totalHiddenLoss r) = true ->
  le (totalDisengagementCost r') (totalDisengagementCost r)
  /\ le (totalHiddenLoss r') (totalHiddenLoss r)
  /\ totalTurnoverCost r' = totalTurnoverCost r
  /\ le (potentialRevenueIncreaseMin r) (potentialRevenueIncreaseMin r')
  /\ le (potentialRevenueIncreaseMax r) (potentialRevenueIncreaseMax r').
Proof.
  intros Hv He He' r r' Hfin.
  destruct (valid_binary64_real Hv) as (Rn & Rs & Rv & Rl & Ra & Re).
  destruct Hv as (_ & _ & _ & _ & _ & _ & _ & He1 & He10).
  destruct d as [n s v l a e0].
  cbn [numEmployees avgAnnualSalary annualRevenue employeesWhoLeft
       avgExtraAbsenteeismDaysPerEmployee engagementScore] in *.
  destruct real_literals as (_ & R1 & R2 & _ & _ & _ & _ & R02 & R05).
  change (totalHiddenLoss r) with (l * (s * lit64 1.25) + cost64 n s a e0) in *.
  change (totalHiddenLoss r') with (l * (s * lit64 1.25) + cost64 n s a e).
  change (totalDisengagementCost r) with (cost64 n s a e0).
  change (totalDisengagementCost r') with (cost64 n s a e).
  change (potentialRevenueIncreaseMin r) with (v * lit64 0.02 * ((e0 + 1) / 10)).
  change (potentialRevenueIncreaseMax r) with (v * lit64 0.05 * ((e0 + 2) / 10)).
  change (potentialRevenueIncreaseMin r') with (v * lit64 0.02 * ((e + 1) / 10)).
  change (potentialRevenueIncreaseMax r') with (v * lit64 0.05 * ((e + 2) / 10)).
  destruct (add_finite _ _ Hfin) as (Ft & Fc).
  pose proof (turnoverCost_real Rl Rs Ft) as Rt.
  destruct (disengagementCost_antitone Rn Rs Ra (proj1 Re) He He' Fc) as (Rc & Rc' & Hc).
  destruct (@revenue_factor_monotone e0 e 1 (proj1 Re) He He'
              (conj eq_refl eq_refl) eq_refl) as (Rq1 & Rq1' & Hq1).
  destruct (@revenue_factor_monotone e0 e 2 (proj1 Re) He He'
              (conj eq_refl eq_refl) eq_refl) as (Rq2 & Rq2' & Hq2).
  destruct (@mul_le_one v (lit64 0.02) Rv R02 eq_refl) as (Ra1 & _).
  destruct (@mul_le_one v (lit64 0.05) Rv R05 eq_refl) as (Ra2 & _).
  split; [exact Hc |].
  split; [apply add_le; try assumption; apply le_refl, Rt |].
  split; [reflexivity |].
  split; apply mul_le; try assumption; first [apply le_refl, Ra1 | apply le_refl, Ra2].
Qed.

Lemma higher_score_lower_loss_witness :
  let d := example_input Binary64.literal in
  let r := calculateROI64 d in
  let r' := calculateROI64 (with_engagementScore 8 d) in
  Spec.valid_binary64 d /\ le (engagementScore d) 8 /\ le 8 10
  /\ is_finite (totalHiddenLoss r) = true
  /\ le (totalHiddenLoss r') (totalHiddenLoss r).
Proof.
  intros d r r'.
  assert (Hv : Spec.valid_binary64 d) by (repeat split; vm_compute; reflexivity).
  assert (He : le (engagementScore d) 8) by (vm_compute; reflexivity).
  assert (He' : le 8 10) by reflexivity.
  assert (Hf : is_finite (totalHiddenLoss r) = true) by (vm_compute; reflexivity).
  exact (conj Hv (conj He (conj He' (conj Hf
           (proj1 (proj2 (higher_score_lower_loss Hv He He' Hf))))))).
Defined.

End Binary64Results.

Local Open Scope Q_scope.

Lemma nonzero_truthy (q : Q) : ToBoolean (VNumber (Finite q)) = true <-> ~ q == 0.
Proof.
  simpl. rewrite negb_true_iff, <- not_true_iff_false, Qeq_bool_iff. reflexivity.
Qed.

(** X21: a request whose six fields are numbers reaches [calculateROI]
    exactly when [numEmployees], [avgAnnualSalary] and [annualRevenue] are not
    zero, the contact fields are truthy, [employeesWhoLeft] is at most
    [numEmployees] and the score is between 1 and 10: the handler puts no
    lower bound on any of the other numbers. *)
Theorem numeric_request_reaches_calculateROI (d : ROIInput Q) (mail phone : value) :
  handler (numeric_body d mail phone)
  = CallCalculateROI (ROIInput_map (fun q => VNumber (Finite q)) d)
  <-> (~ numEmployees d == 0 /\ ~ avgAnnualSalary d == 0 /\ ~ annualRevenue d == 0
       /\ ToBoolean mail = true /\ ToBoolean phone = true
       /\ employeesWhoLeft d <= numEmployees d
       /\ 1 <= engagementScore d <= 10).
Proof.
  rewrite handler_calls. destruct d as [n s r l a e].
  unfold required_fields_missing, numeric_body, ROIInput_map.
  cbn [roi email phoneNumber numEmployees avgAnnualSalary annualRevenue
       employeesWhoLeft avgExtraAbsenteeismDaysPerEmployee engagementScore].
  rewrite !orb_false_iff, !negb_false_iff, !nonzero_truthy.
  rewrite <- !not_true_iff_false, js_gt_numbers, js_lt_numbers, js_gt_numbers.
  split.
  - intros (((((Hn & Hs) & Hr) & Hm) & Hp) & Hl & H1 & H10 & _).
    repeat split; try assumption; apply Qnot_lt_le; assumption.
  - intros (Hn & Hs & Hr & Hm & Hp & Hl & H1 & H10).
    repeat split; try assumption; apply Qle_not_lt; assumption.
Qed.

Lemma numeric_request_reaches_calculateROI_witness :
  let d := {| numEmployees := 100; avgAnnualSalary := -600000;
              annualRevenue := 50000000; employeesWhoLeft := -3;
              avgExtraAbsenteeismDaysPerEmployee := -5; engagementScore := 6 |} in
  handler (numeric_body d example_email example_phone)
  = CallCalculateROI (ROIInput_map (fun q => VNumber (Finite q)) d).
Proof.
  intros d. apply (proj2 (numeric_request_reaches_calculateROI d example_email example_phone)).
  repeat split; try discriminate; apply Qle_bool_iff; reflexivity.
Defined.

(** X22: a request whose six fields are numbers, that the handler lets
    through and whose numbers pass the [min] and [max] validators of
    roiCalculatorSchema, is a valid input of the estimator. *)
Theorem stored_input_is_valid (d : ROIInput Q) (mail phone : value) :
  handler (numeric_body d mail phone)
  = CallCalculateROI (ROIInput_map (fun q => VNumber (Finite q)) d) ->
  RoiSchema.schema_accepts d = true ->
  Spec.valid d.
Proof.
  intros Hh Hs. apply handler_calls in Hh. destruct Hh as (_ & Hgt & _).
  assert (Hl : employeesWhoLeft d <= numEmployees d).
  { destruct d as [n s r l a e].
    cbn [numeric_body roi ROIInput_map employeesWhoLeft numEmployees] in Hgt.
    apply Qnot_lt_le. intros Hlt. apply js_gt_numbers in Hlt.
    cbn [employeesWhoLeft numEmployees] in Hlt. congruence. }
  unfold RoiSchema.schema_accepts, RoiSchema.path_accepts in Hs. simpl in Hs.
  rewrite !andb_true_iff, !Qle_bool_iff in Hs.
  repeat match goal with
  | H : _ /\ _ |- _ => destruct H
  end.
  unfold Spec.valid. repeat split; assumption.
Qed.

Lemma stored_input_is_valid_witness :
  let d := example_input (fun q => q) in
  RoiSchema.schema_accepts d = true /\ Spec.valid d.
Proof.
  intros d.
  assert (Hs : RoiSchema.schema_accepts d = true) by reflexivity.
  assert (Hh : handler (numeric_body d example_email example_phone)
               = CallCalculateROI (ROIInput_map (fun q => VNumber (Finite q)) d))
    by reflexivity.
  exact (conj Hs (@stored_input_is_valid d example_email example_phone Hh Hs)).
Defined.

End RoiFacts.

(** ** Rate limiting *)

Module RoutesFacts.
Import Routes.

(** X24: of the routes of the file the limiter covers POST /api/contact,
    POST /api/roi-calculator and GET /api/culture-quiz only; no path that
    begins with /api/culture-quiz- is covered, so that neither POST
    /api/culture-quiz-results nor POST /api/culture-quiz-email is rate
    limited. *)
Theorem limiter_coverage (rest : string) :
  limited ("/api/culture-quiz-" ++ rest) = false
  /\ filter (fun r => limited (snd r)) routes
     = [(POST, "/api/contact"); (POST, "/api/roi-calculator");
        (GET, "/api/culture-quiz")]%string
  /\ limited ("/api/culture-quiz/" ++ rest) = true.
Proof. repeat split. Qed.

End RoutesFacts.
